(** * go-astiencoder: demuxer looper, rate emulator, rate enforcer, event logger

    A shallow embedding of the demuxer (looper, rate emulator, read loop and
    stream table), of the rate enforcer and of the event logger's merging
    contract, together with the properties stated about them.

    Conventions.
    - Go's [int64] (and [time.Duration], an [int64] of nanoseconds) is a [Z]
      with the two's complement wrap-around written out ([Int64.wrap]).
    - A Go map is a [gmap]; a Go slice is a [list].
    - An interface value or pointer that may be [nil] is an [option].
    - Calls into the native layer whose result the code branches on
      ([Ref], [ReadFrame], [SeekFrame], [time.Now]) are inputs of the
      modelled function. *)

From stdpp Require Import base gmap list strings sorting pretty.
From Stdlib Require Import ZArith Lia.

Local Open Scope Z_scope.

(** ** 64-bit signed integers *)

Module Int64.

Definition min_int : Z := - 2 ^ 63.
Definition max_int : Z := 2 ^ 63 - 1.

Definition in_range (z : Z) : Prop := min_int ≤ z ≤ max_int.

Definition in_rangeb (z : Z) : bool := (min_int <=? z) && (z <=? max_int).

(** Two's complement reduction of a mathematical integer to [int64]. *)
Definition wrap (z : Z) : Z := (z + 2 ^ 63) mod 2 ^ 64 - 2 ^ 63.

Definition add (a b : Z) : Z := wrap (a + b).
Definition sub (a b : Z) : Z := wrap (a - b).

Lemma in_rangeb_spec z : in_rangeb z = true ↔ in_range z.
Proof. unfold in_rangeb, in_range. rewrite andb_true_iff. lia. Qed.

Lemma wrap_in_range z : in_range (wrap z).
Proof.
  unfold in_range, wrap, min_int, max_int.
  pose proof (Z.mod_pos_bound (z + 2 ^ 63) (2 ^ 64) ltac:(lia)). lia.
Qed.

Lemma wrap_id z : in_range z → wrap z = z.
Proof.
  unfold in_range, wrap, min_int, max_int. intros Hz.
  rewrite Z.mod_small; lia.
Qed.

Lemma wrap_congr a b : (a - b) mod 2 ^ 64 = 0 → wrap a = wrap b.
Proof.
  unfold wrap. intros H. f_equal.
  replace (a + 2 ^ 63) with ((b + 2 ^ 63) + (a - b)) by lia.
  rewrite Z.add_mod by lia. rewrite H, Z.add_0_r. apply Z.mod_mod. lia.
Qed.

Lemma wrap_mod z : (wrap z - z) mod 2 ^ 64 = 0.
Proof.
  unfold wrap.
  rewrite (Z.mod_eq (z + 2 ^ 63) (2 ^ 64)) by lia.
  replace (z + 2 ^ 63 - 2 ^ 64 * ((z + 2 ^ 63) / 2 ^ 64) - 2 ^ 63 - z)
    with ((- ((z + 2 ^ 63) / 2 ^ 64)) * 2 ^ 64) by lia.
  apply Z.mod_mul. lia.
Qed.

Lemma wrap_add_l a b : wrap (wrap a + b) = wrap (a + b).
Proof.
  apply wrap_congr. replace (wrap a + b - (a + b)) with (wrap a - a) by lia.
  apply wrap_mod.
Qed.

Lemma wrap_add_r a b : wrap (a + wrap b) = wrap (a + b).
Proof. rewrite (Z.add_comm a), wrap_add_l. f_equal. lia. Qed.

Lemma wrap_sub_l a b : wrap (wrap a - b) = wrap (a - b).
Proof. apply (wrap_add_l a (- b)). Qed.

Lemma wrap_sub_r a b : wrap (a - wrap b) = wrap (a - b).
Proof.
  apply wrap_congr. replace (a - wrap b - (a - b)) with (- (wrap b - b)) by lia.
  pose proof (wrap_mod b) as H.
  apply Z.mod_divide in H; [|lia]. apply Z.mod_divide; [lia|].
  by apply Z.divide_opp_r.
Qed.

End Int64.

(** ** The codec layer: rationals, packets, frames *)

Module Av.

(** [astiav.Rational]: numerator and denominator. *)
Record Rational := mkRational { num : Z; den : Z }.

(** [nanosecondRational = astiav.NewRational(1, 1e9)] *)
Definition nanosecondRational : Rational := mkRational 1 1000000000.

(** Modelled from the spec: [astiav.RescaleQ] belongs to the codec layer; the
    glossary gives it as [x * fromTB / toTB] with rounding. The rounding is
    to the nearest integer, halves away from zero; a zero denominator yields
    the minimal [int64]. *)
Definition RescaleQ (a : Z) (bq cq : Rational) : Z :=
  let b := num bq * den cq in
  let c := num cq * den bq in
  if (c =? 0) then Int64.min_int
  else
    let n := a * b in
    let q := Z.abs n * 2 + Z.abs c in
    let r := Z.quot q (2 * Z.abs c) in
    Int64.wrap (Z.sgn n * Z.sgn c * r).

(** [astiav.Packet], reduced to the fields the demuxer reads and writes. *)
Record Packet := mkPacket {
  streamIndex : Z;
  pts : Z;
  dts : Z;
  Size : Z;
  payload : nat
}.

Definition SetDts (p : Packet) (v : Z) : Packet :=
  mkPacket (streamIndex p) (pts p) v (Size p) (payload p).

Definition SetPts (p : Packet) (v : Z) : Packet :=
  mkPacket (streamIndex p) v (dts p) (Size p) (payload p).

(** Errors returned by the native layer. [errors.Is(err, astiav.ErrEof)]
    looks through wrapping. *)
Inductive error :=
  | ErrEof
  | ErrOther (code : Z)
  | ErrWrap (context : string) (inner : error).

Fixpoint isEof (e : error) : bool :=
  match e with
  | ErrEof => true
  | ErrOther _ => false
  | ErrWrap _ e' => isEof e'
  end.

End Av.

(** ** Demuxer looper *)

Module Looper.

Import Av.

(** [demuxerLooperStream]. The pointer [s] to the demuxer stream is used for
    the stream's time base and for its packet durationer; the time base is
    kept here, and what the durationer's [flush] returns is an input of
    [looping]. *)
Record demuxerLooperStream := mkLooperStream {
  duration : Z;
  durationD : Z;
  lastDuration : Z;
  restampDelta : Z;
  restampRemainder : Z;
  timeBase : Rational
}.

(** [demuxerLooper.ss], indexed by stream index. *)
Abbreviation demuxerLooper := (gmap Z demuxerLooperStream).

Definition newDemuxerLooperStream (tb : Rational) : demuxerLooperStream :=
  mkLooperStream 0 0 0 0 0 tb.

(** [newDemuxerLooper]: one looper stream per demuxer stream. *)
Definition newDemuxerLooper (tbs : gmap Z Rational) : demuxerLooper :=
  newDemuxerLooperStream <$> tbs.

Definition resetStream (s : demuxerLooperStream) : demuxerLooperStream :=
  mkLooperStream 0 (durationD s) 0 (restampDelta s) 0 (timeBase s).

(** [demuxerLooper.reset] *)
Definition reset (l : demuxerLooper) : demuxerLooper := resetStream <$> l.

(** The "update durations" part of [handlePkt]: the new stream state and the
    value left in [*previousDuration]. *)
Definition updateDurations (s : demuxerLooperStream) (previousDuration : Z)
    : demuxerLooperStream * Z :=
  if 0 <? previousDuration then
    (mkLooperStream (Int64.add (duration s) previousDuration) (durationD s)
       (lastDuration s) (restampDelta s) (restampRemainder s) (timeBase s),
     previousDuration)
  else if 0 <? lastDuration s then
    (mkLooperStream (duration s) (durationD s) 0 (restampDelta s)
       (restampRemainder s) (timeBase s),
     lastDuration s)
  else (s, previousDuration).

(** The "restamp" part of [handlePkt]. *)
Definition restamp (s : demuxerLooperStream) (pkt : Packet) : Packet :=
  if 0 <? restampDelta s then
    let d := Int64.sub (pts pkt) (dts pkt) in
    let pkt1 := SetDts pkt (Int64.add (dts pkt) (restampDelta s)) in
    SetPts pkt1 (Int64.add (dts pkt1) d)
  else pkt.

(** [demuxerLooper.handlePkt]: returns the looper, the packet as it leaves
    and the value left in [*previousDuration]. *)
Definition handlePkt (l : demuxerLooper) (pkt : Packet) (previousDuration : Z)
    : demuxerLooper * Packet * Z :=
  match l !! streamIndex pkt with
  | None => (l, pkt, previousDuration)
  | Some s =>
      let '(s1, pd) := updateDurations s previousDuration in
      (<[streamIndex pkt := s1]> l, restamp s1 pkt, pd)
  end.

Section looping.

(** [astiav.RescaleQ] and the helper [durationToTimeBase] (which returns the
    whole number of time-base ticks in a duration and the remainder) are
    taken as given. *)
Variable rescaleQ : Z → Rational → Rational → Z.
Variable durationToTimeBase : Z → Rational → Z * Z.

(** First loop of [looping], for one stream; [flushed] is what the stream's
    durationer returned from [flush]. *)
Definition flushStream (flushed : Z) (s : demuxerLooperStream)
    : demuxerLooperStream :=
  let dur := Int64.add (duration s) flushed in
  mkLooperStream dur (rescaleQ dur (timeBase s) nanosecondRational) flushed
    (restampDelta s) (restampRemainder s) (timeBase s).

(** [maxDuration] after the first loop: it starts at zero and is replaced by
    every strictly larger [durationD]. *)
Definition maxDurationOf (l : demuxerLooper) : Z :=
  map_fold (λ _ s m, if m <? durationD s then durationD s else m) 0 l.

(** The "process delta" part of the second loop: the whole ticks [i] added to
    the local [restampDelta] ([None] when nothing is added), the new
    [lastDuration] and the new [restampRemainder]. *)
Definition alignment (maxDuration : Z) (s : demuxerLooperStream)
    : option Z * Z * Z :=
  let d := Int64.add (Int64.sub maxDuration (durationD s)) (restampRemainder s) in
  if 0 <? d then
    let '(i, r) := durationToTimeBase d (timeBase s) in
    if 0 <? i then (Some i, Int64.add (lastDuration s) i, r)
    else (None, lastDuration s, r)
  else (None, lastDuration s, restampRemainder s).

(** Second loop of [looping], for one stream. *)
Definition restampStream (maxDuration : Z) (s : demuxerLooperStream)
    : demuxerLooperStream :=
  let '(oi, ld, r) := alignment maxDuration s in
  let restampDelta0 :=
    match oi with
    | Some i => Int64.add (duration s) i
    | None => duration s
    end in
  mkLooperStream 0 (durationD s) ld (Int64.add (restampDelta s) restampDelta0)
    r (timeBase s).

(** [demuxerLooper.looping]; [flush idx] is what the durationer of stream
    [idx] returns from [flush]. *)
Definition looping (flush : Z → Z) (l : demuxerLooper) : demuxerLooper :=
  let l1 := map_imap (λ idx s, Some (flushStream (flush idx) s)) l in
  restampStream (maxDurationOf l1) <$> l1.

(** *** Runs of the read loop, seen from the looper

    The read loop hands the looper every packet it reads, together with the
    previous duration computed by the stream's durationer, and calls
    [looping] at every end of input while looping is enabled. *)
Inductive input :=
  | InPkt (pkt : Packet) (previousDuration : Z)
  | InLoop (flush : Z → Z).

(** The packets of a run, each as read and as it leaves [handlePkt]. *)
Fixpoint run (l : demuxerLooper) (ins : list input) : list (Packet * Packet) :=
  match ins with
  | [] => []
  | InPkt pkt pd :: ins' =>
      let '(l1, pkt1, _) := handlePkt l pkt pd in (pkt, pkt1) :: run l1 ins'
  | InLoop flush :: ins' => run (looping flush l) ins'
  end.

(** The DTS values emitted on stream [idx] during a run, in order. *)
Definition emittedDts (idx : Z) (l : demuxerLooper) (ins : list input) : list Z :=
  (λ io, dts io.2) <$> filter (λ io, streamIndex io.1 = idx) (run l ins).

(** Number of loop boundaries in a run. *)
Fixpoint boundaries (ins : list input) : nat :=
  match ins with
  | [] => 0%nat
  | InPkt _ _ :: ins' => boundaries ins'
  | InLoop _ :: ins' => S (boundaries ins')
  end.

(** The whole ticks added by the second loop of [looping], zero when none. *)
Definition bonus (maxDuration : Z) (s : demuxerLooperStream) : Z :=
  match (alignment maxDuration s).1.1 with Some i => i | None => 0 end.

(** The timestamps of stream [idx] are spaced for looping: inside an iteration
    the DTS as read do not decrease, the duration accumulated over an
    iteration (the positive previous durations plus the flushed last
    duration) is not negative, and an iteration does not start more than that
    duration below the DTS the previous iteration ended with. [acc] is the
    duration accumulated so far, [bound] the least DTS the next packet may
    carry. *)
Fixpoint spaced (idx : Z) (acc : Z) (bound : option Z) (ins : list input) : bool :=
  match ins with
  | [] => true
  | InPkt pkt pd :: ins' =>
      if bool_decide (streamIndex pkt = idx) then
        match bound with Some b => b <=? dts pkt | None => true end
        && spaced idx (if 0 <? pd then acc + pd else acc) (Some (dts pkt)) ins'
      else spaced idx acc bound ins'
  | InLoop flush :: ins' =>
      (0 <=? acc + flush idx)
      && spaced idx 0 ((λ b, b - (acc + flush idx)) <$> bound) ins'
  end.

(** No [int64] addition made for stream [idx] overflows during the run. *)
Fixpoint safe (idx : Z) (l : demuxerLooper) (ins : list input) : bool :=
  match ins with
  | [] => true
  | InPkt pkt pd :: ins' =>
      match l !! idx with
      | Some s =>
          (if bool_decide (streamIndex pkt = idx) then
             (if 0 <? pd then Int64.in_rangeb (duration s + pd) else true)
             && (if 0 <? restampDelta s
                 then Int64.in_rangeb (dts pkt + restampDelta s) else true)
           else true)
      | None => true
      end && safe idx (handlePkt l pkt pd).1.1 ins'
  | InLoop flush :: ins' =>
      match l !! idx with
      | Some s =>
          let l1 := map_imap (λ idx s, Some (flushStream (flush idx) s)) l in
          let s1 := flushStream (flush idx) s in
          let b := bonus (maxDurationOf l1) s1 in
          Int64.in_rangeb (duration s + flush idx)
          && Int64.in_rangeb (duration s + flush idx + b)
          && Int64.in_rangeb (restampDelta s + (duration s + flush idx + b))
      | None => true
      end && safe idx (looping flush l) ins'
  end.

(** *** Facts about [handlePkt] *)

Lemma wrap_wrap z : Int64.wrap (Int64.wrap z) = Int64.wrap z.
Proof. apply Int64.wrap_id, Int64.wrap_in_range. Qed.

Lemma restamp_streamIndex s pkt : streamIndex (restamp s pkt) = streamIndex pkt.
Proof. unfold restamp. by destruct (0 <? restampDelta s). Qed.

Lemma restamp_offset s pkt :
  Int64.sub (pts (restamp s pkt)) (dts (restamp s pkt))
  = Int64.sub (pts pkt) (dts pkt).
Proof.
  unfold restamp. destruct (0 <? restampDelta s); [|done]. cbn.
  unfold Int64.sub, Int64.add. rewrite Int64.wrap_sub_l.
  match goal with |- Int64.wrap ?a = _ =>
    replace a with (Int64.wrap (pts pkt - dts pkt)) by lia end.
  apply wrap_wrap.
Qed.

Lemma restamp_dts s pkt :
  dts (restamp s pkt)
  = if 0 <? restampDelta s then Int64.add (dts pkt) (restampDelta s) else dts pkt.
Proof. unfold restamp. by destruct (0 <? restampDelta s). Qed.

Lemma updateDurations_restampDelta s pd :
  restampDelta (updateDurations s pd).1 = restampDelta s.
Proof.
  unfold updateDurations.
  destruct (0 <? pd); [done|]. by destruct (0 <? lastDuration s).
Qed.

Lemma updateDurations_duration s pd :
  duration (updateDurations s pd).1
  = if 0 <? pd then Int64.add (duration s) pd else duration s.
Proof.
  unfold updateDurations.
  destruct (0 <? pd); [done|]. by destruct (0 <? lastDuration s).
Qed.

Lemma handlePkt_emitted l pkt pd :
  (handlePkt l pkt pd).1.2
  = match l !! streamIndex pkt with
    | Some s => restamp (updateDurations s pd).1 pkt
    | None => pkt
    end.
Proof.
  unfold handlePkt. destruct (l !! streamIndex pkt) as [s|]; [|done].
  by destruct (updateDurations s pd).
Qed.

Lemma handlePkt_looper l pkt pd :
  (handlePkt l pkt pd).1.1
  = match l !! streamIndex pkt with
    | Some s => <[streamIndex pkt := (updateDurations s pd).1]> l
    | None => l
    end.
Proof.
  unfold handlePkt. destruct (l !! streamIndex pkt) as [s|]; [|done].
  by destruct (updateDurations s pd).
Qed.

Lemma handlePkt_other l pkt pd idx :
  streamIndex pkt ≠ idx → (handlePkt l pkt pd).1.1 !! idx = l !! idx.
Proof.
  intros Hne. rewrite handlePkt_looper.
  destruct (l !! streamIndex pkt); [|done]. by rewrite lookup_insert_ne.
Qed.

Lemma handlePkt_offset l pkt pd :
  Int64.sub (pts (handlePkt l pkt pd).1.2) (dts (handlePkt l pkt pd).1.2)
  = Int64.sub (pts pkt) (dts pkt).
Proof.
  rewrite handlePkt_emitted. destruct (l !! streamIndex pkt); [|done].
  apply restamp_offset.
Qed.

Lemma run_offsets ins : ∀ l,
  Forall (λ io, Int64.sub (pts io.2) (dts io.2) = Int64.sub (pts io.1) (dts io.1)
                ∧ streamIndex io.2 = streamIndex io.1)
    (run l ins).
Proof.
  induction ins as [|[pkt pd|flush] ins IH]; intros l; cbn [run].
  - constructor.
  - pose proof (handlePkt_offset l pkt pd) as Hoff.
    pose proof (handlePkt_emitted l pkt pd) as Hem.
    destruct (handlePkt l pkt pd) as [[l1 pkt1] pd1]. cbn in *.
    constructor; [|apply IH]. cbn. split; [done|].
    rewrite Hem. destruct (l !! streamIndex pkt); [|done].
    apply restamp_streamIndex.
  - apply IH.
Qed.

(** *** Facts about [looping] *)

Lemma looping_lookup flush l idx :
  looping flush l !! idx
  = (λ s, restampStream
            (maxDurationOf (map_imap (λ idx s, Some (flushStream (flush idx) s)) l))
            (flushStream (flush idx) s)) <$> l !! idx.
Proof.
  unfold looping. rewrite lookup_fmap, map_lookup_imap.
  by destruct (l !! idx).
Qed.

(** [maxDuration] is the greatest of zero and the streams' [durationD],
    whatever the order in which the streams are visited. *)
Lemma maxDurationOf_spec (l : demuxerLooper) :
  0 ≤ maxDurationOf l
  ∧ (∀ idx s, l !! idx = Some s → durationD s ≤ maxDurationOf l)
  ∧ (maxDurationOf l = 0
     ∨ ∃ idx s, l !! idx = Some s ∧ durationD s = maxDurationOf l).
Proof.
  unfold maxDurationOf.
  apply (map_fold_weak_ind
           (λ r (m : demuxerLooper),
              0 ≤ r ∧ (∀ idx s, m !! idx = Some s → durationD s ≤ r)
              ∧ (r = 0 ∨ ∃ idx s, m !! idx = Some s ∧ durationD s = r))).
  - split_and!; [lia| |by left]. intros idx s. by rewrite lookup_empty.
  - intros i x m r Hi (Hr & Hle & Hex).
    destruct (r <? durationD x) eqn:Hlt.
    + apply Z.ltb_lt in Hlt. split_and!; [lia| |].
      * intros idx s. destruct (decide (i = idx)) as [->|Hne].
        -- rewrite lookup_insert_eq. intros [= <-]. lia.
        -- rewrite lookup_insert_ne by done. intros Hs.
           specialize (Hle _ _ Hs). lia.
      * right. exists i, x. by rewrite lookup_insert_eq.
    + apply Z.ltb_ge in Hlt. split_and!; [lia| |].
      * intros idx s. destruct (decide (i = idx)) as [->|Hne].
        -- rewrite lookup_insert_eq. intros [= <-]. lia.
        -- rewrite lookup_insert_ne by done. apply Hle.
      * destruct Hex as [->|(idx & s & Hs & Heq)]; [by left|].
        right. exists idx, s. split; [|done].
        rewrite lookup_insert_ne; [done|]. intros ->. congruence.
Qed.

Lemma bonus_nonneg maxDuration s : 0 ≤ bonus maxDuration s.
Proof.
  unfold bonus, alignment.
  destruct (0 <? Int64.add (Int64.sub maxDuration (durationD s)) (restampRemainder s));
    [|done].
  destruct (durationToTimeBase _ _) as [i r].
  destruct (0 <? i) eqn:Hi; cbn; lia.
Qed.

Lemma restampStream_restampDelta maxDuration s :
  Int64.in_range (duration s) →
  restampDelta (restampStream maxDuration s)
  = Int64.add (restampDelta s) (Int64.add (duration s) (bonus maxDuration s)).
Proof.
  intros Hd. unfold restampStream, bonus.
  destruct (alignment maxDuration s) as [[[i|] ld] r]; cbn; [done|].
  f_equal. unfold Int64.add. by rewrite Z.add_0_r, Int64.wrap_id.
Qed.

Lemma restampStream_duration maxDuration s :
  duration (restampStream maxDuration s) = 0.
Proof.
  unfold restampStream. by destruct (alignment maxDuration s) as [[[i|] ld] r].
Qed.

(** *** Emitted DTS along a run *)

Lemma emittedDts_pkt idx l pkt pd ins :
  emittedDts idx l (InPkt pkt pd :: ins)
  = if bool_decide (streamIndex pkt = idx)
    then dts (handlePkt l pkt pd).1.2 :: emittedDts idx (handlePkt l pkt pd).1.1 ins
    else emittedDts idx (handlePkt l pkt pd).1.1 ins.
Proof.
  unfold emittedDts. cbn [run].
  destruct (handlePkt l pkt pd) as [[l1 pkt1] pd1]. cbn [fst snd].
  case_bool_decide.
  - by rewrite filter_cons_True.
  - by rewrite filter_cons_False.
Qed.

Lemma emittedDts_loop idx l flush ins :
  emittedDts idx l (InLoop flush :: ins) = emittedDts idx (looping flush l) ins.
Proof. done. Qed.

Lemma emittedDts_sorted idx : ∀ ins l s bound,
  l !! idx = Some s → 0 ≤ restampDelta s →
  safe idx l ins = true → spaced idx (duration s) bound ins = true →
  Sorted Z.le (emittedDts idx l ins)
  ∧ Forall (λ e, ∀ b, bound = Some b → b + restampDelta s ≤ e)
      (emittedDts idx l ins).
Proof.
  induction ins as [|[pkt pd|flush] ins IH]; intros l s bound Hs Hdelta Hsafe Hsp.
  - split; constructor.
  - rewrite emittedDts_pkt. cbn [safe spaced] in Hsafe, Hsp. rewrite Hs in Hsafe.
    apply andb_true_iff in Hsafe as [Hnow Hsafe].
    case_bool_decide as Hidx.
    + apply andb_true_iff in Hsp as [Hb Hsp].
      apply andb_true_iff in Hnow as [Hdur Hdts].
      set (s1 := (updateDurations s pd).1).
      assert (Hl1 : (handlePkt l pkt pd).1.1 !! idx = Some s1).
      { rewrite handlePkt_looper, Hidx, Hs, <- Hidx. apply lookup_insert_eq. }
      assert (Hd1 : restampDelta s1 = restampDelta s)
        by apply updateDurations_restampDelta.
      assert (Hdur1 : duration s1 = if 0 <? pd then duration s + pd else duration s).
      { unfold s1. rewrite updateDurations_duration.
        destruct (0 <? pd); [|done].
        apply Int64.wrap_id. by apply Int64.in_rangeb_spec. }
      assert (Hout : dts (handlePkt l pkt pd).1.2 = dts pkt + restampDelta s).
      { rewrite handlePkt_emitted, Hidx, Hs. fold s1.
        rewrite restamp_dts, Hd1.
        destruct (0 <? restampDelta s) eqn:Hpos.
        - apply Int64.wrap_id. by apply Int64.in_rangeb_spec.
        - lia. }
      destruct (IH _ s1 (Some (dts pkt)) Hl1) as [Hsorted Hall].
      { lia. } { done. } { by rewrite Hdur1. }
      rewrite Hout. split.
      * constructor; [done|].
        rewrite Hd1 in Hall.
        destruct (emittedDts idx _ ins) as [|e out]; constructor.
        apply Forall_cons in Hall as [He _]. by apply He.
      * constructor.
        -- intros b ->. cbn in Hb. lia.
        -- rewrite Hd1 in Hall. eapply Forall_impl; [exact Hall|].
           intros e He b ->. cbn in Hb. specialize (He _ eq_refl). lia.
    + assert (Hl1 : (handlePkt l pkt pd).1.1 !! idx = Some s).
      { by rewrite handlePkt_other. }
      by apply (IH _ s bound Hl1).
  - rewrite emittedDts_loop. cbn [safe spaced] in Hsafe, Hsp. rewrite Hs in Hsafe.
    apply andb_true_iff in Hsafe as [Hnow Hsafe].
    apply andb_true_iff in Hnow as [Hnow H3].
    apply andb_true_iff in Hnow as [H1 H2].
    apply andb_true_iff in Hsp as [Hacc Hsp].
    apply Int64.in_rangeb_spec in H1, H2, H3.
    set (l1 := map_imap (λ idx s, Some (flushStream (flush idx) s)) l) in *.
    set (s1 := flushStream (flush idx) s) in *.
    set (s2 := restampStream (maxDurationOf l1) s1).
    assert (Hl2 : looping flush l !! idx = Some s2).
    { by rewrite looping_lookup, Hs. }
    assert (Hdur1 : duration s1 = duration s + flush idx).
    { cbn. by apply Int64.wrap_id. }
    assert (Hd2 : restampDelta s2
                  = restampDelta s + (duration s + flush idx + bonus (maxDurationOf l1) s1)).
    { unfold s2. rewrite restampStream_restampDelta by (rewrite Hdur1; done).
      rewrite Hdur1. cbn [restampDelta s1 flushStream].
      unfold Int64.add. rewrite (Int64.wrap_id (_ + _ + _)) by done.
      by apply Int64.wrap_id. }
    pose proof (bonus_nonneg (maxDurationOf l1) s1) as Hbonus.
    destruct (IH _ s2 ((λ b, b - (duration s + flush idx)) <$> bound) Hl2)
      as [Hsorted Hall].
    { lia. } { done. }
    { unfold s2. by rewrite restampStream_duration. }
    split; [done|].
    eapply Forall_impl; [exact Hall|].
    intros e He b ->. specialize (He _ eq_refl). lia.
Qed.

(** C1 (as amended). Every packet leaves [handlePkt] with its PTS − DTS
    offset (in [int64] arithmetic) and its stream index unchanged. The DTS
    emitted on a stream known to the looper never decrease along a run of
    packets and loop boundaries, provided the stream's timestamps are
    [spaced] for looping and no [int64] addition made for the stream
    overflows. *)
Theorem looper_restamp_monotone idx l s ins :
  l !! idx = Some s → 0 ≤ restampDelta s →
  safe idx l ins = true → spaced idx (duration s) None ins = true →
  Sorted Z.le (emittedDts idx l ins)
  ∧ Forall (λ io, Int64.sub (pts io.2) (dts io.2) = Int64.sub (pts io.1) (dts io.1)
                  ∧ streamIndex io.2 = streamIndex io.1)
      (run l ins).
Proof.
  intros Hs Hdelta Hsafe Hsp. split.
  - by destruct (emittedDts_sorted idx ins l s None Hs Hdelta Hsafe Hsp).
  - apply run_offsets.
Qed.

End looping.

(** Modelled from the spec: the helper [durationToTimeBase] is not part of
    the files at hand; §4.4 has it convert a duration to time-base ticks and
    return the sub-tick leftover. The ticks are rounded down. *)
Definition durationToTimeBase (d : Z) (tb : Rational) : Z * Z :=
  let c := num tb * 1000000000 in
  if c =? 0 then (0, d)
  else
    let i := (d * den tb) `div` c in
    (i, Int64.sub d (RescaleQ i tb nanosecondRational)).

(** C9. [reset] zeroes [duration], [lastDuration] and [restampRemainder] of
    every stream and leaves [restampDelta], [durationD] and the stream's
    time base as they were; streams are neither added nor removed. *)
Theorem reset_keeps_restampDelta (l : demuxerLooper) idx s :
  l !! idx = Some s →
  dom (reset l) = dom l
  ∧ ∃ s', reset l !! idx = Some s'
      ∧ duration s' = 0 ∧ lastDuration s' = 0 ∧ restampRemainder s' = 0
      ∧ restampDelta s' = restampDelta s
      ∧ durationD s' = durationD s
      ∧ timeBase s' = timeBase s.
Proof.
  intros Hs. split.
  - unfold reset. apply dom_fmap_L.
  - exists (resetStream s). unfold reset. rewrite lookup_fmap, Hs. done.
Qed.

(** A looper in the middle of its second iteration. *)
Definition resetExample : demuxerLooper :=
  {[ 0 := mkLooperStream 3 1000000000 1 4 250 (mkRational 1 4);
     1 := mkLooperStream 4 3000000000 2 6 0 (mkRational 1 2) ]}.

Lemma reset_keeps_restampDelta_witness :
  dom (reset resetExample) = dom resetExample
  ∧ ∃ s', reset resetExample !! 0 = Some s'
      ∧ duration s' = 0 ∧ lastDuration s' = 0 ∧ restampRemainder s' = 0
      ∧ restampDelta s' = 4
      ∧ durationD s' = 1000000000
      ∧ timeBase s' = mkRational 1 4.
Proof.
  apply (reset_keeps_restampDelta resetExample 0
           (mkLooperStream 3 1000000000 1 4 250 (mkRational 1 4))).
  reflexivity.
Defined.

(** Two streams over two iterations: stream 0 has PTS 0 1 2 3 in a time base
    of 1/4, stream 1 has PTS 0 2 4 in a time base of 1/2; DTS equal PTS. *)
Definition pktOf (idx t : Z) : Packet := mkPacket idx t t 100 0.

Definition twoStreamIteration : list input :=
  [ InPkt (pktOf 0 0) 0; InPkt (pktOf 1 0) 0; InPkt (pktOf 0 1) 1;
    InPkt (pktOf 1 2) 2; InPkt (pktOf 0 2) 1; InPkt (pktOf 0 3) 1;
    InPkt (pktOf 1 4) 2;
    InLoop (λ idx, if idx =? 0 then 1 else 2) ].

Definition twoStreamLooper : demuxerLooper :=
  newDemuxerLooper {[ 0 := mkRational 1 4; 1 := mkRational 1 2 ]}.

Lemma looper_restamp_monotone_witness :
  Sorted Z.le
    (emittedDts RescaleQ durationToTimeBase 0 twoStreamLooper
       (twoStreamIteration ++ twoStreamIteration))
  ∧ Forall (λ io, Int64.sub (pts io.2) (dts io.2) = Int64.sub (pts io.1) (dts io.1)
                  ∧ streamIndex io.2 = streamIndex io.1)
      (run RescaleQ durationToTimeBase twoStreamLooper
         (twoStreamIteration ++ twoStreamIteration)).
Proof.
  apply (looper_restamp_monotone RescaleQ durationToTimeBase 0 twoStreamLooper
           (newDemuxerLooperStream (mkRational 1 4))).
  - reflexivity.
  - cbn. lia.
  - vm_compute. reflexivity.
  - vm_compute. reflexivity.
Defined.

End Looper.

(** ** Events and pools shared by the nodes *)

Module Core.

Import Av.

(** [astiencoder.Node]: an interface value, [None] when nil. *)
Definition Node := option nat.

(** Events sent to the event handler. [EventError] is what [emitError]
    emits: the error and the description of what failed. *)
Inductive event :=
  | EventError (err : error) (what : string)
  | EventRateEnforcerSwitchedIn (n : Node)
  | EventRateEnforcerSwitchedOut (n : Node).

(** [pktPool]: how many packets were taken with [get], and the packets given
    back with [put], in order. *)
Record pktPool := mkPktPool { pktGets : nat; pktPuts : list Packet }.

Definition pktGet (p : pktPool) : pktPool := mkPktPool (S (pktGets p)) (pktPuts p).

Definition pktPut (p : pktPool) (pkt : Packet) : pktPool :=
  mkPktPool (pktGets p) (pktPuts p ++ [pkt]).

End Core.

(** ** Demuxer rate emulator *)

Module RateEmulator.

Import Av Core.

(** [time.Second] *)
Definition second : Z := 1000000000.

(** [time.Time] is the number of nanoseconds since the zero time, so that
    [IsZero] is a comparison with zero. [time.Until(t)] is [t.Sub(now)],
    which saturates at the bounds of [time.Duration]. *)
Definition Until (now t : Z) : Z :=
  Z.max Int64.min_int (Z.min Int64.max_int (t - now)).

(** A function added to the emulator's [astikit.Chan]: release a packet at a
    given time, or stop the emulator. *)
Inductive task :=
  | TaskRelease (pktAt : Z) (pkt : Packet)
  | TaskStop.

(** [demuxerRateEmulator]. [ps] holds the packets stored until their task
    has run; [timeBase] is [s.ctx.TimeBase] and [descriptor] is [s.d]. *)
Record demuxerRateEmulator := mkRateEmulator {
  bufferDuration : Z;
  c : list task;
  lastAt : Z;
  ps : list Packet;
  timeBase : Rational;
  descriptor : Rational
}.

Definition newDemuxerRateEmulator (bufferDuration : Z) (tb descriptor : Rational)
    : demuxerRateEmulator :=
  mkRateEmulator (if bufferDuration <=? 0 then second else bufferDuration)
    [] 0 [] tb descriptor.

(** [demuxerRateEmulator.eof] *)
Definition eof (e : demuxerRateEmulator) : demuxerRateEmulator :=
  mkRateEmulator (bufferDuration e) (c e ++ [TaskStop]) (lastAt e) (ps e)
    (timeBase e) (descriptor e).

(** What a call leaves behind besides the new state: the events emitted and
    the time the caller was asked to sleep, if any. *)
Record outcome := mkOutcome {
  emulator : demuxerRateEmulator;
  pool : pktPool;
  events : list event;
  slept : option Z
}.

Section handlePkt.

Variable rescaleQ : Z → Rational → Rational → Z.

(** The time at which [handlePkt] schedules a packet. *)
Definition pktAtOf (nowAt : Z) (e : demuxerRateEmulator) (previousDuration : Z) : Z :=
  let pktAt := if lastAt e =? 0 then nowAt else lastAt e in
  if 0 <? previousDuration
  then pktAt + rescaleQ previousDuration (timeBase e) nanosecondRational
  else pktAt.

(** [demuxerRateEmulator.handlePkt]. [refResult] is what [pkt.Ref(in)]
    returns, [nowAt] is the clock read for a zero [lastAt] and [nowUntil] the
    clock read by [time.Until]. *)
Definition handlePkt (refResult : option error) (nowAt nowUntil : Z)
    (p : pktPool) (e : demuxerRateEmulator) (pktIn : Packet) (previousDuration : Z)
    : outcome :=
  let p1 := pktGet p in
  match refResult with
  | Some err => mkOutcome e p1 [EventError err "refing packet"] None
  | None =>
      let pkt := pktIn in
      let pktAt := pktAtOf nowAt e previousDuration in
      let e1 :=
        mkRateEmulator (bufferDuration e) (c e ++ [TaskRelease pktAt pkt]) pktAt
          (pkt :: ps e) (timeBase e) (descriptor e) in
      let delta := Int64.sub (Until nowUntil (lastAt e1)) (bufferDuration e1) in
      mkOutcome e1 p1 [] (if 0 <? delta then Some delta else None)
  end.

(** C5 (as amended). When the packet copy succeeds, the task queued for the
    packet carries the release time [pktAt]: [lastAt] (the clock when [lastAt]
    is zero), plus the rescaled previous duration when that duration is
    positive and nothing otherwise; [lastAt] becomes [pktAt]; the caller is
    put to sleep for [(lastAt − now) − bufferDuration] exactly when that is
    positive (the differences taken within [int64]); and a buffer duration
    configured non-positive is replaced by one second. *)
Theorem handlePkt_release_time nowAt nowUntil p e pkt pd :
  let o := handlePkt None nowAt nowUntil p e pkt pd in
  let base := if lastAt e =? 0 then nowAt else lastAt e in
  let pktAt := lastAt (emulator o) in
  Int64.in_range (pktAt - nowUntil) →
  Int64.in_range (pktAt - nowUntil - bufferDuration e) →
  c (emulator o) = c e ++ [TaskRelease pktAt pkt]
  ∧ (0 < pd → pktAt = base + rescaleQ pd (timeBase e) nanosecondRational)
  ∧ (pd ≤ 0 → pktAt = base)
  ∧ (bufferDuration e < pktAt - nowUntil →
     slept o = Some (pktAt - nowUntil - bufferDuration e))
  ∧ (pktAt - nowUntil ≤ bufferDuration e → slept o = None)
  ∧ bufferDuration (emulator o) = bufferDuration e
  ∧ (∀ b tb ds,
       bufferDuration (newDemuxerRateEmulator b tb ds)
       = if b <=? 0 then second else b).
Proof.
  cbn zeta. cbn [handlePkt emulator slept lastAt c bufferDuration].
  intros Hr1 Hr2.
  assert (Hu : Until nowUntil (pktAtOf nowAt e pd) = pktAtOf nowAt e pd - nowUntil).
  { unfold Until. unfold Int64.in_range in Hr1. lia. }
  rewrite Hu. unfold Int64.sub. rewrite (Int64.wrap_id _ Hr2).
  split_and!; try done.
  - intros Hpd. unfold pktAtOf. by rewrite (proj2 (Z.ltb_lt 0 pd) Hpd).
  - intros Hpd. unfold pktAtOf. by rewrite (proj2 (Z.ltb_ge 0 pd) Hpd).
  - intros Hlt. case_match eqn:Hd; [done|]. apply Z.ltb_ge in Hd. lia.
  - intros Hle. case_match eqn:Hd; [|done]. apply Z.ltb_lt in Hd. lia.
Qed.

End handlePkt.

(** A stream in milliseconds, a first packet at wall-clock 1000 followed by
    a packet one hundred milliseconds later. *)
Definition emulatorExample : demuxerRateEmulator :=
  newDemuxerRateEmulator 0 (mkRational 1 1000) (mkRational 1 1000).

Lemma handlePkt_release_time_witness :
  let o := handlePkt RescaleQ None 1000 1000 (mkPktPool 0 []) emulatorExample
             (mkPacket 0 100 100 10 0) 100 in
  c (emulator o) = [TaskRelease 100001000 (mkPacket 0 100 100 10 0)]
  ∧ lastAt (emulator o) = 100001000
  ∧ slept o = None
  ∧ bufferDuration (emulator o) = second.
Proof.
  pose proof (handlePkt_release_time RescaleQ 1000 1000 (mkPktPool 0 [])
                emulatorExample (mkPacket 0 100 100 10 0) 100) as H.
  cbn zeta in H.
  destruct H as (Hc & Hpos & _ & _ & Hnone & Hbuf & _).
  - vm_compute. split; discriminate.
  - vm_compute. split; discriminate.
  - cbn zeta. split_and!.
    + rewrite Hc. reflexivity.
    + rewrite Hpos by lia. reflexivity.
    + apply Hnone. vm_compute. discriminate.
    + rewrite Hbuf. reflexivity.
Defined.

(** An emulator whose last packet was scheduled at wall-clock 5 s, on a
    stream whose time base is one second. *)
Definition lateEmulator : demuxerRateEmulator :=
  mkRateEmulator second [] 5000000000 [] (mkRational 1 1) (mkRational 1 1).

(** C5, as stated, fails in two ways. For a negative previous duration the
    rescaled duration is not added to [lastAt]: here [pktAt] stays at 5 s
    where the sum is 4 s. And when the packet copy fails nothing is
    scheduled and [lastAt] is left alone: here it stays at 5 s where the sum
    is 6 s. *)
Lemma handlePkt_release_time_guards :
  lastAt (emulator (handlePkt RescaleQ None 5000000000 5000000000
                      (mkPktPool 0 []) lateEmulator (mkPacket 0 0 0 0 0) (-1)))
  = 5000000000
  ∧ 5000000000 + RescaleQ (-1) (timeBase lateEmulator) nanosecondRational
    = 4000000000
  ∧ lastAt (emulator (handlePkt RescaleQ (Some (ErrOther 12)) 5000000000 5000000000
                        (mkPktPool 0 []) lateEmulator (mkPacket 0 1 1 0 0) 1))
    = 5000000000
  ∧ c (emulator (handlePkt RescaleQ (Some (ErrOther 12)) 5000000000 5000000000
                   (mkPktPool 0 []) lateEmulator (mkPacket 0 1 1 0 0) 1))
    = []
  ∧ 5000000000 + RescaleQ 1 (timeBase lateEmulator) nanosecondRational
    = 6000000000.
Proof. split_and!; vm_compute; reflexivity. Qed.

End RateEmulator.

(** ** Demuxer *)

Module Demuxer.

Import Av Core.

(** *** Packet durationer *)

(** Modelled from the spec: [pktDurationer] is not part of the files at
    hand. §4.3: on a packet, the previous duration is the packet's PTS minus
    the last PTS, or zero when there is no last PTS or the PTS does not
    exceed it; the last PTS is then updated. [flush] returns the last
    observed duration and resets the state. §3 lists the last PTS and the
    last DTS as its state; the last observed duration is kept beside them. *)
Record pktDurationer := mkPktDurationer {
  lastPTS : option Z;
  lastDTS : option Z;
  observed : Z
}.

(** Modelled from the spec: a durationer that has seen no packet. *)
Definition newPktDurationer : pktDurationer := mkPktDurationer None None 0.

(** Modelled from the spec: [pktDurationer.handlePkt], §4.3. A positive
    previous duration is the last observed duration from then on. *)
Definition durationerHandlePkt (pd : pktDurationer) (pkt : Packet)
    : pktDurationer * Z :=
  let previousDuration :=
    match lastPTS pd with
    | Some l => if l <? pts pkt then Int64.sub (pts pkt) l else 0
    | None => 0
    end in
  (mkPktDurationer (Some (pts pkt)) (Some (dts pkt))
     (if 0 <? previousDuration then previousDuration else observed pd),
   previousDuration).

(** Modelled from the spec: [pktDurationer.flush], §4.3. *)
Definition durationerFlush (pd : pktDurationer) : pktDurationer * Z :=
  (newPktDurationer, observed pd).

(** *** Streams *)

(** [astiav.Stream], reduced to what the demuxer reads from it. *)
Record avStream := mkAvStream {
  avIndex : Z;
  avID : Z;
  avCodecParameters : nat;
  avTimeBase : Rational
}.

(** [Context], reduced to the stream index and the time base. *)
Record Context := mkContext { ctxIndex : Z; ctxTimeBase : Rational }.

(** [NewContextFromStream] *)
Definition NewContextFromStream (s : avStream) : Context :=
  mkContext (avIndex s) (avTimeBase s).

(** [Context.Descriptor]: a descriptor carries the time base. *)
Definition Descriptor (ctx : Context) : Rational := ctxTimeBase ctx.

(** [Stream], as returned by [Demuxer.Streams]. *)
Record Stream := mkStream {
  CodecParameters : nat;
  Ctx : Context;
  ID : Z;
  Index : Z
}.

Record demuxerStream := mkDemuxerStream {
  ctx : Context;
  d : Rational;
  e : RateEmulator.demuxerRateEmulator;
  pd : pktDurationer;
  s : avStream
}.

(** [demuxerStream.stream] *)
Definition stream (ds : demuxerStream) : Stream :=
  mkStream (avCodecParameters (s ds)) (ctx ds) (avID (s ds)) (avIndex (s ds)).

(** [DemuxerReadFrameErrorHandler]: returns [(stop, handled)]. *)
Definition DemuxerReadFrameErrorHandler := error → bool * bool.

Record Demuxer := mkDemuxer {
  emulateRate : bool;
  l : Looper.demuxerLooper;
  loop : Z;
  p : pktPool;
  readFrameErrorHandler : option DemuxerReadFrameErrorHandler;
  ss : gmap Z demuxerStream;
  statIncomingRate : Z
}.

(** [DemuxerOptions], reduced to the options the read loop depends on. *)
Record DemuxerOptions := mkDemuxerOptions {
  EmulateRate : bool;
  EmulateRateBufferDuration : Z;
  Loop : bool;
  ReadFrameErrorHandler : option DemuxerReadFrameErrorHandler
}.

(** The loop of [NewDemuxer] over [formatContext.Streams()]. *)
Definition newDemuxerStream (bufferDuration : Z) (s : avStream) : demuxerStream :=
  let ctx := NewContextFromStream s in
  mkDemuxerStream ctx (Descriptor ctx)
    (RateEmulator.newDemuxerRateEmulator bufferDuration (ctxTimeBase ctx)
       (Descriptor ctx))
    newPktDurationer s.

Definition newStreamTable (bufferDuration : Z) (streams : list avStream)
    : gmap Z demuxerStream :=
  foldl (λ m s, <[avIndex s := newDemuxerStream bufferDuration s]> m) ∅ streams.

(** [NewDemuxer], once the input is open and its streams are known. *)
Definition NewDemuxer (o : DemuxerOptions) (streams : list avStream) : Demuxer :=
  let ss := newStreamTable (EmulateRateBufferDuration o) streams in
  mkDemuxer (EmulateRate o)
    (Looper.newDemuxerLooper ((λ ds, ctxTimeBase (ctx ds)) <$> ss))
    (if Loop o then 1 else 0) (mkPktPool 0 []) (ReadFrameErrorHandler o) ss 0.

(** [Demuxer.SetLoop] *)
Definition SetLoop (v : bool) (dm : Demuxer) : Demuxer :=
  mkDemuxer (emulateRate dm) (l dm) (if v then 1 else 0) (p dm)
    (readFrameErrorHandler dm) (ss dm) (statIncomingRate dm).

(** [Demuxer.Streams]. [order] is the order in which [range d.ss] yields the
    stream indexes. Looking up an index that is not in the table yields a nil
    pointer, and calling [stream] on it panics: the result is then [None]. *)
Definition Streams (order : list Z) (dm : Demuxer) : option (list Stream) :=
  let idxs := order in
  let idxs := merge_sort Z.le idxs in
  mapM (λ idx, stream <$> ss dm !! idx) idxs.

(** The stream indexes of the table: [range d.ss] yields a permutation of
    them. *)
Definition indexes (dm : Demuxer) : list Z := (map_to_list (ss dm)).*1.

(** *** Read loop *)

(** What a call of [readFrame] does besides changing the demuxer. *)
Inductive effect :=
  | EEmit (ev : event)
  | EDispatch (pkt : Packet) (descriptor : Rational)
  | ESeekFrame
  | EHandler (err : error)
  | ESleep (delta : Z).

(** What the outside world answers during one call of [readFrame]: the
    result of [ReadFrame], of [SeekFrame], of the rate emulator's [Ref], and
    the two readings of the clock made by the rate emulator. *)
Record answers := mkAnswers {
  readResult : error + Packet;
  seekResult : option error;
  refResult : option error;
  nowAt : Z;
  nowUntil : Z
}.

Section readFrame.

Variable rescaleQ : Z → Rational → Rational → Z.
Variable durationToTimeBase : Z → Rational → Z * Z.

(** What [s.s.pd.flush()] returns for the stream [idx]. *)
Definition flushed (dm : Demuxer) (idx : Z) : Z :=
  match ss dm !! idx with
  | Some ds => (durationerFlush (pd ds)).2
  | None => 0
  end.

Definition withDurationer (ds : demuxerStream) (pd' : pktDurationer) : demuxerStream :=
  mkDemuxerStream (ctx ds) (d ds) (e ds) pd' (s ds).

Definition withEmulator (ds : demuxerStream) (e' : RateEmulator.demuxerRateEmulator)
    : demuxerStream :=
  mkDemuxerStream (ctx ds) (d ds) e' (pd ds) (s ds).

(** [d.l.looping()]: the looper is updated, and the durationer of every
    stream of the looper is flushed. *)
Definition looping (dm : Demuxer) : Demuxer :=
  mkDemuxer (emulateRate dm)
    (Looper.looping rescaleQ durationToTimeBase (flushed dm) (l dm))
    (loop dm) (p dm) (readFrameErrorHandler dm)
    (map_imap (λ idx ds,
       Some (match l dm !! idx with
             | Some _ => withDurationer ds (durationerFlush (pd ds)).1
             | None => ds
             end)) (ss dm))
    (statIncomingRate dm).

(** The loop calling [s.e.eof()] on every stream. *)
Definition eofAll (dm : Demuxer) : Demuxer :=
  mkDemuxer (emulateRate dm) (l dm) (loop dm) (p dm) (readFrameErrorHandler dm)
    ((λ ds, withEmulator ds (RateEmulator.eof (e ds))) <$> ss dm)
    (statIncomingRate dm).

Definition withPool (dm : Demuxer) (p' : pktPool) : Demuxer :=
  mkDemuxer (emulateRate dm) (l dm) (loop dm) p' (readFrameErrorHandler dm)
    (ss dm) (statIncomingRate dm).

(** The branch of [readFrame] taken when [ReadFrame] returns an error. *)
Definition readFrameError (a : answers) (err : error) (dm : Demuxer)
    : bool * Demuxer * list effect :=
  if (0 <? loop dm) && isEof err then
    let dm1 := looping dm in
    match seekResult a with
    | Some err' => (true, dm1, [ESeekFrame; EEmit (EventError err' "seeking to frame")])
    | None => (false, dm1, [ESeekFrame])
    end
  else
    let dm1 := if emulateRate dm && isEof err then eofAll dm else dm in
    let default :=
      (true, dm1,
       if negb (isEof err) then [EEmit (EventError err "reading frame")] else []) in
    match readFrameErrorHandler dm with
    | Some h =>
        let '(stop, handled) := h err in
        if handled then (stop, dm1, [EHandler err])
        else
          (true, dm1,
           EHandler err ::
           if negb (isEof err) then [EEmit (EventError err "reading frame")] else [])
    | None => default
    end.

(** The rest of [readFrame], for a packet that was read. *)
Definition readFramePacket (a : answers) (pkt : Packet) (dm : Demuxer)
    : bool * Demuxer * list effect * Packet :=
  let stat := statIncomingRate dm + Size pkt * 8 in
  match ss dm !! streamIndex pkt with
  | None =>
      (false,
       mkDemuxer (emulateRate dm) (l dm) (loop dm) (p dm)
         (readFrameErrorHandler dm) (ss dm) stat,
       [], pkt)
  | Some ds =>
      let '(pd1, previousDuration) := durationerHandlePkt (pd ds) pkt in
      let '(l1, pkt1, previousDuration1) :=
        Looper.handlePkt (l dm) pkt previousDuration in
      if emulateRate dm then
        let o := RateEmulator.handlePkt rescaleQ (refResult a) (nowAt a)
                   (nowUntil a) (p dm) (e ds) pkt1 previousDuration1 in
        let ds1 := mkDemuxerStream (ctx ds) (d ds) (RateEmulator.emulator o) pd1 (s ds) in
        (false,
         mkDemuxer (emulateRate dm) l1 (loop dm) (RateEmulator.pool o)
           (readFrameErrorHandler dm) (<[streamIndex pkt := ds1]> (ss dm)) stat,
         (EEmit <$> RateEmulator.events o)
         ++ match RateEmulator.slept o with Some dl => [ESleep dl] | None => [] end,
         pkt1)
      else
        let ds1 := withDurationer ds pd1 in
        (false,
         mkDemuxer (emulateRate dm) l1 (loop dm) (p dm)
           (readFrameErrorHandler dm) (<[streamIndex pkt := ds1]> (ss dm)) stat,
         [EDispatch pkt1 (d ds)], pkt1)
  end.

(** [Demuxer.readFrame]: a packet is taken from the pool, filled by
    [ReadFrame] and given back when the call returns. *)
Definition readFrame (a : answers) (dm : Demuxer) : bool * Demuxer * list effect :=
  let dm0 := withPool dm (pktGet (p dm)) in
  match readResult a with
  | inl err =>
      let '(stop, dm1, effs) := readFrameError a err dm0 in
      (stop, withPool dm1 (pktPut (p dm1) (mkPacket 0 0 0 0 0)), effs)
  | inr pkt =>
      let '(stop, dm1, effs, pkt1) := readFramePacket a pkt dm0 in
      (stop, withPool dm1 (pktPut (p dm1) pkt1), effs)
  end.

(** The loop of [Start], for as many answers as given; it ends when
    [readFrame] asks to stop. *)
Fixpoint readLoop (dm : Demuxer) (answered : list answers) : Demuxer * list effect :=
  match answered with
  | [] => (dm, [])
  | a :: rest =>
      let '(stop, dm1, effs) := readFrame a dm in
      if stop then (dm1, effs)
      else let '(dm2, effs2) := readLoop dm1 rest in (dm2, effs ++ effs2)
  end.

(** The DTS of the packets dispatched for stream [idx], in order. *)
Fixpoint dispatchedDts (idx : Z) (effs : list effect) : list Z :=
  match effs with
  | [] => []
  | EDispatch pkt _ :: effs' =>
      if bool_decide (streamIndex pkt = idx) then dts pkt :: dispatchedDts idx effs'
      else dispatchedDts idx effs'
  | _ :: effs' => dispatchedDts idx effs'
  end.

(** *** Error handling of [readFrame] *)

(** Membership in a list written out. *)
Ltac list_mem :=
  cbn [negb]; rewrite ?elem_of_cons, ?elem_of_nil;
  intuition (try discriminate; try congruence).

Lemma readFrame_error a err dm :
  readResult a = inl err →
  readFrame a dm
  = let r := readFrameError a err (withPool dm (pktGet (p dm))) in
    (r.1.1, withPool r.1.2 (pktPut (p r.1.2) (mkPacket 0 0 0 0 0)), r.2).
Proof.
  intros Ha. unfold readFrame. rewrite Ha.
  by destruct (readFrameError a err _) as [[stop dm1] effs].
Qed.

(** C6. For an error [err] returned by [ReadFrame]:
    - with the loop flag set and [err] an end of file, the looper's [looping]
      runs, the demuxer seeks, and the read loop stops exactly when the seek
      fails, in which case the seek's error is emitted;
    - otherwise the looper is left alone and nothing is sought; every
      stream's emulator gets [eof] when the rate is emulated and [err] is an
      end of file; a custom handler that claims the error decides whether the
      loop stops, and nothing is emitted; without a handler claiming the
      error, the loop stops and an error event is emitted exactly when [err]
      is not an end of file. *)
Theorem readFrame_error_handling seek ref n1 n2 err dm :
  let a := mkAnswers (inl err) seek ref n1 n2 in
  let stop := (readFrame a dm).1.1 in
  let dm' := (readFrame a dm).1.2 in
  let effs := (readFrame a dm).2 in
  let claimed :=
    match readFrameErrorHandler dm with
    | Some h => (h err).2
    | None => false
    end in
  (0 < loop dm ∧ isEof err = true →
     l dm' = Looper.looping rescaleQ durationToTimeBase (flushed dm) (l dm)
     ∧ stop = bool_decide (is_Some seek)
     ∧ effs = ESeekFrame ::
              (match seek with
               | Some err' => [EEmit (EventError err' "seeking to frame")]
               | None => []
               end))
  ∧ (¬ (0 < loop dm ∧ isEof err = true) →
     l dm' = l dm
     ∧ (ESeekFrame ∉ effs)
     ∧ (∀ idx ds, ss dm !! idx = Some ds →
          ∃ ds', ss dm' !! idx = Some ds'
            ∧ e ds' = (if emulateRate dm && isEof err
                       then RateEmulator.eof (e ds) else e ds))
     ∧ (claimed = true →
          (∃ h, readFrameErrorHandler dm = Some h ∧ stop = (h err).1)
          ∧ ∀ ev, EEmit ev ∉ effs)
     ∧ (claimed = false →
          stop = true
          ∧ (EEmit (EventError err "reading frame") ∈ effs ↔ isEof err = false)
          ∧ ∀ ev, EEmit ev ∈ effs → ev = EventError err "reading frame")).
Proof.
  cbn zeta. rewrite (readFrame_error _ err) by done. cbn zeta.
  unfold readFrameError. cbn [loop withPool isEof emulateRate readFrameErrorHandler l ss].
  split.
  - intros [Hloop Heof]. rewrite (proj2 (Z.ltb_lt _ _) Hloop), Heof. cbn [andb].
    destruct seek as [err'|]; cbn; split_and!; try done.
  - intros Hnot.
    assert (Hcond : (0 <? loop dm) && isEof err = false).
    { destruct (0 <? loop dm) eqn:Hl; [|done]. apply Z.ltb_lt in Hl.
      destruct (isEof err); [|done]. exfalso. by apply Hnot. }
    rewrite Hcond.
    set (dm1 := if emulateRate dm && isEof err then eofAll _ else _).
    assert (Hl1 : l dm1 = l dm).
    { unfold dm1. by destruct (emulateRate dm && isEof err). }
    assert (Hss1 : ∀ idx ds, ss dm !! idx = Some ds →
              ∃ ds', ss dm1 !! idx = Some ds'
                ∧ e ds' = (if emulateRate dm && isEof err
                           then RateEmulator.eof (e ds) else e ds)).
    { intros idx ds Hds. unfold dm1.
      destruct (emulateRate dm && isEof err).
      - eexists. cbn. rewrite lookup_fmap, Hds. done.
      - by exists ds. }
    destruct (readFrameErrorHandler dm) as [h|] eqn:Hh.
    + destruct (h err) as [stop handled] eqn:Hherr. cbn [snd fst].
      destruct handled; cbn [fst snd l ss withPool].
      * split_and!; try done.
        -- list_mem.
        -- intros _. split; [exists h; by rewrite Hherr|]. intros ev. list_mem.
      * split_and!; try done.
        -- destruct (isEof err); list_mem.
        -- intros _. split_and!; [done| |].
           ++ destruct (isEof err); list_mem.
           ++ intros ev. destruct (isEof err); list_mem.
    + cbn [fst snd l ss withPool]. split_and!; try done.
      * destruct (isEof err); list_mem.
      * intros _. split_and!; [done| |].
        -- destruct (isEof err); list_mem.
        -- intros ev. destruct (isEof err); list_mem.
Qed.

End readFrame.

(** A demuxer of one stream that loops, and the same demuxer with the loop
    switched off, the rate emulated and a handler claiming every error. *)
Definition loopingDemuxer : Demuxer :=
  NewDemuxer (mkDemuxerOptions false 0 true None)
    [mkAvStream 0 1 0 (mkRational 1 1000)].

Definition handledDemuxer : Demuxer :=
  NewDemuxer (mkDemuxerOptions true 0 false (Some (λ _, (false, true))))
    [mkAvStream 0 1 0 (mkRational 1 1000)].

Lemma readFrame_error_handling_witness :
  (readFrame RescaleQ Looper.durationToTimeBase
     (mkAnswers (inl ErrEof) None None 0 0) loopingDemuxer).1.1 = false
  ∧ (readFrame RescaleQ Looper.durationToTimeBase
       (mkAnswers (inl ErrEof) None None 0 0) loopingDemuxer).2 = [ESeekFrame]
  ∧ (readFrame RescaleQ Looper.durationToTimeBase
       (mkAnswers (inl ErrEof) None None 0 0) handledDemuxer).1.1 = false
  ∧ (readFrame RescaleQ Looper.durationToTimeBase
       (mkAnswers (inl (ErrOther 5)) None None 0 0) loopingDemuxer).1.1 = true.
Proof.
  pose proof (readFrame_error_handling RescaleQ Looper.durationToTimeBase
                None None 0 0 ErrEof loopingDemuxer) as [H1 _].
  pose proof (readFrame_error_handling RescaleQ Looper.durationToTimeBase
                None None 0 0 ErrEof handledDemuxer) as [_ H2].
  pose proof (readFrame_error_handling RescaleQ Looper.durationToTimeBase
                None None 0 0 (ErrOther 5) loopingDemuxer) as [_ H3].
  cbn zeta in H1, H2, H3.
  destruct H1 as (_ & Hstop & Heffs); [split; [reflexivity|reflexivity]|].
  destruct H2 as (_ & _ & _ & Hclaimed & _).
  { intros [Hloop _]. vm_compute in Hloop. discriminate. }
  destruct (Hclaimed eq_refl) as [(h & Hh & Hstop2) _].
  destruct H3 as (_ & _ & _ & _ & Hdefault).
  { intros [_ Heof]. discriminate. }
  destruct (Hdefault eq_refl) as (Hstop3 & _).
  split_and!.
  - rewrite Hstop. reflexivity.
  - rewrite Heffs. reflexivity.
  - rewrite Hstop2. injection Hh as <-. reflexivity.
  - exact Hstop3.
Defined.

(** *** The stream table *)

(** Every stream is stored under its own index. *)
Definition indexed (m : gmap Z demuxerStream) : Prop :=
  ∀ k ds, m !! k = Some ds → avIndex (s ds) = k.

Lemma newStreamTable_indexed bufferDuration streams :
  indexed (newStreamTable bufferDuration streams).
Proof.
  unfold newStreamTable.
  assert (H : ∀ m, indexed m →
            indexed (foldl (λ m s, <[avIndex s := newDemuxerStream bufferDuration s]> m)
                       m streams)).
  { induction streams as [|st streams IH]; intros m Hm; [done|].
    cbn. apply IH. intros k ds.
    destruct (decide (avIndex st = k)) as [<-|Hne].
    - rewrite lookup_insert_eq. by intros [= <-].
    - rewrite lookup_insert_ne by done. apply Hm. }
  apply H. intros k ds. by rewrite lookup_empty.
Qed.

Lemma StronglySorted_le_lt (xs : list Z) :
  StronglySorted Z.le xs → NoDup xs → StronglySorted Z.lt xs.
Proof.
  induction 1 as [|x xs Hs IH Hall]; intros Hnd; [constructor|].
  apply NoDup_cons in Hnd as [Hx Hnd]. constructor; [by apply IH|].
  apply Forall_forall. intros y Hy.
  rewrite Forall_forall in Hall. specialize (Hall y Hy).
  assert (x ≠ y) by (intros ->; done). lia.
Qed.

Lemma sorted_indexes_eq (dm : Demuxer) order :
  order ≡ₚ indexes dm →
  merge_sort Z.le order = merge_sort Z.le (indexes dm).
Proof.
  intros Hperm.
  apply (Sorted_unique Z.le); try apply Sorted_merge_sort; try apply _.
  by rewrite !merge_sort_Permutation.
Qed.

(** C10. Whatever the order in which the stream table is iterated,
    [Streams] returns the same list: one [Stream] per entry of the table,
    each built from the entry stored under its index, in strictly ascending
    order of stream index. *)
Theorem Streams_ascending (dm : Demuxer) order order' :
  indexed (ss dm) → order ≡ₚ indexes dm → order' ≡ₚ indexes dm →
  ∃ res, Streams order dm = Some res
    ∧ Streams order' dm = Some res
    ∧ length res = size (ss dm)
    ∧ Index <$> res ≡ₚ indexes dm
    ∧ StronglySorted Z.lt (Index <$> res)
    ∧ Forall (λ st, ∃ ds, ss dm !! Index st = Some ds ∧ st = stream ds) res.
Proof.
  intros Hidx Hperm Hperm'.
  unfold Streams. rewrite (sorted_indexes_eq dm order Hperm).
  rewrite (sorted_indexes_eq dm order' Hperm').
  set (sl := merge_sort Z.le (indexes dm)).
  assert (Hsl : sl ≡ₚ indexes dm) by apply merge_sort_Permutation.
  assert (Hin : ∀ idx, idx ∈ sl → ∃ ds, ss dm !! idx = Some ds).
  { intros idx Hi. rewrite Hsl in Hi. unfold indexes in Hi.
    apply list_elem_of_fmap in Hi as ([k ds] & -> & Hi).
    apply elem_of_map_to_list in Hi. by exists ds. }
  destruct (mapM (λ idx, stream <$> ss dm !! idx) sl) as [res|] eqn:Hres; last first.
  { exfalso. assert (Hsome : is_Some (mapM (λ idx, stream <$> ss dm !! idx) sl)).
    { apply mapM_is_Some, Forall_forall. intros idx Hi.
      destruct (Hin idx Hi) as [ds Hds]. cbn. rewrite Hds. by eexists. }
    rewrite Hres in Hsome. by destruct Hsome. }
  apply mapM_Some in Hres.
  assert (Hindex : Index <$> res = sl).
  { clear Hin Hsl. induction Hres as [|idx st sl' res' Hst _ IH]; [done|].
    cbn. f_equal; [|done].
    destruct (ss dm !! idx) as [ds|] eqn:Hds; [|done].
    injection Hst as <-. cbn. by apply Hidx. }
  exists res. split_and!; try done.
  - rewrite <- (length_fmap Index), Hindex, Hsl. unfold indexes.
    rewrite length_fmap. apply length_map_to_list.
  - by rewrite Hindex.
  - rewrite Hindex. apply StronglySorted_le_lt.
    + apply StronglySorted_merge_sort; apply _.
    + rewrite Hsl. apply NoDup_fst_map_to_list.
  - clear Hindex Hin Hsl.
    induction Hres as [|idx st sl' res' Hst _ IH]; constructor; [|done].
    destruct (ss dm !! idx) as [ds|] eqn:Hds; [|done].
    injection Hst as <-. exists ds. split; [|done].
    cbn. by rewrite (Hidx _ _ Hds).
Qed.

(** A demuxer of three streams found in the order 2, 0, 1. *)
Definition threeStreams : Demuxer :=
  NewDemuxer (mkDemuxerOptions false 0 false None)
    [mkAvStream 2 12 0 (mkRational 1 90000);
     mkAvStream 0 10 0 (mkRational 1 25);
     mkAvStream 1 11 0 (mkRational 1 48000)].

Lemma Streams_ascending_witness :
  ∃ res, Streams [2; 0; 1] threeStreams = Some res
    ∧ Streams [1; 2; 0] threeStreams = Some res
    ∧ length res = size (ss threeStreams)
    ∧ Index <$> res ≡ₚ indexes threeStreams
    ∧ StronglySorted Z.lt (Index <$> res)
    ∧ Forall (λ st, ∃ ds, ss threeStreams !! Index st = Some ds ∧ st = stream ds) res.
Proof.
  apply (Streams_ascending threeStreams [2; 0; 1] [1; 2; 0]).
  - apply newStreamTable_indexed.
  - assert (H : indexes threeStreams = [2; 1; 0]) by (vm_compute; reflexivity).
    rewrite H. apply perm_skip, perm_swap.
  - assert (H : indexes threeStreams = [2; 1; 0]) by (vm_compute; reflexivity).
    rewrite H. apply perm_swap.
Defined.

(** *** A run on which the restamped DTS decrease *)

Definition readPacket (p d : Z) : answers :=
  mkAnswers (inr (mkPacket 0 p d 10 0)) None None 0 0.

Definition readEof : answers := mkAnswers (inl ErrEof) None None 0 0.

(** One stream read twice. Its three packets have increasing PTS 100, 101,
    102 and increasing DTS 0, 50, 102, never above the PTS. *)
Definition shrinkingOffsets : list answers :=
  [ readPacket 100 0; readPacket 101 50; readPacket 102 102; readEof;
    readPacket 100 0; readPacket 101 50; readPacket 102 102 ].

(** C1, as stated, fails: the looper derives the restamp delta from the
    durations, which follow the PTS; after the first loop it is 3, and the
    first DTS of the second iteration is emitted below the last DTS of the
    first. *)
Lemma looper_dts_decrease_at_loop :
  dispatchedDts 0
    (readLoop RescaleQ Looper.durationToTimeBase loopingDemuxer shrinkingOffsets).2
  = [0; 50; 102; 3; 53; 105]
  ∧ ¬ Sorted Z.le
        (dispatchedDts 0
           (readLoop RescaleQ Looper.durationToTimeBase loopingDemuxer
              shrinkingOffsets).2).
Proof.
  assert (H : dispatchedDts 0
                (readLoop RescaleQ Looper.durationToTimeBase loopingDemuxer
                   shrinkingOffsets).2
              = [0; 50; 102; 3; 53; 105]) by (vm_compute; reflexivity).
  split; [exact H|]. rewrite H. intros Hs.
  do 2 apply Sorted_inv in Hs as [Hs _].
  apply Sorted_inv in Hs as [_ Hhd]. apply HdRel_inv in Hhd. lia.
Qed.

End Demuxer.

(** ** Rate enforcer *)

Module RateEnforcer.

Import Av Core.

(** [astiav.Frame]: its PTS and its content. *)
Record Frame := mkFrame { framePts : Z; frameData : nat }.

Definition SetPts (f : Frame) (v : Z) : Frame := mkFrame v (frameData f).

(** [framePool]: how many frames were taken with [get], and the frames given
    back with [put], in order. *)
Record framePool := mkFramePool { frameGets : nat; framePuts : list Frame }.

Definition frameGet (p : framePool) : framePool :=
  mkFramePool (S (frameGets p)) (framePuts p).

Definition framePut (p : framePool) (f : Frame) : framePool :=
  mkFramePool (frameGets p) (framePuts p ++ [f]).

Record rateEnforcerItem := mkItem { itemF : Frame; itemN : Node }.

Record rateEnforcerSlot := mkSlot {
  slotI : option rateEnforcerItem;
  slotN : Node;
  ptsMax : Z;
  ptsMin : Z
}.

#[global] Instance frame_eq_dec : EqDecision Frame.
Proof. solve_decision. Defined.

#[global] Instance item_eq_dec : EqDecision rateEnforcerItem.
Proof. solve_decision. Defined.

(** [FrameHandlerPayload] *)
Record FrameHandlerPayload := mkPayload {
  payloadDescriptor : Rational;
  payloadFrame : Frame;
  payloadNode : Node
}.

(** [FrameRestamper]: an object with a state and a [Restamp] method that
    rewrites a frame. *)
Record FrameRestamper := mkRestamper {
  restamperState : Z;
  restamperRestamp : Z → Frame → Z * Frame
}.

Definition Restamp (rs : FrameRestamper) (f : Frame) : FrameRestamper * Frame :=
  let '(st, f') := restamperRestamp rs (restamperState rs) f in
  (mkRestamper st (restamperRestamp rs), f').

(** [RateEnforcerFiller], with its two implementations: the filler that
    repeats the previous frame, and the filler of one fixed frame. *)
Inductive RateEnforcerFiller :=
  | previousRateEnforcerFiller (f : option Frame) (n : Node)
  | frameRateEnforcerFiller (f : Frame).

(** [Fill] *)
Definition Fill (fl : RateEnforcerFiller) : option Frame * Node :=
  match fl with
  | previousRateEnforcerFiller f n => (f, n)
  | frameRateEnforcerFiller f => (Some f, None)
  end.

(** [slotsCount] and [period] aside, the configuration derived from
    [OutputCtx] is the time base and the width of a slot,
    [int64(1/(TimeBase*FrameRate))], a floating-point computation whose
    result is kept in [slotWidth]. [c] holds the functions added to the
    [astikit.Chan] and not yet run, each with the frame and the node it
    captured. [dispatched] and [emitted] record what was handed to the frame
    dispatcher and to the event handler. [previousNode] is the variable of
    that name owned by the tick goroutine. *)
Record RateEnforcer := mkRateEnforcer {
  adaptSlotsToIncomingFrames : bool;
  buf : list rateEnforcerItem;
  c : list (Frame * Node);
  dispatched : list Frame;
  emitted : list event;
  f : RateEnforcerFiller;
  n : Node;
  outputTimeBase : Rational;
  slotWidth : Z;
  p : framePool;
  restamper : option FrameRestamper;
  slotsCount : Z;
  slots : list (option rateEnforcerSlot);
  statDelayAvg : list Z;
  statFilledRate : Z;
  statIncomingRate : Z;
  statProcessedRate : Z;
  previousNode : Node
}.

Definition withBuf (r : RateEnforcer) (v : list rateEnforcerItem) : RateEnforcer :=
  mkRateEnforcer (adaptSlotsToIncomingFrames r) v (c r) (dispatched r)
    (emitted r) (f r) (n r) (outputTimeBase r) (slotWidth r) (p r)
    (restamper r) (slotsCount r) (slots r) (statDelayAvg r) (statFilledRate
    r) (statIncomingRate r) (statProcessedRate r) (previousNode r).

Definition withChan (r : RateEnforcer) (v : list (Frame * Node)) : RateEnforcer :=
  mkRateEnforcer (adaptSlotsToIncomingFrames r) (buf r) v (dispatched r)
    (emitted r) (f r) (n r) (outputTimeBase r) (slotWidth r) (p r)
    (restamper r) (slotsCount r) (slots r) (statDelayAvg r) (statFilledRate
    r) (statIncomingRate r) (statProcessedRate r) (previousNode r).

Definition withDispatched (r : RateEnforcer) (v : list Frame) : RateEnforcer :=
  mkRateEnforcer (adaptSlotsToIncomingFrames r) (buf r) (c r) v (emitted r)
    (f r) (n r) (outputTimeBase r) (slotWidth r) (p r) (restamper r)
    (slotsCount r) (slots r) (statDelayAvg r) (statFilledRate r)
    (statIncomingRate r) (statProcessedRate r) (previousNode r).

Definition withEmitted (r : RateEnforcer) (v : list event) : RateEnforcer :=
  mkRateEnforcer (adaptSlotsToIncomingFrames r) (buf r) (c r) (dispatched r)
    v (f r) (n r) (outputTimeBase r) (slotWidth r) (p r) (restamper r)
    (slotsCount r) (slots r) (statDelayAvg r) (statFilledRate r)
    (statIncomingRate r) (statProcessedRate r) (previousNode r).

Definition withFiller (r : RateEnforcer) (v : RateEnforcerFiller) : RateEnforcer :=
  mkRateEnforcer (adaptSlotsToIncomingFrames r) (buf r) (c r) (dispatched r)
    (emitted r) v (n r) (outputTimeBase r) (slotWidth r) (p r) (restamper r)
    (slotsCount r) (slots r) (statDelayAvg r) (statFilledRate r)
    (statIncomingRate r) (statProcessedRate r) (previousNode r).

Definition withNode (r : RateEnforcer) (v : Node) : RateEnforcer :=
  mkRateEnforcer (adaptSlotsToIncomingFrames r) (buf r) (c r) (dispatched r)
    (emitted r) (f r) v (outputTimeBase r) (slotWidth r) (p r) (restamper r)
    (slotsCount r) (slots r) (statDelayAvg r) (statFilledRate r)
    (statIncomingRate r) (statProcessedRate r) (previousNode r).

Definition withPool (r : RateEnforcer) (v : framePool) : RateEnforcer :=
  mkRateEnforcer (adaptSlotsToIncomingFrames r) (buf r) (c r) (dispatched r)
    (emitted r) (f r) (n r) (outputTimeBase r) (slotWidth r) v (restamper r)
    (slotsCount r) (slots r) (statDelayAvg r) (statFilledRate r)
    (statIncomingRate r) (statProcessedRate r) (previousNode r).

Definition withRestamper (r : RateEnforcer) (v : option FrameRestamper) : RateEnforcer :=
  mkRateEnforcer (adaptSlotsToIncomingFrames r) (buf r) (c r) (dispatched r)
    (emitted r) (f r) (n r) (outputTimeBase r) (slotWidth r) (p r) v
    (slotsCount r) (slots r) (statDelayAvg r) (statFilledRate r)
    (statIncomingRate r) (statProcessedRate r) (previousNode r).

Definition withSlots (r : RateEnforcer) (v : list (option rateEnforcerSlot)) : RateEnforcer :=
  mkRateEnforcer (adaptSlotsToIncomingFrames r) (buf r) (c r) (dispatched r)
    (emitted r) (f r) (n r) (outputTimeBase r) (slotWidth r) (p r)
    (restamper r) (slotsCount r) v (statDelayAvg r) (statFilledRate r)
    (statIncomingRate r) (statProcessedRate r) (previousNode r).

Definition withStatDelayAvg (r : RateEnforcer) (v : list Z) : RateEnforcer :=
  mkRateEnforcer (adaptSlotsToIncomingFrames r) (buf r) (c r) (dispatched r)
    (emitted r) (f r) (n r) (outputTimeBase r) (slotWidth r) (p r)
    (restamper r) (slotsCount r) (slots r) v (statFilledRate r)
    (statIncomingRate r) (statProcessedRate r) (previousNode r).

Definition withStatFilledRate (r : RateEnforcer) (v : Z) : RateEnforcer :=
  mkRateEnforcer (adaptSlotsToIncomingFrames r) (buf r) (c r) (dispatched r)
    (emitted r) (f r) (n r) (outputTimeBase r) (slotWidth r) (p r)
    (restamper r) (slotsCount r) (slots r) (statDelayAvg r) v
    (statIncomingRate r) (statProcessedRate r) (previousNode r).

Definition withStatIncomingRate (r : RateEnforcer) (v : Z) : RateEnforcer :=
  mkRateEnforcer (adaptSlotsToIncomingFrames r) (buf r) (c r) (dispatched r)
    (emitted r) (f r) (n r) (outputTimeBase r) (slotWidth r) (p r)
    (restamper r) (slotsCount r) (slots r) (statDelayAvg r) (statFilledRate
    r) v (statProcessedRate r) (previousNode r).

Definition withStatProcessedRate (r : RateEnforcer) (v : Z) : RateEnforcer :=
  mkRateEnforcer (adaptSlotsToIncomingFrames r) (buf r) (c r) (dispatched r)
    (emitted r) (f r) (n r) (outputTimeBase r) (slotWidth r) (p r)
    (restamper r) (slotsCount r) (slots r) (statDelayAvg r) (statFilledRate
    r) (statIncomingRate r) v (previousNode r).

Definition withPreviousNode (r : RateEnforcer) (v : Node) : RateEnforcer :=
  mkRateEnforcer (adaptSlotsToIncomingFrames r) (buf r) (c r) (dispatched r)
    (emitted r) (f r) (n r) (outputTimeBase r) (slotWidth r) (p r)
    (restamper r) (slotsCount r) (slots r) (statDelayAvg r) (statFilledRate
    r) (statIncomingRate r) (statProcessedRate r) v.

(** [r.eh.Emit] and [emitError] *)
Definition emit (r : RateEnforcer) (ev : event) : RateEnforcer :=
  withEmitted r (emitted r ++ [ev]).

(** [RateEnforcerOptions] *)
Record RateEnforcerOptions := mkOptions {
  AdaptSlotsToIncomingFrames : bool;
  Delay : Z;
  Filler : option RateEnforcerFiller;
  OutputTimeBase : Rational;
  SlotWidth : Z;
  Restamper : option FrameRestamper
}.

(** [NewRateEnforcer]: one nil slot, [max(Delay, 1)] slots to wait for, and
    the previous-frame filler when none is given. *)
Definition NewRateEnforcer (o : RateEnforcerOptions) : RateEnforcer :=
  mkRateEnforcer (AdaptSlotsToIncomingFrames o) [] [] [] []
    (match Filler o with
     | Some fl => fl
     | None => previousRateEnforcerFiller None None
     end)
    None (OutputTimeBase o) (SlotWidth o) (mkFramePool 0 []) (Restamper o)
    (Z.max (Delay o) 1) [None] [] 0 0 0 None.

(** [RateEnforcer.Switch] *)
Definition Switch (v : Node) (r : RateEnforcer) : RateEnforcer := withNode r v.

(** [RateEnforcer.newRateEnforcerSlot] *)
Definition newRateEnforcerSlot (r : RateEnforcer) (fm : Frame) : rateEnforcerSlot :=
  mkSlot None (n r) (Int64.add (framePts fm) (slotWidth r)) (framePts fm).

(** [rateEnforcerSlot.next] *)
Definition next (s : rateEnforcerSlot) : rateEnforcerSlot :=
  mkSlot None (slotN s) (Int64.add (Int64.sub (ptsMax s) (ptsMin s)) (ptsMax s))
    (ptsMax s).

Definition newRateEnforcerItem (fm : Frame) (nd : Node) : rateEnforcerItem :=
  mkItem fm nd.

(** *** The filler *)

(** A frame that holds nothing, as [Unref] leaves it. *)
Definition blankFrame : Frame := mkFrame 0 0.

(** [NoFill]. For the previous-frame filler, [refResult] is what
    [f.f.Ref(fm)] returns. *)
Definition NoFill (refResult : option error) (fm : Frame) (nd : Node)
    (r : RateEnforcer) : RateEnforcer :=
  match f r with
  | previousRateEnforcerFiller ff _ =>
      let r1 := match ff with
                | None => withPool r (frameGet (p r))
                | Some _ => r
                end in
      match refResult with
      | Some err =>
          let r2 := emit r1 (EventError err "refing frame") in
          withFiller (withPool r2 (framePut (p r2) blankFrame))
            (previousRateEnforcerFiller None nd)
      | None => withFiller r1 (previousRateEnforcerFiller (Some fm) nd)
      end
  | frameRateEnforcerFiller _ => r
  end.

(** The frame returned by [Fill] is the filler's own: what is written to it
    is written to the filler. *)
Definition withFillerFrame (fl : RateEnforcerFiller) (fm : Frame) : RateEnforcerFiller :=
  match fl with
  | previousRateEnforcerFiller (Some _) nd => previousRateEnforcerFiller (Some fm) nd
  | previousRateEnforcerFiller None nd => previousRateEnforcerFiller None nd
  | frameRateEnforcerFiller _ => frameRateEnforcerFiller fm
  end.

(** *** distribute *)

(** The nodes of the slots, [ns] in [distribute]. *)
Definition usefulNodes (sl : list (option rateEnforcerSlot)) : gset nat :=
  foldr (λ os acc,
    match os with
    | Some s => match slotN s with Some x => {[x]} ∪ acc | None => acc end
    | None => acc
    end) ∅ sl.

(** [_, ok := ns[nd]] *)
Definition useful (ns : gset nat) (nd : Node) : bool :=
  match nd with
  | Some x => bool_decide (x ∈ ns)
  | None => false
  end.

Definition withItem (s : rateEnforcerSlot) (it : rateEnforcerItem) : rateEnforcerSlot :=
  mkSlot (Some it) (slotN s) (ptsMax s) (ptsMin s).

(** The loop through the buffer made for one slot, from index [idx] on.
    Removing [r.buf[idx]] and decrementing [idx] before the loop's increment
    leaves [idx] where it is. Every turn either removes an item or moves
    [idx] forward, so [length buf] turns are enough. *)
Fixpoint scan (fuel : nat) (ns : gset nat) (idx : nat) (s : rateEnforcerSlot)
    (b : list rateEnforcerItem) (pl : framePool)
    : rateEnforcerSlot * list rateEnforcerItem * framePool :=
  match fuel with
  | O => (s, b, pl)
  | S fuel' =>
      match b !! idx with
      | None => (s, b, pl)
      | Some it =>
          if negb (bool_decide (itemN it = slotN s)) then
            if negb (useful ns (itemN it)) then
              scan fuel' ns idx s (delete idx b) (framePut pl (itemF it))
            else scan fuel' ns (S idx) s b pl
          else if (ptsMin s <=? framePts (itemF it))
                  && (framePts (itemF it) <? ptsMax s) then
            match slotI s with
            | None => scan fuel' ns idx (withItem s it) (delete idx b) pl
            | Some _ => scan fuel' ns idx s (delete idx b) (framePut pl (itemF it))
            end
          else if framePts (itemF it) <? ptsMin s then
            scan fuel' ns idx s (delete idx b) (framePut pl (itemF it))
          else scan fuel' ns (S idx) s b pl
      end
  end.

(** One turn of the loop through the slots, for the slot at position [k]. *)
Definition distributeSlot (ns : gset nat) (k : nat) (r : RateEnforcer) : RateEnforcer :=
  match slots r !! k with
  | Some (Some s) =>
      match slotI s with
      | Some _ => r
      | None =>
          let '(s', b', p') := scan (length (buf r)) ns 0 s (buf r) (p r) in
          withPool (withBuf (withSlots r (<[k := Some s']> (slots r))) b') p'
      end
  | _ => r
  end.

(** [RateEnforcer.distribute] *)
Definition distribute (r : RateEnforcer) : RateEnforcer :=
  let ns := usefulNodes (slots r) in
  foldl (λ r k, distributeSlot ns k r) r (seq 0 (length (slots r))).

(** *** current *)

Definition fill (r : RateEnforcer) : option rateEnforcerItem * bool * RateEnforcer :=
  (match Fill (f r) with
   | (Some fm, nd) => Some (newRateEnforcerItem fm nd)
   | (None, _) => None
   end, true, r).

(** [RateEnforcer.current]; [None] when [r.slots[0]] is out of range. *)
Definition current (refResult : option error) (r : RateEnforcer)
    : option (option rateEnforcerItem * bool * RateEnforcer) :=
  match slots r with
  | [] => None
  | Some s :: _ =>
      match slotI s with
      | Some it => Some (Some it, false, NoFill refResult (itemF it) (itemN it) r)
      | None => Some (fill r)
      end
  | None :: _ => Some (fill r)
  end.

Section operations.

Variable rescaleQ : Z → Rational → Rational → Z.

(** *** HandleFrame *)

(** [RateEnforcer.HandleFrame], up to the point where the rest is added to
    the chan. [refResult] is what [f.Ref(p.Frame)] returns. *)
Definition HandleFrame (refResult : option error) (pl : FrameHandlerPayload)
    (r : RateEnforcer) : RateEnforcer :=
  let r1 := withStatIncomingRate r (statIncomingRate r + 1) in
  let r2 := withPool r1 (frameGet (p r1)) in
  match refResult with
  | Some err => emit r2 (EventError err "refing frame")
  | None =>
      let fm := payloadFrame pl in
      let fm := SetPts fm (rescaleQ (framePts fm) (payloadDescriptor pl)
                             (outputTimeBase r2)) in
      withChan r2 (c r2 ++ [(fm, payloadNode pl)])
  end.

(** The function [HandleFrame] adds to the chan, for the frame [fm] copied
    from a payload of node [pn]. [refResult] is what [i.f.Ref(f)] returns.
    [None] when [r.slots] is empty and indexing its last element panics. *)
Definition handleFrameTask (refResult : option error) (fm : Frame) (pn : Node)
    (r : RateEnforcer) : option RateEnforcer :=
  let r1 := withStatProcessedRate r (statProcessedRate r + 1) in
  match last (slots r1) with
  | None => None
  | Some l =>
      let c1 :=
        match l with
        | None => true
        | Some ls => negb (bool_decide (n r1 = slotN ls)) && bool_decide (n r1 = pn)
        end in
      let c2 :=
        match l with
        | None => false
        | Some ls => bool_decide (slotN ls = pn) && (ptsMax ls <? framePts fm)
        end in
      let r2 :=
        if c1 || c2 then
          let r' :=
            if c1 || (c2 && adaptSlotsToIncomingFrames r1) then
              withSlots r1 (<[pred (length (slots r1)) :=
                               Some (newRateEnforcerSlot r1 fm)]> (slots r1))
            else r1 in
          if c1 then emit r' (EventRateEnforcerSwitchedIn pn) else r'
        else r1 in
      let r3 := withPool r2 (frameGet (p r2)) in
      let r4 :=
        match refResult with
        | Some err => emit r3 (EventError err "refing frame")
        | None =>
            let it := newRateEnforcerItem fm pn in
            let r' := withBuf r3 (buf r3 ++ [it]) in
            match l with
            | Some ls =>
                if bool_decide (slotN ls = itemN it) then
                  withStatDelayAvg r'
                    (statDelayAvg r'
                     ++ [rescaleQ (Int64.sub (ptsMax ls) (framePts (itemF it)))
                           (outputTimeBase r') nanosecondRational])
                else r'
            | None => r'
            end
        end in
      Some (withPool r4 (framePut (p r4) fm))
  end.

(** The chan runs the functions added to it one after the other. *)
Definition runTask (refResult : option error) (r : RateEnforcer) : option RateEnforcer :=
  match c r with
  | [] => Some r
  | (fm, pn) :: rest => handleFrameTask refResult fm pn (withChan r rest)
  end.

End operations.

(** *** tickFunc *)

(** What a tick did: nothing while there are not enough slots, or the
    dispatch of the item of the first slot, or a fill (a frame is dispatched
    when the filler has one). *)
Inductive tickOutcome :=
  | TickWarmup
  | TickSlot (it : rateEnforcerItem)
  | TickFilled (fm : option Frame).

(** The deferred function that adds the next slot. *)
Definition addNextSlot (r : RateEnforcer) : option RateEnforcer :=
  match last (slots r) with
  | None => None
  | Some ps => Some (withSlots r (slots r ++ [next <$> ps]))
  end.

(** The deferred function that removes the first slot. *)
Definition removeFirstSlot (r : RateEnforcer) : RateEnforcer :=
  withSlots r (drop 1 (slots r)).

(** Restamping and dispatching the item returned by [current]. *)
Definition dispatchItem (filled : bool) (it : rateEnforcerItem) (r : RateEnforcer)
    : RateEnforcer * rateEnforcerItem :=
  let '(rs, fm) :=
    match restamper r with
    | Some rs => let '(rs', fm') := Restamp rs (itemF it) in (Some rs', fm')
    | None => (None, itemF it)
    end in
  let ra := withRestamper r rs in
  let ra := if filled then withFiller ra (withFillerFrame (f ra) fm) else ra in
  let rb := withDispatched ra (dispatched ra ++ [fm]) in
  let rc :=
    match itemN it with
    | Some _ =>
        if negb (bool_decide (previousNode rb = itemN it)) then
          withPreviousNode (emit rb (EventRateEnforcerSwitchedOut (itemN it)))
            (itemN it)
        else rb
    | None => rb
    end in
  (rc, mkItem fm (itemN it)).

(** [RateEnforcer.tickFunc], once the sleep is over and the context is still
    alive. [refResult] is what the filler's [Ref] returns, should [NoFill]
    call it. The deferred functions run in reverse order: the next slot is
    added, then the first slot is removed. [None] stands for a panic. *)
Definition tickFunc (refResult : option error) (r : RateEnforcer)
    : option (RateEnforcer * tickOutcome) :=
  if Z.of_nat (length (slots r)) <? slotsCount r then
    r' ← addNextSlot r; Some (r', TickWarmup)
  else
    let r1 := distribute r in
    '(i, filled, r2) ← current refResult r1;
    let '(r3, i') :=
      match i with
      | Some it => let '(r', it') := dispatchItem filled it r2 in (r', Some it')
      | None => (r2, None)
      end in
    r4 ← (if filled then Some (withStatFilledRate r3 (statFilledRate r3 + 1))
          else match i' with
               | Some it => Some (withPool r3 (framePut (p r3) (itemF it)))
               | None => None
               end);
    r5 ← addNextSlot r4;
    Some (removeFirstSlot r5,
          if filled then TickFilled (itemF <$> i')
          else match i with Some it => TickSlot it | None => TickFilled None end).

(** *** Runs *)

(** What happens to a rate enforcer: the source is switched, a frame comes
    in, the chan runs its next function, the ticker ticks. *)
Inductive action :=
  | ActSwitch (nd : Node)
  | ActHandleFrame (refResult : option error) (pl : FrameHandlerPayload)
  | ActRunTask (refResult : option error)
  | ActTick (refResult : option error).

(** Whether a tick finds enough slots to dispatch. *)
Definition warm (r : RateEnforcer) : bool :=
  negb (Z.of_nat (length (slots r)) <? slotsCount r).

(** A run, with the log of its ticks: whether the tick found enough slots,
    and what it did. *)
Fixpoint run (rescaleQ : Z → Rational → Rational → Z) (r : RateEnforcer)
    (acts : list action) : option (RateEnforcer * list (bool * tickOutcome)) :=
  match acts with
  | [] => Some (r, [])
  | ActSwitch nd :: acts' => run rescaleQ (Switch nd r) acts'
  | ActHandleFrame ref pl :: acts' => run rescaleQ (HandleFrame rescaleQ ref pl r) acts'
  | ActRunTask ref :: acts' =>
      r' ← runTask rescaleQ ref r; run rescaleQ r' acts'
  | ActTick ref :: acts' =>
      '(r', o) ← tickFunc ref r;
      '(r'', log) ← run rescaleQ r' acts';
      Some (r'', (warm r, o) :: log)
  end.

(** *** The slot window *)

(** Adjacent slots that are not nil touch. *)
Definition contiguous (sl : list (option rateEnforcerSlot)) : Prop :=
  ∀ k a b, sl !! k = Some (Some a) → sl !! S k = Some (Some b) →
    ptsMin b = ptsMax a.

(** The node and the bounds of every slot: what [distribute] leaves alone. *)
Definition bounds (sl : list (option rateEnforcerSlot))
    : list (option (Node * Z * Z)) :=
  (λ os : option rateEnforcerSlot,
     (λ s, (slotN s, ptsMax s, ptsMin s)) <$> os) <$> sl.

Lemma scan_bounds fuel ns : ∀ idx s b pl,
  let s' := (scan fuel ns idx s b pl).1.1 in
  slotN s' = slotN s ∧ ptsMax s' = ptsMax s ∧ ptsMin s' = ptsMin s.
Proof.
  induction fuel as [|fuel IH]; intros idx s b pl; cbn [scan]; [done|].
  destruct (b !! idx) as [it|]; [|done].
  repeat case_match; try apply IH.
  destruct (IH idx (withItem s it) (delete idx b) pl) as (? & ? & ?). done.
Qed.

Lemma distributeSlot_bounds ns k r :
  bounds (slots (distributeSlot ns k r)) = bounds (slots r).
Proof.
  unfold distributeSlot.
  destruct (slots r !! k) as [[s|]|] eqn:Hk; [|done..].
  destruct (slotI s); [done|].
  pose proof (scan_bounds (length (buf r)) ns 0 s (buf r) (p r)) as Hb.
  destruct (scan _ _ _ _ _ _) as [[s' b'] p']. cbn in Hb. cbn [slots withPool withBuf withSlots].
  destruct Hb as (Hn & Hmax & Hmin).
  unfold bounds. rewrite list_fmap_insert. cbn. rewrite Hn, Hmax, Hmin.
  apply list_insert_id. by rewrite list_lookup_fmap, Hk.
Qed.

Lemma distribute_bounds r : bounds (slots (distribute r)) = bounds (slots r).
Proof.
  unfold distribute. generalize (usefulNodes (slots r)) as ns.
  generalize (seq 0 (length (slots r))) as ks. intros ks. revert r.
  induction ks as [|k ks IH]; intros r ns; [done|].
  cbn [foldl]. rewrite IH. apply distributeSlot_bounds.
Qed.

Lemma bounds_length sl : length (bounds sl) = length sl.
Proof. unfold bounds. apply length_fmap. Qed.

Lemma bounds_contiguous sl sl' :
  bounds sl = bounds sl' → contiguous sl → contiguous sl'.
Proof.
  intros Hb Hc k a b Ha Hb'.
  assert (Hka : bounds sl' !! k = Some (Some (slotN a, ptsMax a, ptsMin a))).
  { unfold bounds. by rewrite list_lookup_fmap, Ha. }
  assert (Hkb : bounds sl' !! S k = Some (Some (slotN b, ptsMax b, ptsMin b))).
  { unfold bounds. by rewrite list_lookup_fmap, Hb'. }
  rewrite <- Hb in Hka, Hkb. unfold bounds in Hka, Hkb.
  rewrite list_lookup_fmap in Hka, Hkb.
  destruct (sl !! k) as [[a0|]|] eqn:Ha0; try done.
  destruct (sl !! S k) as [[b0|]|] eqn:Hb0; try done.
  cbn in Hka, Hkb. injection Hka as ? Ha1 ?. injection Hkb as ? ? Hb1.
  rewrite <- Hb1, <- Ha1. by apply (Hc k).
Qed.

Lemma contiguous_drop sl : contiguous sl → contiguous (drop 1 sl).
Proof.
  intros Hc k a b Ha Hb. rewrite lookup_drop in Ha, Hb.
  by apply (Hc (1 + k)%nat).
Qed.

Lemma contiguous_next sl ps :
  last sl = Some ps → contiguous sl → contiguous (sl ++ [next <$> ps]).
Proof.
  intros Hlast Hc k a b Ha Hb.
  assert (Hlen : (S k < length (sl ++ [next <$> ps]))%nat)
    by (apply lookup_lt_is_Some; eauto).
  rewrite length_app in Hlen. cbn in Hlen.
  destruct (decide (S k < length sl)%nat) as [Hlt|Hge].
  - rewrite lookup_app_l in Ha, Hb by lia. by apply (Hc k).
  - assert (Hk : S k = length sl) by lia.
    rewrite lookup_app_l in Ha by lia.
    rewrite lookup_app_r in Hb by lia.
    replace (S k - length sl)%nat with 0%nat in Hb by lia. cbn in Hb.
    rewrite last_lookup in Hlast.
    replace (pred (length sl)) with k in Hlast by lia.
    rewrite Ha in Hlast. injection Hlast as <-. cbn in Hb. by injection Hb as <-.
Qed.

Lemma next_spec s :
  ptsMin (next s) = ptsMax s
  ∧ Int64.sub (ptsMax (next s)) (ptsMin (next s)) = Int64.sub (ptsMax s) (ptsMin s)
  ∧ slotN (next s) = slotN s.
Proof.
  split_and!; [done| |done]. cbn. unfold Int64.sub, Int64.add.
  rewrite Int64.wrap_add_l, Int64.wrap_sub_l.
  replace (ptsMax s - ptsMin s + ptsMax s - ptsMax s) with (ptsMax s - ptsMin s) by lia.
  done.
Qed.

Lemma NoFill_slots ref fm nd r : slots (NoFill ref fm nd r) = slots r.
Proof. unfold NoFill. by repeat case_match. Qed.

Lemma current_spec ref r :
  slots r ≠ [] →
  ∃ i filled r2, current ref r = Some (i, filled, r2)
    ∧ slots r2 = slots r
    ∧ (filled = false → is_Some i).
Proof.
  intros Hne. unfold current, fill.
  destruct (slots r) as [|[s|] sl] eqn:Hsl; [done| |].
  - destruct (slotI s) as [it|].
    + eexists _, _, _. split; [done|]. rewrite NoFill_slots. split; [done|]. eauto.
    + eexists _, _, _. split; [done|]. split; [done|]. done.
  - eexists _, _, _. split; [done|]. split; [done|]. done.
Qed.

Lemma dispatchItem_slots filled it r : slots (dispatchItem filled it r).1 = slots r.
Proof.
  unfold dispatchItem.
  destruct (restamper r) as [rs|]; [destruct (Restamp rs (itemF it))|];
    destruct filled; cbn; by repeat case_match.
Qed.

Lemma last_is_Some {A} (l : list A) : l ≠ [] → is_Some (last l).
Proof.
  intros Hne. rewrite last_lookup. apply lookup_lt_is_Some.
  destruct l; [done|]. cbn. lia.
Qed.

(** The slots a tick leaves, from the slots just before the deferred
    functions run. *)
Lemma tickFunc_slots ref r :
  slots r ≠ [] →
  ∃ r' o sl ps, tickFunc ref r = Some (r', o)
    ∧ bounds sl = bounds (slots r)
    ∧ last sl = Some ps
    ∧ slots r' = (if warm r then drop 1 (sl ++ [next <$> ps])
                  else sl ++ [next <$> ps]).
Proof.
  intros Hne. unfold tickFunc, warm.
  destruct (Z.of_nat (length (slots r)) <? slotsCount r) eqn:Hw; cbn [negb].
  - destruct (last_is_Some _ Hne) as [ps Hps].
    unfold addNextSlot. rewrite Hps. cbn.
    by eexists _, _, (slots r), ps.
  - pose proof (distribute_bounds r) as Hb.
    assert (Hne1 : slots (distribute r) ≠ []).
    { intros H0. rewrite H0 in Hb. destruct (slots r); done. }
    destruct (current_spec ref (distribute r) Hne1)
      as (i & filled & r2 & Hcur & Hsl2 & Hi).
    rewrite Hcur. cbn [mbind option_bind].
    destruct (last_is_Some _ Hne1) as [ps Hps].
    destruct i as [it|].
    + pose proof (dispatchItem_slots filled it r2) as Hd.
      destruct (dispatchItem filled it r2) as [r3 it']. cbn [fst] in Hd.
      destruct filled; cbn [mbind option_bind];
        unfold addNextSlot; cbn [slots withStatFilledRate withPool];
        rewrite Hd, Hsl2, Hps; cbn;
        eexists _, _, (slots (distribute r)), ps; split_and!; try done;
        by rewrite Hd, Hsl2.
    + destruct filled; [|by destruct (Hi eq_refl)].
      cbn [mbind option_bind]. unfold addNextSlot.
      cbn [slots withStatFilledRate]. rewrite Hsl2, Hps. cbn.
      eexists _, _, (slots (distribute r)), ps; split_and!; done.
Qed.

(** C2 (as amended). A tick on a window that has a slot does not panic and
    leaves a window that has a slot: it grows by one while warming up and
    keeps its length afterwards. [next] yields a slot of the same node that
    starts where its predecessor ends and has the same width (in [int64]
    arithmetic); the last two slots of the window a tick leaves always
    touch; and a tick leaves a contiguous window contiguous. *)
Theorem tick_window ref r :
  slots r ≠ [] →
  ∃ r' o, tickFunc ref r = Some (r', o)
    ∧ slots r' ≠ []
    ∧ length (slots r')
      = (if warm r then length (slots r) else S (length (slots r)))
    ∧ (∀ s, ptsMin (next s) = ptsMax s
          ∧ Int64.sub (ptsMax (next s)) (ptsMin (next s))
            = Int64.sub (ptsMax s) (ptsMin s)
          ∧ slotN (next s) = slotN s)
    ∧ (∀ k a b, slots r' !! k = Some (Some a) → slots r' !! S k = Some (Some b) →
         S (S k) = length (slots r') → ptsMin b = ptsMax a)
    ∧ (contiguous (slots r) → contiguous (slots r')).
Proof.
  intros Hne.
  destruct (tickFunc_slots ref r Hne) as (r' & o & sl & ps & Htick & Hb & Hps & Hsl).
  exists r', o. split; [done|].
  assert (Hlen : length sl = length (slots r)).
  { by rewrite <- (bounds_length sl), Hb, bounds_length. }
  assert (Hlen0 : (0 < length (slots r))%nat).
  { destruct (slots r); [done|]. cbn. lia. }
  assert (Hlast2 : ∀ k a b, (sl ++ [next <$> ps]) !! k = Some (Some a) →
            (sl ++ [next <$> ps]) !! S k = Some (Some b) →
            S (S k) = length (sl ++ [next <$> ps]) → ptsMin b = ptsMax a).
  { intros k a b Ha Hb' Hk. rewrite length_app in Hk. cbn in Hk.
    rewrite lookup_app_l in Ha by lia. rewrite lookup_app_r in Hb' by lia.
    replace (S k - length sl)%nat with 0%nat in Hb' by lia. cbn in Hb'.
    rewrite last_lookup in Hps. replace (pred (length sl)) with k in Hps by lia.
    rewrite Ha in Hps. injection Hps as <-. cbn in Hb'. by injection Hb' as <-. }
  assert (Hcont : contiguous (slots r) → contiguous (sl ++ [next <$> ps])).
  { intros Hc. apply contiguous_next; [done|].
    apply (bounds_contiguous (slots r)); done. }
  rewrite Hsl. destruct (warm r).
  - split_and!.
    + intros H0. apply (f_equal length) in H0.
      rewrite length_drop, length_app in H0. cbn in H0. lia.
    + rewrite length_drop, length_app. cbn. lia.
    + apply next_spec.
    + intros k a b Ha Hb' Hk. rewrite lookup_drop in Ha, Hb'.
      rewrite length_drop in Hk. apply (Hlast2 (1 + k)%nat a b); [done..|].
      rewrite length_app in *. cbn in *. lia.
    + intros Hc. by apply contiguous_drop, Hcont.
  - split_and!.
    + intros H0. apply (f_equal length) in H0. rewrite length_app in H0. cbn in H0. lia.
    + rewrite length_app. cbn. lia.
    + apply next_spec.
    + done.
    + done.
Qed.

(** A window of three slots of width 40 that touch. *)
Definition threeSlots : RateEnforcer :=
  withSlots (NewRateEnforcer (mkOptions false 3 None (mkRational 1 1000) 40 None))
    [ Some (mkSlot None (Some 1%nat) 40 0);
      Some (mkSlot None (Some 1%nat) 80 40);
      Some (mkSlot None (Some 1%nat) 120 80) ].

Lemma tick_window_witness :
  ∃ r' o, tickFunc None threeSlots = Some (r', o)
    ∧ slots r' ≠ []
    ∧ length (slots r') = 3%nat
    ∧ contiguous (slots r').
Proof.
  destruct (tick_window None threeSlots) as (r' & o & Ht & Hne & Hlen & _ & _ & Hc).
  { discriminate. }
  exists r', o. split_and!; [exact Ht|exact Hne|exact Hlen|].
  apply Hc. intros k a b Ha Hb.
  destruct k as [|[|k]]; cbn in Ha, Hb.
  - injection Ha as <-. injection Hb as <-. reflexivity.
  - injection Ha as <-. injection Hb as <-. reflexivity.
  - destruct k; discriminate.
Defined.

Lemma bounds_lookup sl k nd mx mn :
  bounds sl !! k = Some (Some (nd, mx, mn)) →
  ∃ s, sl !! k = Some (Some s) ∧ slotN s = nd ∧ ptsMax s = mx ∧ ptsMin s = mn.
Proof.
  unfold bounds. rewrite list_lookup_fmap.
  destruct (sl !! k) as [[s|]|]; cbn; try done.
  intros [= <- <- <-]. by exists s.
Qed.

(** A rate enforcer waiting for three slots, fed by node 1 and then switched
    to node 2, whose first frame comes with PTS 1000. *)
Definition payloadOf (t : Z) (data node : nat) : FrameHandlerPayload :=
  mkPayload (mkRational 1 1000) (mkFrame t data) (Some node).

Definition switchRun : list action :=
  [ ActSwitch (Some 1%nat); ActHandleFrame None (payloadOf 0 1 1); ActRunTask None;
    ActTick None; ActTick None;
    ActSwitch (Some 2%nat); ActHandleFrame None (payloadOf 1000 2 2); ActRunTask None;
    ActTick None ].

(** C2, as stated, fails: the frame that switches the source in re-anchors
    the last slot at its own PTS, and the gap to the slot before it is still
    in the window after the next tick. *)
Lemma switch_breaks_contiguity :
  ∃ r' log,
    run RescaleQ (NewRateEnforcer (mkOptions false 3 None (mkRational 1 1000) 40 None))
      switchRun = Some (r', log)
    ∧ bounds (slots r')
      = [ Some (Some 1%nat, 80, 40); Some (Some 2%nat, 1040, 1000);
          Some (Some 2%nat, 1080, 1040) ]
    ∧ ¬ contiguous (slots r').
Proof.
  assert (H : (λ x, bounds (slots x.1))
              <$> run RescaleQ
                    (NewRateEnforcer (mkOptions false 3 None (mkRational 1 1000) 40 None))
                    switchRun
              = Some [ Some (Some 1%nat, 80, 40); Some (Some 2%nat, 1040, 1000);
                       Some (Some 2%nat, 1080, 1040) ])
    by (vm_compute; reflexivity).
  destruct (run _ _ _) as [[r' log]|]; [|discriminate].
  cbn in H. injection H as H. exists r', log. split_and!; [done..|].
  intros Hc.
  destruct (bounds_lookup (slots r') 0 (Some 1%nat) 80 40) as (a & Ha & _ & Hmax & _).
  { by rewrite H. }
  destruct (bounds_lookup (slots r') 1 (Some 2%nat) 1040 1000) as (b & Hb & _ & _ & Hmin).
  { by rewrite H. }
  specialize (Hc 0%nat a b Ha Hb). lia.
Qed.

(** *** What a tick dispatches *)

Lemma distributeSlot_only ns k r :
  ∃ sl b pl, distributeSlot ns k r = withPool (withBuf (withSlots r sl) b) pl.
Proof.
  unfold distributeSlot.
  destruct (slots r !! k) as [[s|]|];
    try (exists (slots r), (buf r), (p r); by destruct r).
  destruct (slotI s); [exists (slots r), (buf r), (p r); by destruct r|].
  destruct (scan _ _ _ _ _ _) as [[s' b'] p']. by eexists _, _, _.
Qed.

Lemma distribute_only r :
  ∃ sl b pl, distribute r = withPool (withBuf (withSlots r sl) b) pl.
Proof.
  unfold distribute. generalize (usefulNodes (slots r)) as ns.
  generalize (seq 0 (length (slots r))) as ks. intros ks ns.
  assert (H : ∀ r0, (∃ sl b pl, r0 = withPool (withBuf (withSlots r sl) b) pl) →
            ∃ sl b pl, foldl (λ r k, distributeSlot ns k r) r0 ks
                       = withPool (withBuf (withSlots r sl) b) pl).
  { induction ks as [|k ks IH]; intros r0 Hr0; [done|].
    cbn [foldl]. apply IH.
    destruct Hr0 as (sl & b & pl & ->).
    destruct (distributeSlot_only ns k (withPool (withBuf (withSlots r sl) b) pl))
      as (sl' & b' & pl' & ->).
    by exists sl', b', pl'. }
  apply H. exists (slots r), (buf r), (p r). by destruct r.
Qed.

(** The item of the first slot, if any. *)
Definition slot0Item (r : RateEnforcer) : option rateEnforcerItem :=
  match slots r with
  | Some s :: _ => slotI s
  | _ => None
  end.

Definition isFilled (o : tickOutcome) : bool :=
  match o with TickFilled _ => true | _ => false end.

Definition isSlot (o : tickOutcome) : bool :=
  match o with TickSlot _ => true | _ => false end.

(** A tick dispatches a frame when it takes the item of the first slot, or
    when it fills and the filler has a frame. *)
Definition dispatches (o : tickOutcome) : bool :=
  match o with
  | TickSlot _ | TickFilled (Some _) => true
  | _ => false
  end.

Fixpoint count {A} (P : A → bool) (l : list A) : nat :=
  match l with
  | [] => 0
  | x :: l' => (if P x then 1 else 0) + count P l'
  end.

Lemma NoFill_fields ref fm nd r :
  dispatched (NoFill ref fm nd r) = dispatched r
  ∧ restamper (NoFill ref fm nd r) = restamper r
  ∧ statFilledRate (NoFill ref fm nd r) = statFilledRate r.
Proof. unfold NoFill. by repeat case_match. Qed.

Lemma dispatchItem_spec filled it r :
  ∃ fm, (dispatchItem filled it r).2 = mkItem fm (itemN it)
    ∧ dispatched (dispatchItem filled it r).1 = dispatched r ++ [fm]
    ∧ (restamper r = None → fm = itemF it)
    ∧ statFilledRate (dispatchItem filled it r).1 = statFilledRate r
    ∧ p (dispatchItem filled it r).1 = p r
    ∧ (filled = false → f (dispatchItem filled it r).1 = f r).
Proof.
  unfold dispatchItem.
  destruct (restamper r) as [rs|]; [destruct (Restamp rs (itemF it)) as [rs' fm']|].
  - exists fm'. destruct filled; cbn; repeat case_match; split_and!; done.
  - exists (itemF it). destruct filled; cbn; repeat case_match; split_and!; done.
Qed.

(** What a tick that returns has done. *)
Lemma tickFunc_cases ref r r' o :
  tickFunc ref r = Some (r', o) →
  (warm r = false ∧ o = TickWarmup
   ∧ statFilledRate r' = statFilledRate r ∧ dispatched r' = dispatched r)
  ∨ (warm r = true
     ∧ ∃ it, slot0Item (distribute r) = Some it ∧ o = TickSlot it
       ∧ statFilledRate r' = statFilledRate r
       ∧ f r' = f (NoFill ref (itemF it) (itemN it) (distribute r))
       ∧ ∃ fm, dispatched r' = dispatched r ++ [fm]
           ∧ (restamper r = None → fm = itemF it)
           ∧ last (framePuts (p r')) = Some fm)
  ∨ (warm r = true
     ∧ slot0Item (distribute r) = None
     ∧ statFilledRate r' = statFilledRate r + 1
     ∧ framePuts (p r') = framePuts (p (distribute r))
     ∧ match (Fill (f r)).1 with
       | Some fm0 =>
           ∃ fm, o = TickFilled (Some fm)
             ∧ dispatched r' = dispatched r ++ [fm]
             ∧ (restamper r = None → fm = fm0)
       | None => o = TickFilled None ∧ dispatched r' = dispatched r
       end).
Proof.
  unfold tickFunc, warm.
  destruct (Z.of_nat (length (slots r)) <? slotsCount r); cbn [negb].
  - intros Ht. left. unfold addNextSlot in Ht.
    destruct (last (slots r)); [|done]. cbn in Ht. by injection Ht as <- <-.
  - destruct (distribute_only r) as (sl & b & pl & Hd).
    assert (Hf : f (distribute r) = f r) by (by rewrite Hd).
    assert (Hdisp : dispatched (distribute r) = dispatched r) by (by rewrite Hd).
    assert (Hrs : restamper (distribute r) = restamper r) by (by rewrite Hd).
    assert (Hst : statFilledRate (distribute r) = statFilledRate r) by (by rewrite Hd).
    set (rd := distribute r) in *. clearbody rd. clear Hd.
    unfold current, slot0Item.
    destruct (slots rd) as [|[s|] sl0] eqn:Hsl; [done| |].
    + destruct (slotI s) as [it|] eqn:Hit.
      * cbn [mbind option_bind]. intros Ht. right. left. split; [done|].
        exists it. split; [done|].
        destruct (NoFill_fields ref (itemF it) (itemN it) rd) as (Hn1 & Hn2 & Hn3).
        set (r2 := NoFill ref (itemF it) (itemN it) rd) in *.
        destruct (dispatchItem_spec false it r2) as (fm & H1 & H2 & H3 & H4 & H5 & H6).
        destruct (dispatchItem false it r2) as [r3 it']. cbn [fst snd] in *.
        subst it'. cbn [mbind option_bind itemF] in Ht.
        unfold addNextSlot in Ht. cbn [slots withPool] in Ht.
        destruct (last (slots r3)) as [ps|]; [|done]. cbn in Ht.
        injection Ht as <- <-. cbn.
        split_and!; try done.
        -- congruence.
        -- by apply H6.
        -- exists fm. split_and!.
           ++ congruence.
           ++ intros Hnone. apply H3. congruence.
           ++ by rewrite last_snoc.
      * intros Ht. right. right. split; [done|]. split; [done|].
        revert Ht. unfold fill. rewrite Hf.
        destruct (Fill (f r)) as [[fm0|] nd]; cbn [fst mbind option_bind].
        -- destruct (dispatchItem_spec true (newRateEnforcerItem fm0 nd) rd)
             as (fm & H1 & H2 & H3 & H4 & H5 & _).
           destruct (dispatchItem true _ rd) as [r3 it']. cbn [fst snd] in *.
           subst it'. unfold addNextSlot. cbn [slots withStatFilledRate].
           destruct (last (slots r3)) as [ps|]; [|done]. cbn.
           intros [= <- <-]. cbn. split_and!; [congruence|congruence|].
           exists fm. split_and!; [done|congruence|].
           intros Hnone. apply H3. congruence.
        -- unfold addNextSlot. cbn [slots withStatFilledRate].
           destruct (last (slots rd)) as [ps|]; [|done]. cbn.
           intros [= <- <-]. cbn. split_and!; try done; congruence.
    + intros Ht. right. right. split; [done|]. split; [done|].
      revert Ht. unfold fill. rewrite Hf.
      destruct (Fill (f r)) as [[fm0|] nd]; cbn [fst mbind option_bind].
      * destruct (dispatchItem_spec true (newRateEnforcerItem fm0 nd) rd)
          as (fm & H1 & H2 & H3 & H4 & H5 & _).
        destruct (dispatchItem true _ rd) as [r3 it']. cbn [fst snd] in *.
        subst it'. unfold addNextSlot. cbn [slots withStatFilledRate].
        destruct (last (slots r3)) as [ps|]; [|done]. cbn.
        intros [= <- <-]. cbn. split_and!; [congruence|congruence|].
        exists fm. split_and!; [done|congruence|].
        intros Hnone. apply H3. congruence.
      * unfold addNextSlot. cbn [slots withStatFilledRate].
        destruct (last (slots rd)) as [ps|]; [|done]. cbn.
        intros [= <- <-]. cbn. split_and!; try done; congruence.
Qed.

Lemma handleFrameTask_fields rescaleQ ref fm pn r r' :
  handleFrameTask rescaleQ ref fm pn r = Some r' →
  statFilledRate r' = statFilledRate r ∧ dispatched r' = dispatched r
  ∧ f r' = f r ∧ c r' = c r.
Proof.
  unfold handleFrameTask. cbn [slots withStatProcessedRate].
  destruct (last (slots r)) as [l|]; [|done].
  intros [= <-]. by repeat case_match.
Qed.

Lemma runTask_fields rescaleQ ref r r' :
  runTask rescaleQ ref r = Some r' →
  statFilledRate r' = statFilledRate r ∧ dispatched r' = dispatched r.
Proof.
  unfold runTask. destruct (c r) as [|[fm pn] rest]; [by intros [= <-]|].
  intros Ht. by destruct (handleFrameTask_fields _ _ _ _ _ _ Ht) as (? & ? & _).
Qed.

Lemma HandleFrame_fields rescaleQ ref pl r :
  statFilledRate (HandleFrame rescaleQ ref pl r) = statFilledRate r
  ∧ dispatched (HandleFrame rescaleQ ref pl r) = dispatched r.
Proof. unfold HandleFrame. by destruct ref. Qed.

Lemma tickFunc_counts ref r r' o :
  tickFunc ref r = Some (r', o) →
  warm r = isFilled o || isSlot o
  ∧ statFilledRate r' = statFilledRate r + (if isFilled o then 1 else 0)
  ∧ length (dispatched r')
    = (length (dispatched r) + (if dispatches o then 1 else 0))%nat.
Proof.
  intros Ht. destruct (tickFunc_cases _ _ _ _ Ht)
    as [(Hw & -> & Hs & Hd)
       |[(Hw & it & _ & -> & Hs & _ & fm & Hd & _)
        |(Hw & _ & Hs & _ & Hfill)]].
  - rewrite Hw, Hs, Hd. cbn. split_and!; [done|lia|lia].
  - rewrite Hw, Hs, Hd, length_app. cbn. split_and!; [done|lia|lia].
  - rewrite Hw, Hs. destruct ((Fill (f r)).1) as [fm0|].
    + destruct Hfill as (fm & -> & Hd & _). rewrite Hd, length_app. cbn.
      split_and!; [done|lia|lia].
    + destruct Hfill as (-> & Hd). rewrite Hd. cbn. split_and!; [done|lia|lia].
Qed.

Lemma run_accounting rescaleQ : ∀ acts r r' log,
  run rescaleQ r acts = Some (r', log) →
  statFilledRate r' = statFilledRate r + Z.of_nat (count (λ e, isFilled e.2) log)
  ∧ count (λ e, e.1) log
    = (count (λ e, isFilled e.2) log + count (λ e, isSlot e.2) log)%nat
  ∧ length (dispatched r')
    = (length (dispatched r) + count (λ e, dispatches e.2) log)%nat.
Proof.
  induction acts as [|a acts IH]; intros r r' log Hrun; cbn [run] in Hrun.
  - injection Hrun as <- <-. cbn. split_and!; lia.
  - destruct a as [nd|ref pl|ref|ref].
    + by apply IH in Hrun.
    + apply IH in Hrun.
      destruct (HandleFrame_fields rescaleQ ref pl r) as [-> ->] in Hrun. done.
    + destruct (runTask rescaleQ ref r) as [r1|] eqn:Ht; [|done].
      cbn in Hrun. apply IH in Hrun.
      destruct (runTask_fields _ _ _ _ Ht) as [-> ->] in Hrun. done.
    + destruct (tickFunc ref r) as [[r1 o]|] eqn:Ht; [|done].
      cbn in Hrun.
      destruct (run rescaleQ r1 acts) as [[r2 log2]|] eqn:Hrest; [|done].
      cbn in Hrun. injection Hrun as <- <-.
      apply IH in Hrest as (H1 & H2 & H3).
      destruct (tickFunc_counts _ _ _ _ Ht) as (Hw & Hs & Hd).
      cbn [count fst snd]. rewrite H1, H2, H3, Hs, Hd, Hw.
      destruct o as [|it|[fm|]]; cbn; split_and!; lia.
Qed.

(** C4 (as amended). A tick that finds enough slots dispatches at most one
    frame. When the first slot holds an item after [distribute], the item's
    frame is dispatched (restamped when there is a restamper), the filler is
    informed with [NoFill], the frame is given back to the pool last, and
    the filled-rate stat is left alone. Otherwise the filled-rate stat is
    incremented, nothing is given back to the pool, and the filler's frame is
    dispatched if the filler has one; no frame is dispatched when it has
    none. Over any run, the ticks that found enough slots are as many as the
    fills plus the dispatches of slot items, and the filled-rate stat has
    grown by the number of fills. *)
Theorem tick_dispatch rescaleQ :
  (∀ ref r, slots r ≠ [] → warm r = true →
     ∃ r' o, tickFunc ref r = Some (r', o)
       ∧ match slot0Item (distribute r) with
         | Some it =>
             o = TickSlot it
             ∧ statFilledRate r' = statFilledRate r
             ∧ f r' = f (NoFill ref (itemF it) (itemN it) (distribute r))
             ∧ ∃ fm, dispatched r' = dispatched r ++ [fm]
                 ∧ (restamper r = None → fm = itemF it)
                 ∧ last (framePuts (p r')) = Some fm
         | None =>
             statFilledRate r' = statFilledRate r + 1
             ∧ framePuts (p r') = framePuts (p (distribute r))
             ∧ match (Fill (f r)).1 with
               | Some fm0 =>
                   ∃ fm, o = TickFilled (Some fm)
                     ∧ dispatched r' = dispatched r ++ [fm]
                     ∧ (restamper r = None → fm = fm0)
               | None => o = TickFilled None ∧ dispatched r' = dispatched r
               end
         end)
  ∧ (∀ acts r r' log,
       run rescaleQ r acts = Some (r', log) →
       statFilledRate r'
       = statFilledRate r + Z.of_nat (count (λ e, isFilled e.2) log)
       ∧ count (λ e, e.1) log
         = (count (λ e, isFilled e.2) log + count (λ e, isSlot e.2) log)%nat
       ∧ length (dispatched r')
         = (length (dispatched r) + count (λ e, dispatches e.2) log)%nat).
Proof.
  split; [|apply run_accounting].
  intros ref r Hne Hwarm.
  destruct (tickFunc_slots ref r Hne) as (r' & o & _ & _ & Ht & _).
  exists r', o. split; [done|].
  destruct (tickFunc_cases _ _ _ _ Ht)
    as [(Hw & _)|[(_ & it & Hit & Ho & Hs & Hf & Hfm)|(_ & Hnone & Hs & Hp & Hfill)]].
  - congruence.
  - rewrite Hit. done.
  - rewrite Hnone. done.
Qed.

(** A source that delivers one frame and then stops, with one slot to wait
    for: the first tick dispatches the frame, the next two fill. *)
Definition fillRun : list action :=
  [ ActSwitch (Some 1%nat); ActHandleFrame None (payloadOf 0 1 1); ActRunTask None;
    ActTick None; ActTick None; ActTick None ].

Definition oneSlot : RateEnforcer :=
  NewRateEnforcer (mkOptions false 1 None (mkRational 1 1000) 40 None).

(** Of every tick of a log: whether it found enough slots, filled, took a
    slot's item, dispatched. *)
Definition summary (log : list (bool * tickOutcome)) : list (bool * bool * bool * bool) :=
  map (λ e, (e.1, isFilled e.2, isSlot e.2, dispatches e.2)) log.

Lemma tick_dispatch_witness :
  ∃ r' log, run RescaleQ oneSlot fillRun = Some (r', log)
    ∧ statFilledRate r' = 2
    ∧ count (λ e, e.1) log = 3%nat
    ∧ length (dispatched r') = 3%nat.
Proof.
  assert (Hlog : option_map (λ x, summary x.2) (run RescaleQ oneSlot fillRun)
                 = Some [ (true, false, true, true); (true, true, false, true);
                          (true, true, false, true) ])
    by (vm_compute; reflexivity).
  destruct (tick_dispatch RescaleQ) as [_ Hacc].
  specialize (Hacc fillRun oneSlot).
  destruct (run _ _ _) as [[r' log]|]; [|discriminate].
  destruct (Hacc r' log eq_refl) as (Hs & Hw & Hd).
  exists r', log. split; [reflexivity|].
  cbn [option_map snd] in Hlog. injection Hlog as Hlog.
  destruct log as [|[w1 o1] [|[w2 o2] [|[w3 o3] [|? ?]]]]; try discriminate.
  cbn [summary map fst snd] in Hlog.
  injection Hlog as -> Hf1 Hs1 Hd1 -> Hf2 Hs2 Hd2 -> Hf3 Hs3 Hd3.
  cbn [count fst snd] in Hs, Hw, Hd.
  rewrite Hf1, Hf2, Hf3 in Hs. rewrite Hd1, Hd2, Hd3 in Hd.
  change (statFilledRate oneSlot) with 0 in Hs.
  change (dispatched oneSlot) with (@nil Frame) in Hd.
  split_and!; [exact Hs| reflexivity | exact Hd].
Defined.

(** C4, as stated, fails: before any frame has been dispatched the
    previous-frame filler has no frame to give, and a tick that finds enough
    slots dispatches nothing while counting a fill. *)
Lemma tick_without_frame :
  warm oneSlot = true
  ∧ ∃ r', tickFunc None oneSlot = Some (r', TickFilled None)
      ∧ dispatched r' = []
      ∧ statFilledRate r' = 1.
Proof.
  split; [reflexivity|]. eexists. split; [vm_compute; reflexivity|].
  split; reflexivity.
Qed.

(** *** What a scan does to the buffer *)

(** The frame is of the slot's node and its PTS lies in the slot. *)
Definition inRange (s : rateEnforcerSlot) (it : rateEnforcerItem) : bool :=
  bool_decide (itemN it = slotN s)
  && (ptsMin s <=? framePts (itemF it)) && (framePts (itemF it) <? ptsMax s).

(** The frame is of the slot's node and older than the slot. *)
Definition stale (s : rateEnforcerSlot) (it : rateEnforcerItem) : bool :=
  bool_decide (itemN it = slotN s) && (framePts (itemF it) <? ptsMin s).

(** The frame is of another node, which no slot refers to. *)
Definition useless (ns : gset nat) (s : rateEnforcerSlot) (it : rateEnforcerItem) : bool :=
  negb (bool_decide (itemN it = slotN s)) && negb (useful ns (itemN it)).

(** The frame leaves the buffer during the scan. *)
Definition leaves (ns : gset nat) (s : rateEnforcerSlot) (it : rateEnforcerItem) : bool :=
  useless ns s it || inRange s it || stale s it.

(** A list without the first of its elements that satisfies [P]. *)
Fixpoint removeFirst {A} (P : A → bool) (l : list A) : list A :=
  match l with
  | [] => []
  | x :: l' => if P x then l' else x :: removeFirst P l'
  end.

(** The scan as §4.7 words it, item after item: a frame of another node is
    dropped when no slot refers to its node and skipped otherwise; a frame in
    the slot's range is assigned if the slot is empty and dropped otherwise;
    an older frame is dropped; a later frame is left. *)
Fixpoint scanSpec (ns : gset nat) (s : rateEnforcerSlot) (b : list rateEnforcerItem)
    (pl : framePool) : rateEnforcerSlot * list rateEnforcerItem * framePool :=
  match b with
  | [] => (s, [], pl)
  | it :: b' =>
      let leave := let '(s', kept, pl') := scanSpec ns s b' pl in (s', it :: kept, pl') in
      if negb (bool_decide (itemN it = slotN s)) then
        if negb (useful ns (itemN it)) then scanSpec ns s b' (framePut pl (itemF it))
        else leave
      else if (ptsMin s <=? framePts (itemF it))
              && (framePts (itemF it) <? ptsMax s) then
        match slotI s with
        | None => scanSpec ns (withItem s it) b' pl
        | Some _ => scanSpec ns s b' (framePut pl (itemF it))
        end
      else if framePts (itemF it) <? ptsMin s then
        scanSpec ns s b' (framePut pl (itemF it))
      else leave
  end.

(** The loop over indexes does what the scan item after item does. *)
Lemma scan_scanSpec ns : ∀ fuel idx s b pl,
  (length b - idx ≤ fuel)%nat →
  scan fuel ns idx s b pl
  = let '(s', kept, pl') := scanSpec ns s (drop idx b) pl in
    (s', take idx b ++ kept, pl').
Proof.
  induction fuel as [|fuel IH]; intros idx s b pl Hfuel.
  - cbn [scan]. rewrite drop_ge, take_ge by lia. cbn. by rewrite app_nil_r.
  - cbn [scan]. destruct (b !! idx) as [it|] eqn:Hit.
    + assert (Hlt : (idx < length b)%nat) by (apply lookup_lt_is_Some; eauto).
      assert (Hdel : ∀ s0 pl0,
                scan fuel ns idx s0 (delete idx b) pl0
                = let '(s', kept, pl') := scanSpec ns s0 (drop (S idx) b) pl0 in
                  (s', take idx b ++ kept, pl')).
      { intros s0 pl0. rewrite IH.
        - rewrite delete_take_drop, drop_app_length', take_app_length'; [done|..];
            rewrite length_take; lia.
        - rewrite length_delete by eauto. lia. }
      assert (Hadv : scan fuel ns (S idx) s b pl
                     = let '(s', kept, pl') := scanSpec ns s (drop (S idx) b) pl in
                       (s', take idx b ++ it :: kept, pl')).
      { rewrite IH by lia. rewrite (take_S_r _ _ _ Hit).
        destruct (scanSpec ns s (drop (S idx) b) pl) as [[s' kept] pl'].
        by rewrite <- app_assoc. }
      rewrite (drop_S _ _ _ Hit). cbn [scanSpec].
      destruct (negb (bool_decide (itemN it = slotN s))).
      * destruct (negb (useful ns (itemN it))); [apply Hdel|].
        rewrite Hadv. by destruct (scanSpec ns s (drop (S idx) b) pl) as [[s' kept] pl'].
      * destruct ((ptsMin s <=? framePts (itemF it)) && (framePts (itemF it) <? ptsMax s)).
        -- destruct (slotI s); apply Hdel.
        -- destruct (framePts (itemF it) <? ptsMin s); [apply Hdel|].
           rewrite Hadv.
           by destruct (scanSpec ns s (drop (S idx) b) pl) as [[s' kept] pl'].
    + apply lookup_ge_None in Hit. rewrite drop_ge, take_ge by lia. cbn.
      by rewrite app_nil_r.
Qed.

(** One step of the scan, by what becomes of the item. *)
Lemma scanSpec_cons ns s it b pl :
  scanSpec ns s (it :: b) pl
  = if leaves ns s it then
      if inRange s it && bool_decide (slotI s = None)
      then scanSpec ns (withItem s it) b pl
      else scanSpec ns s b (framePut pl (itemF it))
    else
      let '(s', kept, pl') := scanSpec ns s b pl in (s', it :: kept, pl').
Proof.
  cbn [scanSpec]. unfold leaves, useless, inRange, stale.
  destruct (bool_decide (itemN it = slotN s)); cbn [negb andb orb].
  - destruct (ptsMin s <=? framePts (itemF it)); cbn [andb orb].
    + destruct (framePts (itemF it) <? ptsMax s); cbn [andb orb].
      * by destruct (slotI s).
      * by destruct (framePts (itemF it) <? ptsMin s).
    + by destruct (framePts (itemF it) <? ptsMin s).
  - rewrite !orb_false_r. by destruct (useful ns (itemN it)).
Qed.

Lemma inRange_leaves ns s it : inRange s it = true → leaves ns s it = true.
Proof. unfold leaves. intros ->. by rewrite orb_true_r. Qed.

(** The scan for a slot that already has an item. *)
Lemma scanSpec_full ns s : ∀ b pl,
  is_Some (slotI s) →
  scanSpec ns s b pl
  = (s, filter (λ it, leaves ns s it = false) b,
     mkFramePool (frameGets pl)
       (framePuts pl ++ (itemF <$> filter (λ it, leaves ns s it = true) b))).
Proof.
  intros b. induction b as [|it b IH]; intros pl [x Hx].
  - cbn. rewrite app_nil_r. by destruct pl.
  - rewrite scanSpec_cons, !filter_cons.
    destruct (leaves ns s it) eqn:Hl.
    + rewrite Hx, bool_decide_eq_false_2, andb_false_r by done.
      rewrite IH by eauto. rewrite decide_False, decide_True by done.
      cbn. by rewrite <- app_assoc.
    + rewrite IH by eauto. by rewrite decide_True, decide_False by done.
Qed.

(** The scan for an empty slot: the first frame in range wins. *)
Lemma scanSpec_empty ns s : ∀ b pl,
  slotI s = None →
  scanSpec ns s b pl
  = (match head (filter (λ it, inRange s it = true) b) with
     | Some w => withItem s w
     | None => s
     end,
     filter (λ it, leaves ns s it = false) b,
     mkFramePool (frameGets pl)
       (framePuts pl
        ++ (itemF <$> filter (λ it, leaves ns s it = true) (removeFirst (inRange s) b)))).
Proof.
  intros b. induction b as [|it b IH]; intros pl Hs.
  - cbn. rewrite app_nil_r. by destruct pl.
  - rewrite scanSpec_cons. cbn [removeFirst]. rewrite !filter_cons.
    destruct (inRange s it) eqn:Hin.
    + rewrite (inRange_leaves ns s it Hin), Hs, bool_decide_eq_true_2 by done.
      cbn [andb]. rewrite (decide_True (P := true = true)) by done.
      rewrite decide_False by done. cbn [head].
      rewrite scanSpec_full by (cbn; eauto).
      reflexivity.
    + rewrite (decide_False (P := false = true)) by done. cbn [andb].
      destruct (leaves ns s it) eqn:Hl.
      * rewrite IH by done. rewrite decide_False by done.
        rewrite filter_cons, Hl, decide_True by done.
        cbn. by rewrite <- app_assoc.
      * rewrite IH by done. rewrite decide_True by done.
        by rewrite filter_cons, Hl, decide_False by done.
Qed.



Lemma usefulNodes_bounds sl : ∀ sl',
  bounds sl = bounds sl' → usefulNodes sl = usefulNodes sl'.
Proof.
  induction sl as [|os sl IH]; intros [|os' sl'] Hb; try done.
  cbn in Hb. injection Hb as Ho Hb. unfold usefulNodes in *. cbn [foldr].
  rewrite (IH sl' Hb).
  destruct os as [s|], os' as [s'|]; try done.
  cbn in Ho. injection Ho as -> _ _. done.
Qed.



Lemma distributeSlot_scan ns k r s :
  slots r !! k = Some (Some s) → slotI s = None →
  distributeSlot ns k r
  = withPool
      (withBuf
         (withSlots r
            (<[k := Some (match head (filter (λ it, inRange s it = true) (buf r)) with
                          | Some w => withItem s w
                          | None => s
                          end)]> (slots r)))
         (filter (λ it, leaves ns s it = false) (buf r)))
      (mkFramePool (frameGets (p r))
         (framePuts (p r)
          ++ (itemF <$> filter (λ it, leaves ns s it = true)
                          (removeFirst (inRange s) (buf r))))).
Proof.
  intros Hk Hs. unfold distributeSlot. rewrite Hk, Hs.
  rewrite scan_scanSpec by lia. rewrite drop_0, take_0.
  rewrite scanSpec_empty by done. done.
Qed.


(** The nodes the slots refer to do not change during [distribute]: every
    turn is made with the nodes of the window it finds. *)
Lemma distributeSlot_usefulNodes ns k r :
  usefulNodes (slots (distributeSlot ns k r)) = usefulNodes (slots r).
Proof. apply usefulNodes_bounds, distributeSlot_bounds. Qed.








(** Two slots of node 1, over [40, 80) and [80, 120), and a buffer of five
    frames: one of node 2, which no slot refers to, and four of node 1 with
    PTS 10, 45, 60, 90. *)
Definition scanExample : RateEnforcer :=
  withBuf
    (withSlots (NewRateEnforcer (mkOptions false 1 None (mkRational 1 1000) 40 None))
       [Some (mkSlot None (Some 1%nat) 80 40); Some (mkSlot None (Some 1%nat) 120 80)])
    [ mkItem (mkFrame 50 1) (Some 2%nat); mkItem (mkFrame 10 2) (Some 1%nat);
      mkItem (mkFrame 45 3) (Some 1%nat); mkItem (mkFrame 60 4) (Some 1%nat);
      mkItem (mkFrame 90 5) (Some 1%nat) ].


End RateEnforcer.

(** ** Failed copies during intake *)

Module Intake.

Import Av Core.

(** The window but for its last slot. *)
Definition front (sl : list (option RateEnforcer.rateEnforcerSlot))
    : list (option RateEnforcer.rateEnforcerSlot) :=
  take (pred (length sl)) sl.

Lemma handleFrameTask_ref_failure rescaleQ err fm pn r r' :
  RateEnforcer.handleFrameTask rescaleQ (Some err) fm pn r = Some r' →
  RateEnforcer.buf r' = RateEnforcer.buf r
  ∧ RateEnforcer.c r' = RateEnforcer.c r
  ∧ RateEnforcer.dispatched r' = RateEnforcer.dispatched r
  ∧ RateEnforcer.f r' = RateEnforcer.f r
  ∧ RateEnforcer.n r' = RateEnforcer.n r
  ∧ last (RateEnforcer.emitted r') = Some (EventError err "refing frame")
  ∧ length (RateEnforcer.slots r') = length (RateEnforcer.slots r)
  ∧ front (RateEnforcer.slots r') = front (RateEnforcer.slots r).
Proof.
  unfold RateEnforcer.handleFrameTask.
  cbn [RateEnforcer.slots RateEnforcer.withStatProcessedRate].
  destruct (last (RateEnforcer.slots r)) as [l|]; [|done].
  intros [= <-].
  assert (Hfront : ∀ x, front (<[pred (length (RateEnforcer.slots r)) := x]>
                                 (RateEnforcer.slots r))
                        = front (RateEnforcer.slots r)).
  { intros x. unfold front. rewrite length_insert. by rewrite take_insert_ge. }
  repeat case_match; cbn; rewrite ?last_snoc, ?length_insert, ?Hfront;
    split_and!; done.
Qed.

(** C8 (as amended). When a copy fails during intake, an error event is
    emitted, the item is skipped and processing goes on.
    - First copy of [HandleFrame]: nothing is added to the chan, and only the
      incoming-rate stat, the events and the pool differ.
    - Second copy, in the function run by the chan: the call returns when the
      window has a slot; the item is not appended to the buffer and nothing
      is dispatched; the chan, the filler and the desired node are as they
      were, and so are all slots but the last, which may have been replaced
      before the copy was attempted.
    - Packet copy of the rate emulator: the emulator is as it was, nothing
      is queued and the caller is not put to sleep; [readFrame] does not ask
      to stop and dispatches nothing. *)
Theorem ref_failure_skips rescaleQ durationToTimeBase err :
  (∀ pl r,
     let r' := RateEnforcer.HandleFrame rescaleQ (Some err) pl r in
     RateEnforcer.emitted r' = RateEnforcer.emitted r ++ [EventError err "refing frame"]
     ∧ RateEnforcer.c r' = RateEnforcer.c r
     ∧ RateEnforcer.buf r' = RateEnforcer.buf r
     ∧ RateEnforcer.slots r' = RateEnforcer.slots r
     ∧ RateEnforcer.dispatched r' = RateEnforcer.dispatched r
     ∧ RateEnforcer.f r' = RateEnforcer.f r
     ∧ RateEnforcer.n r' = RateEnforcer.n r
     ∧ RateEnforcer.previousNode r' = RateEnforcer.previousNode r
     ∧ RateEnforcer.statFilledRate r' = RateEnforcer.statFilledRate r
     ∧ RateEnforcer.statProcessedRate r' = RateEnforcer.statProcessedRate r
     ∧ RateEnforcer.statIncomingRate r' = RateEnforcer.statIncomingRate r + 1)
  ∧ (∀ fm pn r,
       RateEnforcer.slots r ≠ [] →
       ∃ r', RateEnforcer.handleFrameTask rescaleQ (Some err) fm pn r = Some r'
         ∧ RateEnforcer.buf r' = RateEnforcer.buf r
         ∧ RateEnforcer.c r' = RateEnforcer.c r
         ∧ RateEnforcer.dispatched r' = RateEnforcer.dispatched r
         ∧ RateEnforcer.f r' = RateEnforcer.f r
         ∧ RateEnforcer.n r' = RateEnforcer.n r
         ∧ last (RateEnforcer.emitted r') = Some (EventError err "refing frame")
         ∧ length (RateEnforcer.slots r') = length (RateEnforcer.slots r)
         ∧ front (RateEnforcer.slots r') = front (RateEnforcer.slots r))
  ∧ (∀ now1 now2 pl e pkt pd,
       let o := RateEmulator.handlePkt rescaleQ (Some err) now1 now2 pl e pkt pd in
       RateEmulator.emulator o = e
       ∧ RateEmulator.events o = [EventError err "refing packet"]
       ∧ RateEmulator.slept o = None)
  ∧ (∀ seek now1 now2 pkt dm,
       Demuxer.emulateRate dm = true →
       let a := Demuxer.mkAnswers (inr pkt) seek (Some err) now1 now2 in
       let res := Demuxer.readFrame rescaleQ durationToTimeBase a dm in
       res.1.1 = false
       ∧ (∀ pk ds, Demuxer.EDispatch pk ds ∉ res.2)
       ∧ ∀ st, Demuxer.ss dm !! streamIndex pkt = Some st →
           res.2 = [Demuxer.EEmit (EventError err "refing packet")]
           ∧ ∃ st', Demuxer.ss res.1.2 !! streamIndex pkt = Some st'
               ∧ Demuxer.e st' = Demuxer.e st).
Proof.
  split_and!.
  - intros pl r. cbn zeta. unfold RateEnforcer.HandleFrame. cbn. split_and!; done.
  - intros fm pn r Hne.
    destruct (RateEnforcer.handleFrameTask rescaleQ (Some err) fm pn r) as [r'|] eqn:Ht.
    + exists r'. split; [done|]. by apply (handleFrameTask_ref_failure _ _ _ _ _ _ Ht).
    + exfalso. unfold RateEnforcer.handleFrameTask in Ht.
      cbn [RateEnforcer.slots RateEnforcer.withStatProcessedRate] in Ht.
      destruct (RateEnforcer.last_is_Some _ Hne) as [l Hl]. by rewrite Hl in Ht.
  - intros now1 now2 pl e pkt pd. cbn zeta. done.
  - intros seek now1 now2 pkt dm Hemu. cbn zeta.
    unfold Demuxer.readFrame. cbn [Demuxer.readResult].
    unfold Demuxer.readFramePacket.
    cbn [Demuxer.ss Demuxer.withPool Demuxer.emulateRate Demuxer.l Demuxer.p
         Demuxer.refResult Demuxer.nowAt Demuxer.nowUntil].
    rewrite Hemu.
    destruct (Demuxer.ss dm !! streamIndex pkt) as [st|] eqn:Hst.
    + destruct (Demuxer.durationerHandlePkt (Demuxer.pd st) pkt) as [pd1 prev].
      destruct (Looper.handlePkt (Demuxer.l dm) pkt prev) as [[l1 pkt1] prev1].
      cbn. split_and!; [done| |].
      * intros pk ds. rewrite elem_of_cons, elem_of_nil. intros [?|[]]. done.
      * intros st0 [= <-]. split; [done|].
        eexists. rewrite lookup_insert_eq. done.
    + cbn. split_and!; try done.
      intros pk ds Hin. by apply elem_of_nil in Hin.
Qed.

(** A fresh rate enforcer; the desired node is node 1. *)
Definition freshEnforcer : RateEnforcer.RateEnforcer :=
  RateEnforcer.Switch (Some 1%nat)
    (RateEnforcer.NewRateEnforcer
       (RateEnforcer.mkOptions false 1 None (mkRational 1 1000) 40 None)).

Lemma ref_failure_skips_witness :
  (∃ r', RateEnforcer.handleFrameTask RescaleQ (Some (ErrOther 12))
           (RateEnforcer.mkFrame 0 7) (Some 1%nat) freshEnforcer = Some r'
     ∧ RateEnforcer.buf r' = []
     ∧ RateEnforcer.dispatched r' = [])
  ∧ (Demuxer.readFrame RescaleQ Looper.durationToTimeBase
       (Demuxer.mkAnswers (inr (mkPacket 0 0 0 10 0)) None (Some (ErrOther 12)) 0 0)
       Demuxer.handledDemuxer).1.1 = false.
Proof.
  destruct (ref_failure_skips RescaleQ Looper.durationToTimeBase (ErrOther 12))
    as (_ & Htask & _ & Hread).
  split.
  - destruct (Htask (RateEnforcer.mkFrame 0 7) (Some 1%nat) freshEnforcer)
      as (r' & Hr' & Hbuf & _ & Hdisp & _); [discriminate|].
    exists r'. split_and!; [exact Hr'|exact Hbuf|exact Hdisp].
  - apply (Hread None 0 0 (mkPacket 0 0 0 10 0) Demuxer.handledDemuxer).
    reflexivity.
Defined.

(** C8, as stated, fails for the second copy of the rate enforcer: the last
    slot is replaced and the switch-in event emitted before the copy is
    attempted, and they stay when the copy fails. *)
Lemma ref_failure_keeps_new_slot :
  RateEnforcer.slots freshEnforcer = [None]
  ∧ ∃ r', RateEnforcer.handleFrameTask RescaleQ (Some (ErrOther 12))
            (RateEnforcer.mkFrame 0 7) (Some 1%nat) freshEnforcer = Some r'
      ∧ RateEnforcer.slots r' = [Some (RateEnforcer.mkSlot None (Some 1%nat) 40 0)]
      ∧ RateEnforcer.emitted r'
        = [ EventRateEnforcerSwitchedIn (Some 1%nat);
            EventError (ErrOther 12) "refing frame" ]
      ∧ RateEnforcer.buf r' = [].
Proof.
  split; [reflexivity|]. eexists. split; [vm_compute; reflexivity|].
  split_and!; reflexivity.
Qed.

End Intake.

(** ** Event logger: merging of repeated messages *)

Module EventLogger.

Local Open Scope nat_scope.

Inductive level := LevelDebug | LevelInfo | LevelWarn | LevelError.

(** A call of an emitter. For the formatted emitters ([Errorf], [Infof],
    ...) the arguments are expanded into the message when the call is made;
    the keyed emitters ([Debugk], [Errork], ...) take the format and the
    concrete string. *)
Inductive call :=
  | Formatted (lv : level) (msg : string)
  | Keyed (lv : level) (fmt key : string).

Definition levelOf (c : call) : level :=
  match c with Formatted lv _ | Keyed lv _ _ => lv end.

(** The pattern of a call: the expanded message, or the format of the keyed
    form. *)
Definition pattern (c : call) : string :=
  match c with Formatted _ msg => msg | Keyed _ fmt _ => fmt end.

(** What the first occurrence forwards to the sink. *)
Definition concrete (c : call) : string :=
  match c with Formatted _ msg => msg | Keyed _ _ key => key end.

Definition levelName (lv : level) : string :=
  match lv with
  | LevelDebug => "debug"
  | LevelInfo => "info"
  | LevelWarn => "warn"
  | LevelError => "error"
  end.

(** The identity of a call's pattern as §4.1 words it: the pattern alone. *)
Definition patternKey (c : call) : string := pattern c.

(** The identity of a call's pattern as [TestEventLogger] needs it: the
    level together with the pattern. *)
Definition levelKey (c : call) : string := levelName (levelOf c) +:+ ":" +:+ pattern c.

(** Modelled from the spec: [MergedLogEntry] of §3, the pattern and how
    often it occurred. *)
Record item := mkItem { itemCount : nat; itemPattern : string }.

(** Modelled from the spec: the logger of §4.1, its entries in the order of
    their first occurrence and the lines written to the sink. *)
Record EventLogger := mkEventLogger {
  items : list (string * item);
  sink : list string
}.

Definition newEventLogger : EventLogger := mkEventLogger [] [].

(** Modelled from the spec: the summary line of §4.1 for an entry with [n]
    occurrences, if it has one; the prefix is the one [TestEventLogger]
    expects. *)
Definition summaryLine (n : nat) (pat : string) : option string :=
  match n with
  | 0 | 1 => None
  | 2 => Some ("astiencoder: pattern repeated once: " +:+ pat)
  | S m => Some ("astiencoder: pattern repeated " +:+ pretty m +:+ " times: " +:+ pat)
  end.

Section merging.

(** The identity of a pattern. *)
Variable keyOf : call → string.

(** Modelled from the spec: the event logger itself is not part of the files
    at hand, its test is. §4.1: on the first occurrence of a pattern within
    the window the concrete message is forwarded to the sink; on any later
    occurrence only the count is incremented. *)
Definition process (l : EventLogger) (c : call) : EventLogger :=
  let k := keyOf c in
  if bool_decide (k ∈ (items l).*1) then
    mkEventLogger
      ((λ e, if bool_decide (e.1 = k)
             then (e.1, mkItem (S (itemCount e.2)) (itemPattern e.2))
             else e) <$> items l)
      (sink l)
  else
    mkEventLogger (items l ++ [(k, mkItem 1 (pattern c))]) (sink l ++ [concrete c]).

(** Modelled from the spec: when the window expires, on a tick or on
    [Close], every entry that occurred at least twice yields one summary
    line, and the entries are forgotten. *)
Definition purge (l : EventLogger) : EventLogger :=
  mkEventLogger []
    (sink l ++ omap (λ e, summaryLine (itemCount e.2) (itemPattern e.2)) (items l)).

(** Modelled from the spec: the lines written for calls made within one
    window, which then expires. *)
Definition window (calls : list call) : list string :=
  sink (purge (foldl process newEventLogger calls)).

(** How often a pattern occurs among the calls. *)
Definition occurrences (k : string) (calls : list call) : nat :=
  length (filter (λ c, keyOf c = k) calls).

(** The patterns of the calls, and those that occur at least twice. *)
Definition distinct (calls : list call) : gset string :=
  list_to_set (keyOf <$> calls).

Definition repeated (calls : list call) : gset string :=
  list_to_set (filter (λ k, 2 ≤ occurrences k calls)%nat (keyOf <$> calls)).

(** The calls that are the first of their pattern, in order. *)
Definition firsts (calls : list call) : list call :=
  foldl (λ acc c, if bool_decide (keyOf c ∈ keyOf <$> acc) then acc else acc ++ [c])
    [] calls.

End merging.

(** *** The test *)

(** The calls of [TestEventLogger] before it sleeps. *)
Definition testCalls : list call :=
  [ Formatted LevelError "errorf-1"; Formatted LevelError "errorf-1";
    Formatted LevelError "errorf-2";
    Formatted LevelError "errorf-3"; Formatted LevelError "errorf-3";
    Formatted LevelError "errorf-3";
    Formatted LevelInfo "infof-1"; Formatted LevelInfo "infof-1";
    Formatted LevelInfo "infof-2";
    Formatted LevelInfo "infof-3"; Formatted LevelInfo "infof-3";
    Formatted LevelInfo "infof-3";
    Keyed LevelDebug "debugk-%d" "debugk-1"; Keyed LevelDebug "debugk-%d" "debugk-2";
    Keyed LevelDebug "debugk-%d" "debugk-3";
    Keyed LevelError "errork-%d" "errork-1"; Keyed LevelError "errork-%d" "errork-2";
    Keyed LevelError "errork-%d" "errork-3";
    Keyed LevelInfo "infok-%d" "infok-1"; Keyed LevelInfo "infok-%d" "infok-2";
    Keyed LevelInfo "infok-%d" "infok-3";
    Keyed LevelWarn "warnk-%d" "warnk-1"; Keyed LevelWarn "warnk-%d" "warnk-2";
    Keyed LevelWarn "warnk-%d" "warnk-3";
    Formatted LevelError "msg"; Formatted LevelError "msg";
    Formatted LevelInfo "msg"; Formatted LevelInfo "msg" ].

(** What the test requires the sink to have received: each line with the
    number of times it was written. *)
Definition testExpected : list (string * nat) :=
  [ ("astiencoder: pattern repeated once: errorf-1", 1%nat);
    ("astiencoder: pattern repeated once: infof-1", 1%nat);
    ("astiencoder: pattern repeated 2 times: debugk-%d", 1%nat);
    ("astiencoder: pattern repeated 2 times: errork-%d", 1%nat);
    ("astiencoder: pattern repeated 2 times: errorf-3", 1%nat);
    ("astiencoder: pattern repeated 2 times: infok-%d", 1%nat);
    ("astiencoder: pattern repeated 2 times: infof-3", 1%nat);
    ("astiencoder: pattern repeated once: msg", 2%nat);
    ("astiencoder: pattern repeated 2 times: warnk-%d", 1%nat);
    ("debugk-1", 1%nat); ("errork-1", 1%nat); ("errorf-1", 1%nat);
    ("errorf-2", 1%nat); ("errorf-3", 1%nat); ("infok-1", 1%nat);
    ("infof-1", 1%nat); ("infof-2", 1%nat); ("infof-3", 1%nat);
    ("msg", 2%nat); ("warnk-1", 1%nat) ].

(** The calls made after the sleep, before [Close], and what the sink must
    have received then. *)
Definition purgeCalls : list call :=
  [ Formatted LevelInfo "purge-1"; Formatted LevelInfo "purge-1";
    Formatted LevelInfo "purge-1" ].

Definition purgeExpected : list (string * nat) :=
  [ ("astiencoder: pattern repeated 2 times: purge-1", 1%nat); ("purge-1", 1%nat) ].

(** The mocked sink counts the lines it receives. *)
Definition received (line : string) (lines : list string) : nat :=
  length (filter (λ l, l = line) lines).

(** The lines are those expected, each as often as expected, and no other. *)
Definition agrees (lines : list string) (expected : list (string * nat)) : bool :=
  forallb (λ e, Nat.eqb (received e.1 lines) e.2) expected
  && Nat.eqb (length lines) (foldr (λ e acc, e.2 + acc)%nat 0%nat expected).

(** *** Lines written within one window *)

Section merging_facts.

Variable keyOf : call → string.

Lemma firsts_snoc cs c :
  firsts keyOf (cs ++ [c])
  = if bool_decide (keyOf c ∈ keyOf <$> firsts keyOf cs)
    then firsts keyOf cs else firsts keyOf cs ++ [c].
Proof. unfold firsts. by rewrite foldl_app. Qed.

Lemma firsts_keys cs k : k ∈ keyOf <$> firsts keyOf cs ↔ k ∈ keyOf <$> cs.
Proof.
  induction cs as [|c cs IH] using rev_ind; [done|].
  rewrite firsts_snoc, fmap_app, elem_of_app. cbn.
  case_bool_decide as Hc.
  - rewrite IH. split; [by left|]. intros [?|Hk]; [done|].
    apply list_elem_of_singleton in Hk as ->. by apply IH.
  - rewrite fmap_app, elem_of_app, IH. done.
Qed.

Lemma firsts_NoDup cs : NoDup (keyOf <$> firsts keyOf cs).
Proof.
  induction cs as [|c cs IH] using rev_ind; [constructor|].
  rewrite firsts_snoc. case_bool_decide as Hc; [done|].
  rewrite fmap_app. apply NoDup_app. split_and!; [done| |].
  - intros k Hk Hk'. apply list_elem_of_singleton in Hk' as ->. done.
  - cbn. apply NoDup_singleton.
Qed.

Lemma occurrences_snoc k cs c :
  occurrences keyOf k (cs ++ [c])
  = occurrences keyOf k cs + (if bool_decide (keyOf c = k) then 1 else 0).
Proof.
  unfold occurrences. rewrite filter_app, length_app. f_equal.
  rewrite filter_cons, filter_nil. case_bool_decide.
  - by rewrite decide_True.
  - by rewrite decide_False.
Qed.

Lemma occurrences_absent k cs : k ∉ keyOf <$> cs → occurrences keyOf k cs = 0.
Proof.
  intros Hk. unfold occurrences.
  destruct (filter (λ c, keyOf c = k) cs) as [|c l] eqn:Hf; [done|].
  exfalso. assert (Hc : c ∈ filter (λ c, keyOf c = k) cs) by (rewrite Hf; left).
  apply list_elem_of_filter in Hc as [<- Hc]. by apply Hk, list_elem_of_fmap_2.
Qed.

(** The logger after the calls [cs]: one entry per first call, with the
    occurrences of its pattern, and the concrete messages of the first calls
    in the sink. *)
Lemma process_all cs :
  foldl (process keyOf) newEventLogger cs
  = mkEventLogger
      ((λ c, (keyOf c, mkItem (occurrences keyOf (keyOf c) cs) (pattern c)))
         <$> firsts keyOf cs)
      (concrete <$> firsts keyOf cs).
Proof.
  induction cs as [|c cs IH] using rev_ind; [done|].
  rewrite foldl_app, IH. cbn [foldl]. unfold process. cbn [items sink].
  rewrite <- list_fmap_compose, firsts_snoc.
  change ((fst ∘ _) <$> firsts keyOf cs) with (keyOf <$> firsts keyOf cs).
  case_bool_decide as Hc.
  - f_equal. rewrite <- list_fmap_compose. apply list_fmap_ext.
    intros i c' Hc'. cbn. rewrite occurrences_snoc.
    case_bool_decide as Hk.
    + rewrite bool_decide_eq_true_2 by done. f_equal. f_equal. lia.
    + rewrite bool_decide_eq_false_2 by done. f_equal. f_equal. lia.
  - rewrite !fmap_app. cbn. f_equal. f_equal.
    + apply list_fmap_ext. intros i c' Hc'. cbn. rewrite occurrences_snoc.
      rewrite bool_decide_eq_false_2; [by rewrite Nat.add_0_r|].
      intros Heq. apply Hc. rewrite Heq.
      apply list_elem_of_fmap_2. by eapply list_elem_of_lookup_2.
    + rewrite occurrences_snoc, bool_decide_eq_true_2 by done.
      rewrite occurrences_absent; [done|]. by rewrite <- firsts_keys.
Qed.

Lemma omap_fmap_compose {A B C} (g : A → B) (h : B → option C) (l : list A) :
  omap h (g <$> l) = omap (h ∘ g) l.
Proof. induction l as [|x l IH]; [done|]. cbn. by rewrite IH. Qed.

Lemma window_lines cs :
  window keyOf cs
  = (concrete <$> firsts keyOf cs)
    ++ omap (λ c, summaryLine (occurrences keyOf (keyOf c) cs) (pattern c))
         (firsts keyOf cs).
Proof.
  unfold window, purge. rewrite process_all. cbn [items sink]. f_equal.
  by rewrite omap_fmap_compose.
Qed.

Lemma summaryLine_is_Some n pat : is_Some (summaryLine n pat) ↔ 2 ≤ n.
Proof.
  destruct n as [|[|[|n]]]; cbn; split; try lia; try (by intros [? ?]); eauto.
Qed.

Lemma summaries_length cs (l : list call) :
  length (omap (λ c, summaryLine (occurrences keyOf (keyOf c) cs) (pattern c)) l)
  = length (filter (λ k, 2 ≤ occurrences keyOf k cs) (keyOf <$> l)).
Proof.
  induction l as [|c l IH]; [done|]. rewrite fmap_cons, filter_cons.
  change (omap ?h (c :: l)) with
    (match h c with Some y => y :: omap h l | None => omap h l end).
  cbn beta.
  destruct (summaryLine (occurrences keyOf (keyOf c) cs) (pattern c))
    as [line|] eqn:Hline.
  - rewrite decide_True; [cbn [length]; by rewrite IH|].
    apply (summaryLine_is_Some _ (pattern c)). by rewrite Hline.
  - rewrite decide_False; [done|].
    intros Hn. apply (summaryLine_is_Some _ (pattern c)) in Hn.
    rewrite Hline in Hn. by destruct Hn.
Qed.

Lemma distinct_size cs : size (distinct keyOf cs) = length (firsts keyOf cs).
Proof.
  unfold distinct.
  assert (Heq : list_to_set (keyOf <$> cs)
                =@{gset string} list_to_set (keyOf <$> firsts keyOf cs)).
  { apply set_eq. intros k. by rewrite !elem_of_list_to_set, firsts_keys. }
  rewrite Heq, size_list_to_set by apply firsts_NoDup. apply length_fmap.
Qed.

Lemma repeated_size cs :
  size (repeated keyOf cs)
  = length (filter (λ k, 2 ≤ occurrences keyOf k cs) (keyOf <$> firsts keyOf cs)).
Proof.
  unfold repeated.
  assert (Heq : list_to_set (filter (λ k, 2 ≤ occurrences keyOf k cs) (keyOf <$> cs))
                =@{gset string}
                list_to_set (filter (λ k, 2 ≤ occurrences keyOf k cs)
                               (keyOf <$> firsts keyOf cs))).
  { apply set_eq. intros k.
    by rewrite !elem_of_list_to_set, !list_elem_of_filter, firsts_keys. }
  rewrite Heq. apply size_list_to_set, NoDup_filter, firsts_NoDup.
Qed.

Lemma window_length cs :
  length (window keyOf cs) = size (distinct keyOf cs) + size (repeated keyOf cs).
Proof.
  rewrite window_lines, length_app, length_fmap, summaries_length.
  by rewrite distinct_size, repeated_size.
Qed.

End merging_facts.

(** C7 (as amended). For the calls made within one merging window, the
    identity of a pattern being the level together with the expanded message
    (formatted emitters) or with the format (keyed emitters): the sink
    receives the concrete message of the first call of every pattern, then
    one summary line for every pattern that occurred at least twice, so that
    the number of lines is the number of distinct patterns plus the number of
    patterns that occurred at least twice. The summary of a pattern that
    occurred twice says "repeated once", and the summary of a pattern that
    occurred [n ≥ 3] times says "repeated [n - 1] times". With this identity
    the sink receives what [TestEventLogger] requires, before the sleep and
    at [Close]. *)
Theorem merged_lines calls :
  length (window levelKey calls)
  = size (distinct levelKey calls) + size (repeated levelKey calls)
  ∧ window levelKey calls
    = (concrete <$> firsts levelKey calls)
      ++ omap (λ c, summaryLine (occurrences levelKey (levelKey c) calls) (pattern c))
           (firsts levelKey calls)
  ∧ (∀ pat, summaryLine 2 pat = Some ("astiencoder: pattern repeated once: " +:+ pat))
  ∧ (∀ n pat, 3 ≤ n →
       summaryLine n pat
       = Some ("astiencoder: pattern repeated " +:+ pretty (n - 1) +:+ " times: " +:+ pat))
  ∧ (∀ n pat, n ≤ 1 → summaryLine n pat = None)
  ∧ agrees (window levelKey testCalls) testExpected = true
  ∧ agrees (window levelKey purgeCalls) purgeExpected = true.
Proof.
  split_and!.
  - apply window_length.
  - apply window_lines.
  - done.
  - intros n pat Hn. destruct n as [|[|[|m]]]; try lia.
    cbn [summaryLine]. by replace (S (S (S m)) - 1) with (S (S m)) by lia.
  - intros n pat Hn. by destruct n as [|[|n]]; [..|lia].
  - vm_compute. reflexivity.
  - vm_compute. reflexivity.
Qed.

Lemma merged_lines_witness :
  length (window levelKey purgeCalls) = 2
  ∧ summaryLine 3 "purge-1" = Some "astiencoder: pattern repeated 2 times: purge-1".
Proof.
  destruct (merged_lines purgeCalls) as (Hlen & _ & _ & Htimes & _).
  split.
  - rewrite Hlen. vm_compute. reflexivity.
  - rewrite (Htimes 3 "purge-1") by lia. vm_compute. reflexivity.
Defined.

(** C7, as stated, fails: with the pattern alone as identity, the two
    [Errorf("msg")] and the two [Infof("msg")] of the test are one pattern,
    written once and summarised once, where the test requires "msg" twice
    and its summary twice: the test requires 22 lines, and the distinct
    patterns plus those repeated are 20. *)
Lemma test_needs_level_in_identity :
  agrees (window patternKey testCalls) testExpected = false
  ∧ foldr (λ e acc, e.2 + acc) 0 testExpected = 22
  ∧ size (distinct patternKey testCalls) + size (repeated patternKey testCalls) = 20
  ∧ received "msg" (window patternKey testCalls) = 1.
Proof. split_and!; vm_compute; reflexivity. Qed.

End EventLogger.

(** ** The looper within and across iterations *)

Module LooperFacts.

Import Av Looper.

Section facts.

Variable rescaleQ : Z → Rational → Rational → Z.
Variable durationToTimeBase : Z → Rational → Z * Z.

(** Two loopers shift every stream by the same amount. *)
Definition sameShift (l l' : demuxerLooper) : Prop :=
  ∀ idx, restampDelta <$> l' !! idx = restampDelta <$> l !! idx.

Lemma restamp_ext s s' pkt :
  restampDelta s' = restampDelta s → restamp s' pkt = restamp s pkt.
Proof. unfold restamp. by intros ->. Qed.

Lemma handlePkt_sameShift l pkt pd : sameShift l (handlePkt l pkt pd).1.1.
Proof.
  intros idx. rewrite handlePkt_looper.
  destruct (l !! streamIndex pkt) as [s|] eqn:Hs; [|done].
  destruct (decide (streamIndex pkt = idx)) as [<-|Hne].
  - rewrite lookup_insert_eq, Hs. cbn. by rewrite updateDurations_restampDelta.
  - by rewrite lookup_insert_ne.
Qed.

Lemma run_shift ins : ∀ l0 l,
  sameShift l0 l → boundaries ins = 0%nat →
  Forall (λ io, io.2 = match l0 !! streamIndex io.1 with
                       | Some s => restamp s io.1
                       | None => io.1
                       end)
    (run rescaleQ durationToTimeBase l ins).
Proof.
  induction ins as [|[pkt pd|flush] ins IH]; intros l0 l Hsame Hb; cbn [run].
  - constructor.
  - pose proof (handlePkt_emitted l pkt pd) as Hem.
    pose proof (handlePkt_sameShift l pkt pd) as Hnext.
    destruct (handlePkt l pkt pd) as [[l1 pkt1] pd1]. cbn [fst snd] in *.
    constructor.
    + cbn [fst snd]. rewrite Hem. specialize (Hsame (streamIndex pkt)).
      destruct (l !! streamIndex pkt) as [s|], (l0 !! streamIndex pkt) as [s0|];
        try done.
      cbn in Hsame. injection Hsame as Hsame.
      rewrite (restamp_ext s (updateDurations s pd).1)
        by apply updateDurations_restampDelta.
      by apply restamp_ext.
    + apply (IH l0); [|done]. intros idx. by rewrite Hnext.
  - done.
Qed.

(** X1. Between two loop boundaries the shift of a stream does not move:
    every packet of a stream the looper knows leaves [handlePkt] restamped
    with the [restampDelta] the stream had when the iteration began, and the
    packets of other streams leave as they were read. In particular nothing
    is rewritten while that [restampDelta] is not positive, as in the first
    iteration. *)
Theorem iteration_shift l ins :
  boundaries ins = 0%nat →
  Forall (λ io,
            io.2 = match l !! streamIndex io.1 with
                   | Some s => restamp s io.1
                   | None => io.1
                   end
            ∧ (∀ s, l !! streamIndex io.1 = Some s → restampDelta s ≤ 0 →
                 io.2 = io.1))
    (run rescaleQ durationToTimeBase l ins).
Proof.
  intros Hb. eapply Forall_impl; [by apply (run_shift ins l l)|].
  intros io Hio. split; [done|]. intros s Hs Hd. rewrite Hio, Hs.
  unfold restamp. by rewrite (proj2 (Z.ltb_ge 0 (restampDelta s)) Hd).
Qed.

(** X2. The duration flushed at a loop boundary is lent once: the first
    packet of the stream that comes without a positive previous duration is
    given the stream's [lastDuration] as its previous duration, which is
    then zero, so the next such packet keeps its own; the accumulated
    duration is not touched by either. *)
Theorem lastDuration_lent_once l s pkt pd pkt' pd' :
  l !! streamIndex pkt = Some s → streamIndex pkt' = streamIndex pkt →
  0 < lastDuration s → pd ≤ 0 → pd' ≤ 0 →
  let r1 := handlePkt l pkt pd in
  let r2 := handlePkt r1.1.1 pkt' pd' in
  r1.2 = lastDuration s
  ∧ r2.2 = pd'
  ∧ ∃ s2, r2.1.1 !! streamIndex pkt = Some s2
      ∧ lastDuration s2 = 0 ∧ duration s2 = duration s
      ∧ restampDelta s2 = restampDelta s.
Proof.
  intros Hs Hidx Hlast Hpd Hpd'. cbn zeta.
  set (s1 := mkLooperStream (duration s) (durationD s) 0 (restampDelta s)
               (restampRemainder s) (timeBase s)).
  assert (H1 : handlePkt l pkt pd
               = (<[streamIndex pkt := s1]> l, restamp s1 pkt, lastDuration s)).
  { unfold handlePkt. rewrite Hs. unfold updateDurations.
    by rewrite (proj2 (Z.ltb_ge 0 pd) Hpd),
         (proj2 (Z.ltb_lt 0 (lastDuration s)) Hlast). }
  rewrite H1. cbn [fst snd].
  assert (H2 : handlePkt (<[streamIndex pkt := s1]> l) pkt' pd'
               = (<[streamIndex pkt := s1]> (<[streamIndex pkt := s1]> l),
                  restamp s1 pkt', pd')).
  { unfold handlePkt. rewrite Hidx, lookup_insert_eq. unfold updateDurations.
    by rewrite (proj2 (Z.ltb_ge 0 pd') Hpd'). }
  rewrite H2. cbn [fst snd]. split_and!; [done..|].
  exists s1. by rewrite lookup_insert_eq.
Qed.

(** X3. At a loop boundary a stream that is at least as long as every other
    one, whose duration is not negative and which carries no remainder, is
    not padded: its shift grows by exactly the duration accumulated over the
    iteration (the flushed last duration included), its last duration is the
    flushed one, and its accumulated duration starts again from zero. *)
Theorem longest_stream_not_padded flush l idx s :
  let durD := λ i (x : demuxerLooperStream),
    rescaleQ (Int64.add (duration x) (flush i)) (timeBase x) nanosecondRational in
  l !! idx = Some s → restampRemainder s = 0 → 0 ≤ durD idx s →
  (∀ i x, l !! i = Some x → durD i x ≤ durD idx s) →
  ∃ s', looping rescaleQ durationToTimeBase flush l !! idx = Some s'
    ∧ restampDelta s'
      = Int64.add (restampDelta s) (Int64.add (duration s) (flush idx))
    ∧ lastDuration s' = flush idx
    ∧ restampRemainder s' = 0
    ∧ duration s' = 0
    ∧ timeBase s' = timeBase s.
Proof.
  cbn zeta. intros Hs Hrem Hpos Hmax. cbn beta in Hpos, Hmax.
  rewrite looping_lookup, Hs. cbn [fmap option_fmap option_map].
  eexists. split; [done|].
  set (l1 := map_imap (λ idx s, Some (flushStream rescaleQ (flush idx) s)) l).
  assert (Hm : maxDurationOf l1
               = rescaleQ (Int64.add (duration s) (flush idx)) (timeBase s)
                   nanosecondRational).
  { destruct (maxDurationOf_spec l1) as (H0 & Hle & Hex).
    assert (Hl1 : l1 !! idx = Some (flushStream rescaleQ (flush idx) s)).
    { unfold l1. by rewrite map_lookup_imap, Hs. }
    specialize (Hle _ _ Hl1). cbn [durationD flushStream duration timeBase] in Hle.
    destruct Hex as [Hz|(i & x & Hx & Heq)]; [lia|].
    unfold l1 in Hx. rewrite map_lookup_imap in Hx.
    destruct (l !! i) as [y|] eqn:Hy; [|done]. cbn in Hx. injection Hx as <-.
    cbn [durationD flushStream duration timeBase] in Heq.
    specialize (Hmax _ _ Hy). lia. }
  set (s1 := flushStream rescaleQ (flush idx) s).
  assert (Ha : alignment durationToTimeBase (maxDurationOf l1) s1
               = (None, lastDuration s1, restampRemainder s1)).
  { unfold alignment. rewrite Hm. cbn [durationD flushStream restampRemainder s1].
    rewrite Hrem.
    match goal with |- context [Int64.add (Int64.sub ?v ?v) 0] =>
      replace (Int64.add (Int64.sub v v) 0) with 0
        by (unfold Int64.sub; rewrite Z.sub_diag; reflexivity) end.
    done. }
  unfold restampStream. rewrite Ha. cbn. by rewrite Hrem.
Qed.

End facts.

Lemma iteration_shift_witness :
  Forall (λ io,
            io.2 = match twoStreamLooper !! streamIndex io.1 with
                   | Some s => restamp s io.1
                   | None => io.1
                   end
            ∧ (∀ s, twoStreamLooper !! streamIndex io.1 = Some s →
                 restampDelta s ≤ 0 → io.2 = io.1))
    (run RescaleQ durationToTimeBase twoStreamLooper
       [InPkt (pktOf 0 0) 0; InPkt (pktOf 1 0) 0; InPkt (pktOf 0 1) 1;
        InPkt (pktOf 7 5) 1]).
Proof.
  apply (iteration_shift RescaleQ durationToTimeBase twoStreamLooper).
  reflexivity.
Defined.

Lemma lastDuration_lent_once_witness :
  (handlePkt resetExample (pktOf 0 0) 0).2 = 1
  ∧ (handlePkt (handlePkt resetExample (pktOf 0 0) 0).1.1 (pktOf 0 1) 0).2 = 0
  ∧ ∃ s2, (handlePkt (handlePkt resetExample (pktOf 0 0) 0).1.1 (pktOf 0 1) 0).1.1
            !! 0 = Some s2
      ∧ lastDuration s2 = 0 ∧ duration s2 = 3 ∧ restampDelta s2 = 4.
Proof.
  apply (lastDuration_lent_once resetExample
           (mkLooperStream 3 1000000000 1 4 250 (mkRational 1 4))
           (pktOf 0 0) 0 (pktOf 0 1) 0).
  - reflexivity.
  - reflexivity.
  - reflexivity.
  - discriminate.
  - discriminate.
Defined.

(** Stream 1 of [resetExample] has accumulated two seconds and stream 0
    three quarters of a second. *)
Lemma longest_stream_not_padded_witness :
  ∃ s', looping RescaleQ durationToTimeBase (λ _, 0) resetExample !! 1 = Some s'
    ∧ restampDelta s' = 10
    ∧ lastDuration s' = 0
    ∧ restampRemainder s' = 0
    ∧ duration s' = 0
    ∧ timeBase s' = mkRational 1 2.
Proof.
  apply (longest_stream_not_padded RescaleQ durationToTimeBase (λ _, 0)
           resetExample 1 (mkLooperStream 4 3000000000 2 6 0 (mkRational 1 2))).
  - reflexivity.
  - reflexivity.
  - vm_compute. discriminate.
  - intros i x Hx. unfold resetExample in Hx.
    destruct (decide (i = 0)) as [->|H0].
    + rewrite lookup_insert_eq in Hx. injection Hx as <-. vm_compute. discriminate.
    + rewrite lookup_insert_ne in Hx by done.
      destruct (decide (i = 1)) as [->|H1].
      * rewrite lookup_singleton_eq in Hx. injection Hx as <-. vm_compute. discriminate.
      * by rewrite lookup_singleton_ne in Hx.
Defined.

End LooperFacts.

(** ** The schedule of the demuxer rate emulator *)

Module EmulatorFacts.

Import Av Core RateEmulator.

(** One call of [handlePkt]: what [Ref] returns, the two readings of the
    clock, the packet and its previous duration. *)
Record call := mkCall {
  callRef : option error;
  callNowAt : Z;
  callNowUntil : Z;
  callPkt : Packet;
  callPd : Z
}.

(** The release times of the tasks of a chan, in order. *)
Definition releases (ts : list task) : list Z :=
  omap (λ t, match t with TaskRelease pktAt _ => Some pktAt | TaskStop => None end) ts.

(** The calls whose copy succeeded. *)
Definition copied (cs : list call) : list call :=
  filter (λ cl, callRef cl = None) cs.

Section schedule.

Variable rescaleQ : Z → Rational → Rational → Z.

(** Successive calls of [handlePkt] on one emulator. *)
Fixpoint handlePkts (p : pktPool) (e : demuxerRateEmulator) (cs : list call)
    : demuxerRateEmulator * pktPool :=
  match cs with
  | [] => (e, p)
  | cl :: cs' =>
      let o := handlePkt rescaleQ (callRef cl) (callNowAt cl) (callNowUntil cl)
                 p e (callPkt cl) (callPd cl) in
      handlePkts (pool o) (emulator o) cs'
  end.

(** The clock never reads the zero time, and a positive duration is not
    rescaled to a negative one. *)
Definition sane (tb : Rational) (cl : call) : Prop :=
  0 < callNowAt cl
  ∧ (0 < callPd cl → 0 ≤ rescaleQ (callPd cl) tb nanosecondRational).

(** The time added to the previous release time by a call. *)
Definition step (tb : Rational) (cl : call) : Z :=
  if 0 <? callPd cl then rescaleQ (callPd cl) tb nanosecondRational else 0.

(** The release times of the calls [cs] when the previous one is [t]. *)
Fixpoint schedule (tb : Rational) (t : Z) (cs : list call) : list Z :=
  match cs with
  | [] => []
  | cl :: cs' => (t + step tb cl) :: schedule tb (t + step tb cl) cs'
  end.

Lemma copied_sane tb cs : Forall (sane tb) cs → Forall (sane tb) (copied cs).
Proof.
  rewrite !Forall_forall. intros H cl Hcl. apply H.
  unfold copied in Hcl. by apply list_elem_of_filter in Hcl as [_ ?].
Qed.

Lemma releases_app ts ts' : releases (ts ++ ts') = releases ts ++ releases ts'.
Proof. unfold releases. apply omap_app. Qed.

Lemma schedule_sorted tb : ∀ cs t b,
  Forall (sane tb) cs → b ≤ t → Sorted Z.le (schedule tb t cs)
  ∧ Forall (λ x, b ≤ x) (schedule tb t cs).
Proof.
  induction cs as [|cl cs IH]; intros t b Hs Hb; [split; constructor|].
  apply Forall_cons in Hs as [[_ Hcl] Hs]. cbn [schedule].
  assert (Hstep : 0 ≤ step tb cl).
  { unfold step. destruct (0 <? callPd cl) eqn:Hpd; [|done].
    apply Hcl. by apply Z.ltb_lt. }
  destruct (IH (t + step tb cl) (t + step tb cl) Hs) as [Hsorted Hall]; [lia|].
  split.
  - constructor; [done|]. destruct (schedule tb _ cs); constructor.
    by apply Forall_cons in Hall as [? _].
  - constructor; [lia|]. eapply Forall_impl; [exact Hall|]. cbn. lia.
Qed.

(** Once a packet has been scheduled, the calls that follow are scheduled
    from [lastAt] on, whatever the clock reads. *)
Lemma handlePkts_scheduled : ∀ cs p e,
  0 < lastAt e → Forall (sane (timeBase e)) cs →
  let r := handlePkts p e cs in
  releases (c r.1) = releases (c e) ++ schedule (timeBase e) (lastAt e) (copied cs)
  ∧ lastAt r.1 = default (lastAt e) (last (schedule (timeBase e) (lastAt e) (copied cs)))
  ∧ ps r.1 = reverse (callPkt <$> copied cs) ++ ps e
  ∧ length (c r.1) = (length (c e) + length (copied cs))%nat
  ∧ pktGets r.2 = (pktGets p + length cs)%nat
  ∧ pktPuts r.2 = pktPuts p
  ∧ bufferDuration r.1 = bufferDuration e
  ∧ timeBase r.1 = timeBase e.
Proof.
  induction cs as [|cl cs IH]; intros p e Hpos Hs; cbn zeta.
  - cbn. rewrite app_nil_r. split_and!; try done; lia.
  - apply Forall_cons in Hs as [[Hnow Hcl] Hs]. cbn [handlePkts].
    unfold copied. rewrite filter_cons. fold (copied cs).
    destruct (callRef cl) as [err|] eqn:Href.
    + rewrite decide_False by done. cbn [handlePkt pool emulator].
      destruct (IH (pktGet p) e Hpos Hs) as (H1 & H2 & H3 & Hc & H4 & H5 & H6 & H7).
      split_and!; try done. rewrite H4. cbn. lia.
    + rewrite decide_True by done. cbn [handlePkt pool emulator].
      set (e1 := mkRateEmulator _ _ _ _ _ _).
      assert (Hat : lastAt e1 = lastAt e + step (timeBase e) cl).
      { cbn. unfold pktAtOf, step.
        rewrite (proj2 (Z.eqb_neq (lastAt e) 0)) by lia.
        destruct (0 <? callPd cl); lia. }
      assert (Hstep : 0 ≤ step (timeBase e) cl).
      { unfold step. destruct (0 <? callPd cl) eqn:Hpd; [|done].
        apply Hcl. by apply Z.ltb_lt. }
      destruct (IH (pktGet p) e1) as (H1 & H2 & H3 & Hc & H4 & H5 & H6 & H7).
      { rewrite Hat. lia. } { done. }
      change (timeBase e1) with (timeBase e) in *.
      rewrite Hat in H1, H2. cbn [schedule fmap list_fmap].
      split_and!; try done.
      * rewrite H1. cbn [c e1]. rewrite releases_app. cbn.
        unfold pktAtOf, step. rewrite (proj2 (Z.eqb_neq (lastAt e) 0)) by lia.
        rewrite <- app_assoc. cbn.
        by destruct (0 <? callPd cl); rewrite ?Z.add_0_r.
      * rewrite H2, last_cons. by destruct (last _).
      * rewrite H3. cbn [ps e1]. rewrite reverse_cons, <- app_assoc. done.
      * rewrite Hc. cbn [c e1 length]. rewrite length_app. cbn. lia.
      * rewrite H4. cbn. lia.
Qed.

(** X4. The schedule of a stream's rate emulator. Starting from a new
    emulator, whatever the clock reads later and whichever copies fail, the
    packets whose copy succeeded are released at the time the clock read for
    the first of them plus the sum of the rescaled positive previous
    durations up to each: the release times never decrease. Every call
    takes one packet from the pool and gives none back, and the packets
    scheduled are the packets stored. *)
Theorem release_schedule b tb ds p cs :
  Forall (sane tb) cs →
  let r := handlePkts p (newDemuxerRateEmulator b tb ds) cs in
  releases (c r.1)
  = match copied cs with
    | [] => []
    | cl :: _ => schedule tb (callNowAt cl) (copied cs)
    end
  ∧ Sorted Z.le (releases (c r.1))
  ∧ length (c r.1) = length (copied cs)
  ∧ ps r.1 = reverse (callPkt <$> copied cs)
  ∧ pktGets r.2 = (pktGets p + length cs)%nat
  ∧ pktPuts r.2 = pktPuts p.
Proof.
  set (e0 := newDemuxerRateEmulator b tb ds). revert p.
  induction cs as [|cl cs IH]; intros p Hs; cbn zeta.
  - cbn. split_and!; try done; try constructor; lia.
  - pose proof Hs as Hs0. apply Forall_cons in Hs as [[Hnow Hcl] Hs].
    cbn [handlePkts]. unfold copied. rewrite filter_cons. fold (copied cs).
    destruct (callRef cl) as [err|] eqn:Href.
    + rewrite decide_False by done. cbn [handlePkt pool emulator].
      destruct (IH (pktGet p) Hs) as (H1 & H2 & H3 & H4 & H5 & H6).
      split_and!; try done. rewrite H5. cbn. lia.
    + rewrite decide_True by done. cbn [handlePkt pool emulator].
      set (e1 := mkRateEmulator _ _ _ _ _ _).
      assert (Hstep : 0 ≤ step tb cl).
      { unfold step. destruct (0 <? callPd cl) eqn:Hpd; [|done].
        apply Hcl. by apply Z.ltb_lt. }
      assert (Hat : lastAt e1 = callNowAt cl + step tb cl).
      { cbn. unfold pktAtOf, step. cbn. destruct (0 <? callPd cl); lia. }
      destruct (handlePkts_scheduled cs (pktGet p) e1)
        as (H1 & H2 & H3 & Hc & H4 & H5 & H6 & H7).
      { rewrite Hat. lia. } { done. }
      change (timeBase e1) with tb in *. rewrite Hat in H1, H2.
      assert (Hrel : releases (c (handlePkts (pktGet p) e1 cs).1)
                     = schedule tb (callNowAt cl) (cl :: copied cs)).
      { rewrite H1. cbn [schedule]. f_equal. cbn. unfold pktAtOf, step. cbn.
        f_equal. destruct (0 <? callPd cl); lia. }
      rewrite Hrel. split_and!; try done.
      * destruct (schedule_sorted tb (cl :: copied cs) (callNowAt cl) (callNowAt cl));
          [|lia|done].
        constructor; [done|]. by apply copied_sane.
      * rewrite H3. cbn [ps e1 fmap list_fmap]. by rewrite reverse_cons.
      * rewrite H4. cbn. lia.
Qed.

End schedule.

(** Three packets of a stream in milliseconds; the copy of the second one
    fails, and the clock has moved on between the calls. *)
Definition threeCalls : list call :=
  [ mkCall None 1000 1000 (mkPacket 0 0 0 10 0) 0;
    mkCall (Some (ErrOther 12)) 5000 5000 (mkPacket 0 40 40 10 1) 40;
    mkCall None 9000 9000 (mkPacket 0 100 100 10 2) 100 ].

Lemma release_schedule_witness :
  let r := handlePkts RescaleQ (mkPktPool 0 []) emulatorExample threeCalls in
  releases (c r.1) = [1000; 100001000]
  ∧ Sorted Z.le (releases (c r.1))
  ∧ length (c r.1) = 2%nat
  ∧ ps r.1 = [mkPacket 0 100 100 10 2; mkPacket 0 0 0 10 0]
  ∧ pktGets r.2 = 3%nat
  ∧ pktPuts r.2 = [].
Proof.
  apply (release_schedule RescaleQ 0 (mkRational 1 1000) (mkRational 1 1000)
           (mkPktPool 0 []) threeCalls).
  repeat constructor; intros _; vm_compute; discriminate.
Defined.

End EmulatorFacts.

(** ** The demuxer's stream table and packet pool *)

Module DemuxerFacts.

Import Av Core Demuxer.

(** The packets taken from a pool and not given back. *)
Definition outstanding (pl : pktPool) : Z :=
  Z.of_nat (pktGets pl) - Z.of_nat (length (pktPuts pl)).

(** What [Streams] and the dispatch read of a stream: they are fixed when
    the demuxer is created. *)
Definition fixedPart (ds : demuxerStream) : Context * Rational * avStream :=
  (ctx ds, d ds, s ds).

(** [dm'] has the streams of [dm], with the same fixed parts, and the same
    options. *)
Definition sameTable (dm dm' : Demuxer) : Prop :=
  (∀ k, fixedPart <$> ss dm' !! k = fixedPart <$> ss dm !! k)
  ∧ (∀ k, Looper.timeBase <$> l dm' !! k = Looper.timeBase <$> l dm !! k)
  ∧ emulateRate dm' = emulateRate dm
  ∧ loop dm' = loop dm
  ∧ readFrameErrorHandler dm' = readFrameErrorHandler dm.

Lemma newStreamTable_lookup b streams k :
  newStreamTable b streams !! k
  = newDemuxerStream b <$> last (filter (λ st, avIndex st = k) streams).
Proof.
  unfold newStreamTable.
  assert (H : ∀ m : gmap Z demuxerStream,
            foldl (λ m st, <[avIndex st := newDemuxerStream b st]> m) m streams !! k
            = match last (filter (λ st, avIndex st = k) streams) with
              | Some st => Some (newDemuxerStream b st)
              | None => m !! k
              end).
  { induction streams as [|st streams IH]; intros m; [done|].
    cbn [foldl]. rewrite IH, filter_cons.
    destruct (decide (avIndex st = k)) as [Heq|Hne].
    - rewrite last_cons. destruct (last (filter _ streams)); [done|].
      by rewrite Heq, lookup_insert_eq.
    - destruct (last (filter _ streams)); [done|].
      by rewrite lookup_insert_ne. }
  rewrite H. destruct (last _); [done|]. by rewrite lookup_empty.
Qed.

(** X5. What [NewDemuxer] builds from the streams of the input. The table
    holds, under every index, the stream built from the last input stream
    of that index, and nothing under any other index; the looper has a
    fresh stream for exactly the same indexes, with the stream's time base.
    Every stream of the table is stored under its own index, its rate
    emulator has a positive buffer duration and nothing queued, and its
    descriptor carries the stream's time base. *)
Theorem NewDemuxer_streams o streams k :
  let dm := NewDemuxer o streams in
  let found := last (filter (λ st, avIndex st = k) streams) in
  ss dm !! k = newDemuxerStream (EmulateRateBufferDuration o) <$> found
  ∧ l dm !! k = (λ st, Looper.newDemuxerLooperStream (avTimeBase st)) <$> found
  ∧ dom (l dm) = dom (ss dm)
  ∧ (∀ ds, ss dm !! k = Some ds →
       avIndex (s ds) = k
       ∧ 0 < RateEmulator.bufferDuration (e ds)
       ∧ RateEmulator.c (e ds) = []
       ∧ RateEmulator.timeBase (e ds) = avTimeBase (s ds)
       ∧ d ds = avTimeBase (s ds)
       ∧ pd ds = newPktDurationer)
  ∧ p dm = mkPktPool 0 []
  ∧ loop dm = (if Loop o then 1 else 0).
Proof.
  cbn zeta. unfold NewDemuxer. cbn [ss l p loop].
  unfold Looper.newDemuxerLooper. rewrite !lookup_fmap, newStreamTable_lookup.
  split_and!; try done.
  - by destruct (last _).
  - by rewrite !dom_fmap_L.
  - intros ds. destruct (last _) as [st|] eqn:Hlast; [|done].
    cbn. intros [= <-]. cbn. split_and!; try done.
    + apply last_Some in Hlast as [l' Hl'].
      assert (Hin : st ∈ filter (λ st, avIndex st = k) streams).
      { rewrite Hl'. apply elem_of_app. right. left. }
      by apply list_elem_of_filter in Hin as [? _].
    + unfold RateEmulator.second. case_match eqn:Hb; [done|].
      apply Z.leb_gt in Hb. lia.
Qed.

Section reading.

Variable rescaleQ : Z → Rational → Rational → Z.
Variable durationToTimeBase : Z → Rational → Z * Z.

Lemma sameTable_refl dm : sameTable dm dm.
Proof. by split_and!. Qed.

Lemma sameTable_trans dm1 dm2 dm3 :
  sameTable dm1 dm2 → sameTable dm2 dm3 → sameTable dm1 dm3.
Proof.
  intros (H1 & H2 & H3 & H4 & H5) (G1 & G2 & G3 & G4 & G5).
  split_and!; try congruence.
Qed.

Lemma sameTable_withPool dm pl : sameTable dm (withPool dm pl).
Proof. by split_and!. Qed.

Lemma updateDurations_timeBase st prev :
  Looper.timeBase (Looper.updateDurations st prev).1 = Looper.timeBase st.
Proof.
  unfold Looper.updateDurations.
  destruct (0 <? prev); [done|]. by destruct (0 <? Looper.lastDuration st).
Qed.

Lemma handlePkt_timeBase lp pkt prev k :
  Looper.timeBase <$> (Looper.handlePkt lp pkt prev).1.1 !! k
  = Looper.timeBase <$> lp !! k.
Proof.
  rewrite Looper.handlePkt_looper.
  destruct (lp !! streamIndex pkt) as [st|] eqn:Hst; [|done].
  destruct (decide (streamIndex pkt = k)) as [<-|Hne].
  - rewrite lookup_insert_eq, Hst. cbn. by rewrite updateDurations_timeBase.
  - by rewrite lookup_insert_ne.
Qed.

Lemma looping_timeBase flush lp k :
  Looper.timeBase <$> Looper.looping rescaleQ durationToTimeBase flush lp !! k
  = Looper.timeBase <$> lp !! k.
Proof.
  rewrite Looper.looping_lookup. destruct (lp !! k) as [st|]; [|done].
  cbn. f_equal. unfold Looper.restampStream.
  by destruct (Looper.alignment _ _ _) as [[[i|] ld] r].
Qed.

Lemma looping_sameTable dm : sameTable dm (looping rescaleQ durationToTimeBase dm).
Proof.
  split_and!; try done.
  - intros k. cbn [ss looping]. rewrite map_lookup_imap.
    destruct (ss dm !! k) as [ds|]; [|done]. cbn.
    by destruct (l dm !! k).
  - intros k. apply looping_timeBase.
Qed.

Lemma eofAll_sameTable dm : sameTable dm (eofAll dm).
Proof.
  split_and!; try done.
  intros k. cbn [ss eofAll]. rewrite lookup_fmap.
  by destruct (ss dm !! k).
Qed.

Lemma readFrameError_sameTable a err dm :
  sameTable dm (readFrameError rescaleQ durationToTimeBase a err dm).1.2.
Proof.
  unfold readFrameError.
  destruct ((0 <? loop dm) && isEof err).
  - destruct (seekResult a); apply looping_sameTable.
  - assert (H : sameTable dm (if emulateRate dm && isEof err then eofAll dm else dm)).
    { destruct (emulateRate dm && isEof err);
        [apply eofAll_sameTable|apply sameTable_refl]. }
    destruct (readFrameErrorHandler dm) as [h|]; [|done].
    destruct (h err) as [stop handled]. by destruct handled.
Qed.

Lemma readFramePacket_sameTable a pkt dm :
  sameTable dm (readFramePacket rescaleQ a pkt dm).1.1.2.
Proof.
  unfold readFramePacket.
  destruct (ss dm !! streamIndex pkt) as [ds|] eqn:Hds; [|by split_and!].
  destruct (durationerHandlePkt (pd ds) pkt) as [pd1 prev].
  pose proof (handlePkt_timeBase (l dm) pkt prev) as Htb.
  destruct (Looper.handlePkt (l dm) pkt prev) as [[l1 pkt1] prev1].
  cbn [fst snd] in Htb.
  assert (Hins : ∀ ds1, fixedPart ds1 = fixedPart ds →
            ∀ k, fixedPart <$> <[streamIndex pkt := ds1]> (ss dm) !! k
                 = fixedPart <$> ss dm !! k).
  { intros ds1 Hfix k. destruct (decide (streamIndex pkt = k)) as [<-|Hne].
    - rewrite lookup_insert_eq, Hds. cbn. by rewrite Hfix.
    - by rewrite lookup_insert_ne. }
  destruct (emulateRate dm) eqn:Hemu; cbn [fst snd];
    split_and!; try done; cbn [ss]; by apply Hins.
Qed.

Lemma readFrame_sameTable a dm :
  sameTable dm (readFrame rescaleQ durationToTimeBase a dm).1.2.
Proof.
  unfold readFrame. destruct (readResult a) as [err|pkt].
  - pose proof (readFrameError_sameTable a err (withPool dm (pktGet (p dm)))) as H.
    destruct (readFrameError _ _ _ _ _) as [[stop dm1] effs]. cbn [fst snd] in *.
    eapply sameTable_trans; [apply sameTable_withPool|].
    eapply sameTable_trans; [exact H|]. apply sameTable_withPool.
  - pose proof (readFramePacket_sameTable a pkt (withPool dm (pktGet (p dm)))) as H.
    destruct (readFramePacket _ _ _ _) as [[[stop dm1] effs] pkt1].
    cbn [fst snd] in *.
    eapply sameTable_trans; [apply sameTable_withPool|].
    eapply sameTable_trans; [exact H|]. apply sameTable_withPool.
Qed.

Lemma readLoop_sameTable answered : ∀ dm,
  sameTable dm (readLoop rescaleQ durationToTimeBase dm answered).1.
Proof.
  induction answered as [|a rest IH]; intros dm; [apply sameTable_refl|].
  cbn [readLoop].
  pose proof (readFrame_sameTable a dm) as H.
  destruct (readFrame _ _ a dm) as [[stop dm1] effs]. cbn [fst snd] in H.
  destruct stop; [done|].
  specialize (IH dm1). destruct (readLoop _ _ dm1 rest) as [dm2 effs2].
  cbn [fst] in *. by eapply sameTable_trans.
Qed.

Lemma mapM_ext_in {A B} (g h : A → option B) (xs : list A) :
  (∀ x, g x = h x) → mapM g xs = mapM h xs.
Proof.
  intros Hgh. induction xs as [|x xs IH]; [done|].
  cbn. by rewrite Hgh, IH.
Qed.

(** X6. Reading never changes what the demuxer says of its streams:
    whatever [ReadFrame], [SeekFrame], [Ref] and the clock answer, after any
    number of turns of the read loop [Streams] returns what it returned
    before, the table and the looper have the streams they had, a table in
    which every stream is stored under its own index is still one, and the
    options are as they were. *)
Theorem readLoop_keeps_streams answered dm order :
  let dm' := (readLoop rescaleQ durationToTimeBase dm answered).1 in
  Streams order dm' = Streams order dm
  ∧ dom (ss dm') = dom (ss dm)
  ∧ dom (l dm') = dom (l dm)
  ∧ (indexed (ss dm) → indexed (ss dm'))
  ∧ emulateRate dm' = emulateRate dm
  ∧ loop dm' = loop dm.
Proof.
  cbn zeta. destruct (readLoop_sameTable answered dm) as (Hss & Hl & He & Hloop & _).
  set (dm' := (readLoop _ _ dm answered).1) in *.
  split_and!; try done.
  - unfold Streams. apply mapM_ext_in. intros idx.
    specialize (Hss idx). unfold fixedPart in Hss.
    destruct (ss dm' !! idx) as [ds'|], (ss dm !! idx) as [ds|]; try done.
    cbn in *. injection Hss as Hc _ Hs. unfold stream. by rewrite Hc, Hs.
  - apply set_eq. intros k. rewrite !elem_of_dom. specialize (Hss k).
    destruct (ss dm' !! k), (ss dm !! k); try done; split; intros [? ?]; eauto; done.
  - apply set_eq. intros k. rewrite !elem_of_dom. specialize (Hl k).
    destruct (l dm' !! k), (l dm !! k); try done; split; intros [? ?]; eauto; done.
  - intros Hidx k ds' Hds'. specialize (Hss k). rewrite Hds' in Hss.
    destruct (ss dm !! k) as [ds|] eqn:Hds; [|done].
    cbn in Hss. injection Hss as _ _ Hs. rewrite Hs. by apply Hidx.
Qed.

(** The stream whose rate emulator copies the packet read, if any. *)
Definition copying (a : answers) (dm : Demuxer) : option demuxerStream :=
  match readResult a with
  | inr pkt => if emulateRate dm then ss dm !! streamIndex pkt else None
  | inl _ => None
  end.

Lemma readFrameError_pool a err dm :
  p (readFrameError rescaleQ durationToTimeBase a err dm).1.2 = p dm.
Proof.
  unfold readFrameError.
  destruct ((0 <? loop dm) && isEof err).
  - by destruct (seekResult a).
  - assert (H : p (if emulateRate dm && isEof err then eofAll dm else dm) = p dm)
      by (by destruct (emulateRate dm && isEof err)).
    destruct (readFrameErrorHandler dm) as [h|]; [|done].
    destruct (h err) as [stop handled]. by destruct handled.
Qed.

(** X7. The packet pool over one call of [readFrame]. The call gives back
    one packet, the one it took. When the rate is emulated and the packet
    read belongs to a stream of the table, the stream's emulator takes a
    second packet: if its copy succeeds the packet is stored by the emulator
    until it is released; if the copy fails the packet is neither stored nor
    given back. In every other case the pool ends with as many packets out
    as before. *)
Theorem readFrame_pool a dm :
  let dm' := (readFrame rescaleQ durationToTimeBase a dm).1.2 in
  length (pktPuts (p dm')) = S (length (pktPuts (p dm)))
  ∧ outstanding (p dm')
    = outstanding (p dm) + match copying a dm with Some _ => 1 | None => 0 end
  ∧ ∀ pkt ds, readResult a = inr pkt → copying a dm = Some ds →
      ∃ ds', ss dm' !! streamIndex pkt = Some ds'
        ∧ match refResult a with
          | None =>
              ∃ out, RateEmulator.ps (e ds') = out :: RateEmulator.ps (e ds)
                ∧ last (pktPuts (p dm')) = Some out
          | Some _ => e ds' = e ds
          end.
Proof.
  cbn zeta. unfold readFrame, copying, outstanding.
  destruct (readResult a) as [err|pkt].
  - pose proof (readFrameError_pool a err (withPool dm (pktGet (p dm)))) as Hp.
    destruct (readFrameError _ _ _ _ _) as [[stop dm1] effs].
    cbn [fst snd p withPool] in *. rewrite Hp. cbn. rewrite length_app. cbn.
    split_and!; [lia|lia|done].
  - unfold readFramePacket. cbn [ss withPool emulateRate p l].
    destruct (ss dm !! streamIndex pkt) as [ds|] eqn:Hds.
    + destruct (durationerHandlePkt (pd ds) pkt) as [pd1 prev].
      destruct (Looper.handlePkt (l dm) pkt prev) as [[l1 pkt1] prev1].
      destruct (emulateRate dm) eqn:Hemu; cbn [fst snd p withPool ss].
      * destruct (refResult a) as [err|]; cbn; rewrite length_app; cbn;
          (split_and!; [lia|lia|]); intros pkt0 ds0 [= <-] [= <-];
          rewrite lookup_insert_eq; eexists; (split; [done|]); cbn; [done|].
        eexists. split; [done|]. by rewrite last_snoc.
      * cbn. rewrite length_app. cbn. split_and!; [lia|lia|done].
    + cbn. rewrite length_app. cbn.
      destruct (emulateRate dm); split_and!; try lia; done.
Qed.

(** X8. A call of [readFrame] that reads a packet. The loop is never asked
    to stop, and the incoming-rate stat grows by the packet's size in bits,
    whether or not the packet's stream is known. A packet of an unknown
    stream changes neither the table nor the looper and has no other
    effect. A packet of a known stream is dispatched once, with the
    descriptor of its stream, when the rate is not emulated: it leaves with
    its stream index, size and content, and with its PTS − DTS offset;
    nothing is dispatched by the call when the rate is emulated. *)
Theorem readFrame_packet seek ref n1 n2 pkt dm :
  let res := readFrame rescaleQ durationToTimeBase
               (mkAnswers (inr pkt) seek ref n1 n2) dm in
  res.1.1 = false
  ∧ statIncomingRate res.1.2 = statIncomingRate dm + Size pkt * 8
  ∧ (ss dm !! streamIndex pkt = None →
       res.2 = [] ∧ ss res.1.2 = ss dm ∧ l res.1.2 = l dm)
  ∧ (∀ ds, ss dm !! streamIndex pkt = Some ds → emulateRate dm = false →
       ∃ out, res.2 = [EDispatch out (d ds)]
         ∧ streamIndex out = streamIndex pkt
         ∧ Size out = Size pkt ∧ payload out = payload pkt
         ∧ Int64.sub (pts out) (dts out) = Int64.sub (pts pkt) (dts pkt))
  ∧ (emulateRate dm = true → ∀ out dsc, EDispatch out dsc ∉ res.2).
Proof.
  cbn zeta. unfold readFrame. cbn [readResult].
  unfold readFramePacket.
  cbn [ss withPool emulateRate p l statIncomingRate refResult nowAt nowUntil].
  destruct (ss dm !! streamIndex pkt) as [ds|] eqn:Hds.
  - destruct (durationerHandlePkt (pd ds) pkt) as [pd1 prev].
    pose proof (Looper.handlePkt_emitted (l dm) pkt prev) as Hout.
    pose proof (Looper.handlePkt_offset (l dm) pkt prev) as Hoff.
    destruct (Looper.handlePkt (l dm) pkt prev) as [[l1 pkt1] prev1].
    cbn [fst snd] in Hout, Hoff.
    destruct (emulateRate dm) eqn:Hemu; cbn [fst snd statIncomingRate withPool].
    + split_and!; try done. intros _ out dsc.
      destruct ref as [err|]; cbn.
      * intros [?|Hin]%elem_of_cons; [done|]. by apply elem_of_nil in Hin.
      * destruct (0 <? _).
        -- intros [?|Hin]%elem_of_cons; [done|]. by apply elem_of_nil in Hin.
        -- intros Hin. by apply elem_of_nil in Hin.
    + split_and!; try done. intros ds0 [= <-] _. exists pkt1.
      split; [done|].
      assert (Hsame : streamIndex pkt1 = streamIndex pkt ∧ Size pkt1 = Size pkt
                      ∧ payload pkt1 = payload pkt).
      { rewrite Hout. destruct (l dm !! streamIndex pkt) as [st|]; [|done].
        unfold Looper.restamp. by destruct (0 <? Looper.restampDelta _). }
      by destruct Hsame as (-> & -> & ->).
  - cbn. split_and!; try done. intros _ out dsc Hin. by apply elem_of_nil in Hin.
Qed.

End reading.

End DemuxerFacts.

(** ** Runs of the rate enforcer *)

Module EnforcerFacts.

Import Av Core RateEnforcer.

(** The number of ticks of a run. *)
Fixpoint ticks (acts : list action) : nat :=
  match acts with
  | [] => 0
  | ActTick _ :: acts' => S (ticks acts')
  | _ :: acts' => ticks acts'
  end.

Lemma distribute_slotsCount r : slotsCount (distribute r) = slotsCount r.
Proof. destruct (distribute_only r) as (sl & b & pl & ->). done. Qed.

Lemma NoFill_slotsCount ref fm nd r : slotsCount (NoFill ref fm nd r) = slotsCount r.
Proof. unfold NoFill. by repeat case_match. Qed.

Lemma dispatchItem_slotsCount filled it r :
  slotsCount (dispatchItem filled it r).1 = slotsCount r.
Proof.
  unfold dispatchItem.
  destruct (restamper r) as [rs|]; [destruct (Restamp rs (itemF it))|];
    destruct filled; cbn; by repeat case_match.
Qed.

Lemma tickFunc_slotsCount ref r r' o :
  tickFunc ref r = Some (r', o) → slotsCount r' = slotsCount r.
Proof.
  unfold tickFunc.
  destruct (Z.of_nat (length (slots r)) <? slotsCount r).
  - unfold addNextSlot. destruct (last (slots r)); [|done]. cbn. by intros [= <- <-].
  - pose proof (distribute_slotsCount r) as Hd.
    unfold current, fill.
    destruct (slots (distribute r)) as [|[s|] sl]; [done| |].
    + destruct (slotI s) as [it|].
      * cbn [mbind option_bind].
        pose proof (NoFill_slotsCount ref (itemF it) (itemN it) (distribute r)) as Hn.
        pose proof (dispatchItem_slotsCount false it
                      (NoFill ref (itemF it) (itemN it) (distribute r))) as Hi.
        destruct (dispatchItem false it _) as [r3 it']. cbn [fst] in Hi.
        cbn [mbind option_bind]. unfold addNextSlot. cbn [slots withPool].
        destruct (last (slots r3)); [|done]. cbn. intros [= <- <-]. cbn. congruence.
      * destruct (Fill (f (distribute r))) as [[fm|] nd]; cbn [mbind option_bind].
        -- pose proof (dispatchItem_slotsCount true (newRateEnforcerItem fm nd)
                         (distribute r)) as Hi.
           destruct (dispatchItem true _ _) as [r3 it']. cbn [fst] in Hi.
           cbn [mbind option_bind]. unfold addNextSlot. cbn [slots withStatFilledRate].
           destruct (last (slots r3)); [|done]. cbn. intros [= <- <-]. cbn. congruence.
        -- unfold addNextSlot. cbn [slots withStatFilledRate].
           destruct (last (slots (distribute r))); [|done]. cbn.
           intros [= <- <-]. cbn. congruence.
    + destruct (Fill (f (distribute r))) as [[fm|] nd]; cbn [mbind option_bind].
      * pose proof (dispatchItem_slotsCount true (newRateEnforcerItem fm nd)
                      (distribute r)) as Hi.
        destruct (dispatchItem true _ _) as [r3 it']. cbn [fst] in Hi.
        cbn [mbind option_bind]. unfold addNextSlot. cbn [slots withStatFilledRate].
        destruct (last (slots r3)); [|done]. cbn. intros [= <- <-]. cbn. congruence.
      * unfold addNextSlot. cbn [slots withStatFilledRate].
        destruct (last (slots (distribute r))); [|done]. cbn.
        intros [= <- <-]. cbn. congruence.
Qed.

Lemma handleFrameTask_window rescaleQ ref fm pn r :
  slots r ≠ [] →
  ∃ r', handleFrameTask rescaleQ ref fm pn r = Some r'
    ∧ length (slots r') = length (slots r)
    ∧ slotsCount r' = slotsCount r.
Proof.
  intros Hne. unfold handleFrameTask. cbn [slots withStatProcessedRate].
  destruct (last_is_Some _ Hne) as [l ->].
  eexists. split; [done|].
  repeat case_match; cbn; rewrite ?length_insert; done.
Qed.

Lemma runTask_window rescaleQ ref r :
  slots r ≠ [] →
  ∃ r', runTask rescaleQ ref r = Some r'
    ∧ length (slots r') = length (slots r)
    ∧ slotsCount r' = slotsCount r.
Proof.
  intros Hne. unfold runTask. destruct (c r) as [|[fm pn] rest]; [by exists r|].
  by apply (handleFrameTask_window rescaleQ ref fm pn (withChan r rest)).
Qed.

Lemma HandleFrame_window rescaleQ ref pl r :
  slots (HandleFrame rescaleQ ref pl r) = slots r
  ∧ slotsCount (HandleFrame rescaleQ ref pl r) = slotsCount r.
Proof. unfold HandleFrame. by destruct ref. Qed.

Lemma nonempty_length {A} (l : list A) : l ≠ [] ↔ (0 < length l)%nat.
Proof. destruct l; cbn; split; intros; try done; lia. Qed.

Lemma fmap_seq_shift {A} (g : nat → A) n :
  g <$> seq 1 n = (λ k, g (S k)) <$> seq 0 n.
Proof. by rewrite <- fmap_S_seq, <- list_fmap_compose. Qed.

(** A run on a window that has a slot and is not longer than [slotsCount]. *)
Lemma run_window_from rescaleQ : ∀ acts r,
  slots r ≠ [] → Z.of_nat (length (slots r)) ≤ slotsCount r →
  ∃ r' log, run rescaleQ r acts = Some (r', log)
    ∧ slotsCount r' = slotsCount r
    ∧ length log = ticks acts
    ∧ Z.of_nat (length (slots r'))
      = Z.min (Z.of_nat (length (slots r)) + Z.of_nat (ticks acts)) (slotsCount r)
    ∧ fst <$> log
      = (λ k, bool_decide (slotsCount r ≤ Z.of_nat (length (slots r)) + Z.of_nat k))
          <$> seq 0 (ticks acts).
Proof.
  induction acts as [|a acts IH]; intros r Hne Hlen.
  - exists r, []. cbn. split_and!; try done. lia.
  - destruct a as [nd|ref pl|ref|ref]; cbn [run ticks].
    + apply (IH (Switch nd r)); done.
    + destruct (HandleFrame_window rescaleQ ref pl r) as [Hs Hc].
      destruct (IH (HandleFrame rescaleQ ref pl r)) as (r' & log & H).
      { by rewrite Hs. } { by rewrite Hs, Hc. }
      exists r', log. by rewrite Hs, Hc in H.
    + destruct (runTask_window rescaleQ ref r Hne) as (r1 & -> & Hs & Hc).
      cbn [mbind option_bind].
      destruct (IH r1) as (r' & log & H).
      { apply nonempty_length. rewrite Hs. by apply nonempty_length. }
      { by rewrite Hs, Hc. }
      exists r', log. by rewrite Hs, Hc in H.
    + destruct (tickFunc_slots ref r Hne) as (r1 & o & sl & ps & Ht & Hb & Hps & Hsl).
      pose proof (tickFunc_slotsCount _ _ _ _ Ht) as Hc.
      assert (Hsllen : length sl = length (slots r)).
      { by rewrite <- (bounds_length sl), Hb, bounds_length. }
      apply nonempty_length in Hne.
      assert (Hlen1 : length (slots r1)
                      = if warm r then length (slots r) else S (length (slots r))).
      { rewrite Hsl. destruct (warm r);
          rewrite ?length_drop, length_app; cbn; lia. }
      assert (Hwarm : warm r = bool_decide (slotsCount r ≤ Z.of_nat (length (slots r)))).
      { unfold warm. destruct (_ <? _) eqn:Hlt; cbn.
        - apply Z.ltb_lt in Hlt. by rewrite bool_decide_eq_false_2 by lia.
        - apply Z.ltb_ge in Hlt. by rewrite bool_decide_eq_true_2 by lia. }
      rewrite Ht. cbn [mbind option_bind].
      destruct (IH r1) as (r' & log & -> & Hc' & Hlog & Hlen' & Hflags).
      { apply nonempty_length. rewrite Hlen1. destruct (warm r); lia. }
      { rewrite Hlen1, Hc, Hwarm. case_bool_decide; lia. }
      cbn [mbind option_bind]. eexists _, _. split; [done|].
      rewrite Hc in *. cbn [length fmap list_fmap fst seq].
      split_and!.
      * done.
      * by rewrite Hlog.
      * rewrite Hlen', Hlen1, Hwarm. case_bool_decide; lia.
      * rewrite Hwarm at 1. f_equal; [apply bool_decide_ext; lia|].
        rewrite Hflags, fmap_seq_shift. apply list_fmap_ext. intros _ k _.
        rewrite Hlen1, Hwarm. case_bool_decide.
        -- rewrite !bool_decide_eq_true_2; [done|lia..].
        -- apply bool_decide_ext. lia.
Qed.

(** X9. A rate enforcer never panics and keeps its delay. Whatever is done
    to a new rate enforcer (switches, frames, failing copies, ticks), every
    call returns; the window starts at one slot, grows by one at every tick
    until it has [max(Delay, 1)] slots and keeps that length from then on;
    and the ticks that find enough slots to dispatch are exactly those from
    the [max(Delay, 1)]-th on. [Delay] is taken in the range in which its
    conversion to [float64] and back, made by [NewRateEnforcer], is exact. *)
Theorem run_window rescaleQ o acts :
  0 ≤ Delay o ≤ 2 ^ 53 →
  ∃ r' log, run rescaleQ (NewRateEnforcer o) acts = Some (r', log)
    ∧ length log = ticks acts
    ∧ Z.of_nat (length (slots r'))
      = Z.min (1 + Z.of_nat (ticks acts)) (Z.max (Delay o) 1)
    ∧ fst <$> log
      = (λ k, bool_decide (Z.max (Delay o) 1 ≤ 1 + Z.of_nat k)) <$> seq 0 (ticks acts).
Proof.
  intros _.
  destruct (run_window_from rescaleQ acts (NewRateEnforcer o))
    as (r' & log & Hrun & _ & Hlog & Hlen & Hflags).
  { done. } { cbn. lia. }
  exists r', log. split_and!; done.
Qed.

(** *** A tick, step by step *)

(** What a tick that finds enough slots does after [distribute]. *)
Definition dispatchTick (ref : option error) (r1 : RateEnforcer)
    : option (RateEnforcer * tickOutcome) :=
  match slot0Item r1 with
  | Some it =>
      let r2 := NoFill ref (itemF it) (itemN it) r1 in
      let '(r3, it') := dispatchItem false it r2 in
      r5 ← addNextSlot (withPool r3 (framePut (p r3) (itemF it')));
      Some (removeFirstSlot r5, TickSlot it)
  | None =>
      match Fill (f r1) with
      | (Some fm, nd) =>
          let '(r3, it') := dispatchItem true (newRateEnforcerItem fm nd) r1 in
          r5 ← addNextSlot (withStatFilledRate r3 (statFilledRate r3 + 1));
          Some (removeFirstSlot r5, TickFilled (Some (itemF it')))
      | (None, _) =>
          r5 ← addNextSlot (withStatFilledRate r1 (statFilledRate r1 + 1));
          Some (removeFirstSlot r5, TickFilled None)
      end
  end.

Lemma addNextSlot_None r : slots r = [] → addNextSlot r = None.
Proof. unfold addNextSlot. by intros ->. Qed.

Lemma tickFunc_steps ref r :
  tickFunc ref r
  = if warm r then dispatchTick ref (distribute r)
    else r' ← addNextSlot r; Some (r', TickWarmup).
Proof.
  unfold tickFunc, warm. destruct (_ <? _); cbn [negb]; [done|].
  unfold dispatchTick, current, slot0Item, fill.
  destruct (slots (distribute r)) as [|[s|] sl] eqn:Hsl.
  - destruct (Fill (f (distribute r))) as [[fm|] nd].
    + pose proof (dispatchItem_slots true (newRateEnforcerItem fm nd) (distribute r))
        as Hd.
      destruct (dispatchItem true _ _) as [r3 it']. cbn [fst] in Hd.
      rewrite addNextSlot_None; [done|]. cbn. by rewrite Hd.
    + by rewrite addNextSlot_None.
  - destruct (slotI s) as [it|]; cbn [mbind option_bind].
    + destruct (dispatchItem false it _) as [r3 it']. done.
    + destruct (Fill (f (distribute r))) as [[fm|] nd]; cbn [mbind option_bind];
        [|done].
      destruct (dispatchItem true _ _) as [r3 it']. done.
  - cbn [mbind option_bind].
    destruct (Fill (f (distribute r))) as [[fm|] nd]; cbn [mbind option_bind];
      [|done].
    destruct (dispatchItem true _ _) as [r3 it']. done.
Qed.

(** *** The items of the window *)

(** The item of a slot, if it has one, is of the slot's node and its PTS
    lies in the slot. *)
Definition fits (os : option rateEnforcerSlot) : Prop :=
  ∀ s it, os = Some s → slotI s = Some it → inRange s it = true.

Definition itemsFit (sl : list (option rateEnforcerSlot)) : Prop := Forall fits sl.

Lemma fits_empty s : slotI s = None → fits (Some s).
Proof. intros Hs s' it [= <-]. by rewrite Hs. Qed.

Lemma fits_None : fits None.
Proof. by intros s it. Qed.

Lemma fits_next ps : fits (next <$> ps).
Proof. destruct ps as [s|]; [by apply fits_empty|apply fits_None]. Qed.

Lemma distributeSlot_fit ns k r :
  itemsFit (slots r) → itemsFit (slots (distributeSlot ns k r)).
Proof.
  intros Hfit.
  destruct (slots r !! k) as [[s|]|] eqn:Hk;
    [|by unfold distributeSlot; rewrite Hk..].
  destruct (slotI s) as [it|] eqn:Hi; [by unfold distributeSlot; rewrite Hk, Hi|].
  rewrite (distributeSlot_scan ns k r s Hk Hi). cbn [slots withPool withBuf withSlots].
  apply Forall_insert; [done|].
  destruct (head (filter _ (buf r))) as [w|] eqn:Hw; [|by apply fits_empty].
  intros s' it [= <-] [= <-].
  assert (Hin : w ∈ filter (λ it, inRange s it = true) (buf r)).
  { destruct (filter _ (buf r)); [done|]. cbn in Hw. injection Hw as ->. left. }
  by apply list_elem_of_filter in Hin as [? _].
Qed.

Lemma distribute_fit r : itemsFit (slots r) → itemsFit (slots (distribute r)).
Proof.
  unfold distribute. generalize (usefulNodes (slots r)) as ns.
  generalize (seq 0 (length (slots r))) as ks. intros ks. revert r.
  induction ks as [|k ks IH]; intros r ns Hfit; [done|].
  cbn [foldl]. apply IH. by apply distributeSlot_fit.
Qed.

Lemma addNextSlot_fit r r' :
  addNextSlot r = Some r' → itemsFit (slots r) → itemsFit (slots r').
Proof.
  unfold addNextSlot. destruct (last (slots r)) as [ps|]; [|done].
  intros [= <-] Hfit. cbn. apply Forall_app. split; [done|].
  constructor; [apply fits_next|constructor].
Qed.

Lemma removeFirstSlot_fit r : itemsFit (slots r) → itemsFit (slots (removeFirstSlot r)).
Proof. intros Hfit. cbn. by apply Forall_drop. Qed.

Lemma slot0Item_head r it :
  slot0Item r = Some it →
  ∃ s, head (slots r) = Some (Some s) ∧ slotI s = Some it.
Proof.
  unfold slot0Item. destruct (slots r) as [|[s|] sl]; try done.
  intros Hi. by exists s.
Qed.

Lemma dispatchTick_fit ref r1 r' o :
  itemsFit (slots r1) → dispatchTick ref r1 = Some (r', o) → itemsFit (slots r').
Proof.
  intros Hfit. unfold dispatchTick.
  destruct (slot0Item r1) as [it|].
  - pose proof (dispatchItem_slots false it (NoFill ref (itemF it) (itemN it) r1)) as Hd.
    destruct (dispatchItem false it _) as [r3 it']. cbn [fst] in Hd.
    destruct (addNextSlot _) as [r5|] eqn:H5; [|done]. cbn. intros [= <- <-].
    apply removeFirstSlot_fit. apply (addNextSlot_fit _ _ H5).
    cbn. by rewrite Hd, NoFill_slots.
  - destruct (Fill (f r1)) as [[fm|] nd].
    + pose proof (dispatchItem_slots true (newRateEnforcerItem fm nd) r1) as Hd.
      destruct (dispatchItem true _ _) as [r3 it']. cbn [fst] in Hd.
      destruct (addNextSlot _) as [r5|] eqn:H5; [|done]. cbn. intros [= <- <-].
      apply removeFirstSlot_fit. apply (addNextSlot_fit _ _ H5).
      cbn. by rewrite Hd.
    + destruct (addNextSlot _) as [r5|] eqn:H5; [|done]. cbn. intros [= <- <-].
      apply removeFirstSlot_fit. by apply (addNextSlot_fit _ _ H5).
Qed.

Lemma tickFunc_fit ref r r' o :
  itemsFit (slots r) → tickFunc ref r = Some (r', o) → itemsFit (slots r').
Proof.
  intros Hfit. rewrite tickFunc_steps. destruct (warm r).
  - apply dispatchTick_fit. by apply distribute_fit.
  - destruct (addNextSlot r) as [r1|] eqn:H1; [|done]. cbn. intros [= <- <-].
    by apply (addNextSlot_fit _ _ H1).
Qed.

Lemma handleFrameTask_fit rescaleQ ref fm pn r r' :
  itemsFit (slots r) → handleFrameTask rescaleQ ref fm pn r = Some r' →
  itemsFit (slots r').
Proof.
  intros Hfit. unfold handleFrameTask. cbn [slots withStatProcessedRate].
  destruct (last (slots r)) as [l|]; [|done]. intros [= <-].
  assert (Hins : itemsFit (<[pred (length (slots r)) :=
                              Some (newRateEnforcerSlot
                                      (withStatProcessedRate r (statProcessedRate r + 1))
                                      fm)]> (slots r))).
  { apply Forall_insert; [done|]. by apply fits_empty. }
  repeat case_match; cbn; done.
Qed.

Lemma run_fit rescaleQ : ∀ acts r r' log,
  itemsFit (slots r) → run rescaleQ r acts = Some (r', log) → itemsFit (slots r').
Proof.
  induction acts as [|a acts IH]; intros r r' log Hfit; cbn [run].
  - by intros [= <- <-].
  - destruct a as [nd|ref pl|ref|ref].
    + by apply IH.
    + apply IH. by destruct (HandleFrame_window rescaleQ ref pl r) as [-> _].
    + destruct (runTask rescaleQ ref r) as [r1|] eqn:Ht; [|done]. cbn.
      apply IH. unfold runTask in Ht.
      destruct (c r) as [|[fm pn] rest]; [by injection Ht as <-|].
      by apply (handleFrameTask_fit _ _ _ _ (withChan r rest) _ Hfit Ht).
    + destruct (tickFunc ref r) as [[r1 o]|] eqn:Ht; [|done]. cbn.
      destruct (run rescaleQ r1 acts) as [[r2 log2]|] eqn:Hrest; [|done]. cbn.
      intros [= <- <-]. apply (IH r1 r2 log2); [|done].
      by apply (tickFunc_fit _ _ _ _ Hfit Ht).
Qed.

(** X10. The items of the window are where they belong. In every state a
    new rate enforcer can reach, every slot that holds an item holds a frame
    of the slot's own node whose PTS lies in the slot, from [ptsMin]
    included to [ptsMax] excluded. *)
Theorem run_items_fit rescaleQ o acts :
  ∃ r' log, run rescaleQ (NewRateEnforcer o) acts = Some (r', log)
    ∧ Forall (λ os, ∀ s it, os = Some s → slotI s = Some it →
                itemN it = slotN s
                ∧ ptsMin s ≤ framePts (itemF it) < ptsMax s)
        (slots r').
Proof.
  destruct (run_window_from rescaleQ acts (NewRateEnforcer o))
    as (r' & log & Hrun & _).
  { done. } { cbn. lia. }
  exists r', log. split; [done|].
  assert (Hfit : itemsFit (slots r')).
  { apply (run_fit rescaleQ acts (NewRateEnforcer o) r' log); [|done].
    constructor; [apply fits_None|constructor]. }
  eapply Forall_impl; [exact Hfit|]. intros os Hos s it Hs Hi.
  specialize (Hos s it Hs Hi). unfold inRange in Hos.
  apply andb_true_iff in Hos as [Hos Hhi]. apply andb_true_iff in Hos as [Hn Hlo].
  apply bool_decide_eq_true in Hn. apply Z.leb_le in Hlo. apply Z.ltb_lt in Hhi.
  done.
Qed.

Lemma bounds_head sl sl' s :
  bounds sl = bounds sl' → head sl = Some (Some s) →
  ∃ s', head sl' = Some (Some s')
    ∧ slotN s' = slotN s ∧ ptsMax s' = ptsMax s ∧ ptsMin s' = ptsMin s.
Proof.
  destruct sl as [|os sl], sl' as [|[s'|] sl']; try done; cbn.
  - intros [= Hb _] [= ->]. cbn in Hb. injection Hb as Hn Hmax Hmin.
    by exists s'.
  - intros [= Hb _] [= ->]. done.
Qed.

(** The item a tick takes from the first slot fits the first slot as it
    was before the tick. *)
Lemma tickFunc_slot_head ref r r' it :
  itemsFit (slots r) → tickFunc ref r = Some (r', TickSlot it) →
  warm r = true
  ∧ ∃ s0, head (slots r) = Some (Some s0) ∧ inRange s0 it = true.
Proof.
  intros Hfit Ht.
  rewrite tickFunc_steps in Ht. destruct (warm r); last first.
  { destruct (addNextSlot r); [|done]. cbn in Ht. by injection Ht. }
  split; [done|].
  apply distribute_fit in Hfit. unfold dispatchTick in Ht.
  destruct (slot0Item (distribute r)) as [it0|] eqn:H0; last first.
  { destruct (Fill (f (distribute r))) as [[fm|] nd].
    - destruct (dispatchItem true _ _) as [r3 it'].
      destruct (addNextSlot _); [|done]. cbn in Ht. by injection Ht.
    - destruct (addNextSlot _); [|done]. cbn in Ht. by injection Ht. }
  destruct (dispatchItem false it0 _) as [r3 it'].
  destruct (addNextSlot _); [|done]. cbn in Ht. injection Ht as _ ->.
  destruct (slot0Item_head _ _ H0) as (s & Hhead & Hi).
  assert (Hin : inRange s it = true).
  { destruct (slots (distribute r)) as [|os sl]; [done|].
    cbn in Hhead. injection Hhead as ->.
    apply Forall_cons in Hfit as [Hs _]. by apply (Hs s it). }
  destruct (bounds_head _ _ s (distribute_bounds r) Hhead)
    as (s0 & Hs0 & Hn & Hmax & Hmin).
  exists s0. split; [done|]. unfold inRange in *. by rewrite Hn, Hmax, Hmin.
Qed.

Lemma inRange_spec s it :
  inRange s it = true
  ↔ itemN it = slotN s ∧ ptsMin s ≤ framePts (itemF it) < ptsMax s.
Proof.
  unfold inRange. rewrite !andb_true_iff, bool_decide_eq_true, Z.leb_le, Z.ltb_lt.
  tauto.
Qed.

(** X11. What a tick takes from the window. When the items of the window
    fit their slots, the item a tick dispatches from the first slot is a
    frame of the first slot's node whose PTS lies in the first slot as it
    was before the tick; the tick was one that found enough slots, and the
    items of the window it leaves fit their slots. *)
Theorem tick_dispatches_in_range ref r r' it :
  itemsFit (slots r) → tickFunc ref r = Some (r', TickSlot it) →
  warm r = true
  ∧ itemsFit (slots r')
  ∧ ∃ s0, head (slots r) = Some (Some s0)
      ∧ itemN it = slotN s0
      ∧ ptsMin s0 ≤ framePts (itemF it) < ptsMax s0.
Proof.
  intros Hfit Ht.
  destruct (tickFunc_slot_head _ _ _ _ Hfit Ht) as (Hw & s0 & Hs0 & Hin).
  split; [done|]. split; [by apply (tickFunc_fit _ _ _ _ Hfit Ht)|].
  exists s0. split; [done|]. by apply inRange_spec.
Qed.

Lemma bounds_lookup_eq sl sl' k s :
  bounds sl = bounds sl' → sl !! k = Some (Some s) →
  ∃ s', sl' !! k = Some (Some s')
    ∧ slotN s' = slotN s ∧ ptsMax s' = ptsMax s ∧ ptsMin s' = ptsMin s.
Proof.
  intros Hb Hk.
  assert (H : bounds sl' !! k = Some (Some (slotN s, ptsMax s, ptsMin s))).
  { rewrite <- Hb. unfold bounds. by rewrite list_lookup_fmap, Hk. }
  destruct (bounds_lookup _ _ _ _ _ H) as (s' & Hs' & ? & ? & ?). by exists s'.
Qed.

(** X23. Over a window whose slots touch, the frames taken from the slots
    come out in increasing order of PTS. When a tick dispatches the item of
    the first slot, and the next tick, made on a window whose slots have the
    bounds the first tick left, dispatches the item of its first slot, the
    PTS of the second item is greater than that of the first: the first lies
    below the end of its slot, where the slot of the second begins. *)
Theorem slot_dispatches_increase ref1 ref2 r r1 r1' r2 it1 it2 :
  itemsFit (slots r) → contiguous (slots r) →
  tickFunc ref1 r = Some (r1, TickSlot it1) →
  bounds (slots r1') = bounds (slots r1) → itemsFit (slots r1') →
  tickFunc ref2 r1' = Some (r2, TickSlot it2) →
  framePts (itemF it1) < framePts (itemF it2).
Proof.
  intros Hfit Hcont Ht1 Hb Hfit' Ht2.
  destruct (tickFunc_slot_head _ _ _ _ Hfit Ht1) as (Hw & s0 & Hs0 & Hin1).
  destruct (tickFunc_slot_head _ _ _ _ Hfit' Ht2) as (_ & s1' & Hs1' & Hin2).
  apply inRange_spec in Hin1 as (_ & _ & Hhi). apply inRange_spec in Hin2 as (_ & Hlo & _).
  enough (ptsMin s1' = ptsMax s0) by lia.
  assert (Hne : slots r ≠ []) by (by destruct (slots r)).
  destruct (tickFunc_slots ref1 r Hne) as (r1x & o & sl & ps & Ht & Hbsl & Hps & Hsl).
  rewrite Ht1 in Ht. injection Ht as <- <-. rewrite Hw in Hsl.
  assert (H0 : slots r !! 0%nat = Some (Some s0)) by (by destruct (slots r)).
  assert (H1' : slots r1' !! 0%nat = Some (Some s1')) by (by destruct (slots r1')).
  destruct (bounds_lookup_eq _ _ 0 s1' Hb H1') as (s1 & Hs1 & _ & _ & Hmin1).
  rewrite <- Hmin1. rewrite Hsl, lookup_drop in Hs1. cbn in Hs1.
  symmetry in Hbsl.
  destruct (bounds_lookup_eq _ _ 0 s0 Hbsl H0) as (sx & Hsx & _ & Hmaxx & _).
  assert (Hlen : length sl = length (slots r)).
  { by rewrite <- (bounds_length sl), <- Hbsl, bounds_length. }
  destruct (decide (length sl = 1%nat)) as [Hone|Hmore].
  - destruct sl as [|x [|y sl]]; try done. cbn in Hsx. injection Hsx as ->.
    cbn in Hps. injection Hps as <-. cbn in Hs1. injection Hs1 as <-.
    cbn. done.
  - assert (Hlt : (1 < length sl)%nat).
    { destruct sl as [|x [|y sl]]; cbn in *; try done; lia. }
    rewrite lookup_app_l in Hs1 by done.
    symmetry in Hbsl.
    destruct (bounds_lookup_eq _ _ 1 s1 Hbsl Hs1) as (sr & Hsr & _ & _ & Hminr).
    rewrite <- Hminr. by apply (Hcont 0%nat s0 sr).
Qed.

(** *** Frames taken from the pool *)

(** The number of items held by the slots of a window. *)
Definition slotItems (sl : list (option rateEnforcerSlot)) : nat :=
  length (omap (λ os : option rateEnforcerSlot, os ≫= slotI) sl).

(** The previous-frame filler holds a frame of the pool once it has copied
    one; the frame of the fixed-frame filler is not of the pool. *)
Definition fillerFrames (fl : RateEnforcerFiller) : nat :=
  match fl with
  | previousRateEnforcerFiller (Some _) _ => 1
  | _ => 0
  end.

(** The frames of the pool a rate enforcer holds: those captured by the
    functions waiting in the chan, those of the buffer, those of the slots
    and that of the filler. *)
Definition held (r : RateEnforcer) : nat :=
  (length (c r) + length (buf r) + slotItems (slots r) + fillerFrames (f r))%nat.

(** The frames taken from the pool that were neither given back nor are
    held any more. *)
Definition lost (r : RateEnforcer) : Z :=
  Z.of_nat (frameGets (p r)) - Z.of_nat (length (framePuts (p r)))
  - Z.of_nat (held r).

Definition itemCount (os : option rateEnforcerSlot) : nat :=
  match os ≫= slotI with Some _ => 1 | None => 0 end.

#[local] Arguments slotItems : simpl never.

Lemma slotItems_cons os sl : slotItems (os :: sl) = (itemCount os + slotItems sl)%nat.
Proof.
  unfold slotItems, itemCount. cbn [omap list_omap].
  by destruct (os ≫= slotI).
Qed.

Lemma slotItems_app sl sl' : slotItems (sl ++ sl') = (slotItems sl + slotItems sl')%nat.
Proof. unfold slotItems. by rewrite omap_app, length_app. Qed.

Lemma slotItems_insert sl k os os' :
  sl !! k = Some os →
  (slotItems (<[k := os']> sl) + itemCount os = slotItems sl + itemCount os')%nat.
Proof.
  revert k. induction sl as [|x sl IH]; intros [|k] Hk; try done; cbn in Hk.
  - injection Hk as ->. change (<[0%nat := os']> (os :: sl)) with (os' :: sl).
    rewrite !slotItems_cons. lia.
  - change (<[S k := os']> (x :: sl)) with (x :: <[k := os']> sl).
    rewrite !slotItems_cons. specialize (IH k Hk). lia.
Qed.

Lemma slotItems_drop sl :
  (slotItems (drop 1 sl) + default 0%nat (itemCount <$> head sl) = slotItems sl)%nat.
Proof.
  destruct sl as [|os sl]; [done|]. cbn [drop head fmap option_fmap option_map default].
  rewrite drop_0, slotItems_cons. unfold id. lia.
Qed.

Lemma scanSpec_balance ns : ∀ b s pl,
  let '(s', kept, pl') := scanSpec ns s b pl in
  frameGets pl' = frameGets pl
  ∧ (length (framePuts pl') + length kept + itemCount (Some s')
     = length (framePuts pl) + length b + itemCount (Some s))%nat.
Proof.
  induction b as [|it b IH]; intros s pl; [done|].
  assert (Hput : ∀ s0,
            let '(s', kept, pl') := scanSpec ns s0 b (framePut pl (itemF it)) in
            frameGets pl' = frameGets pl
            ∧ (length (framePuts pl') + length kept + itemCount (Some s')
               = length (framePuts pl) + length (it :: b) + itemCount (Some s0))%nat).
  { intros s0. specialize (IH s0 (framePut pl (itemF it))).
    destruct (scanSpec ns s0 b _) as [[s' kept] pl']. cbn in IH.
    rewrite length_app in IH. cbn in *. lia. }
  assert (Hkeep :
            let '(s', kept, pl') := scanSpec ns s b pl in
            frameGets pl' = frameGets pl
            ∧ (length (framePuts pl') + length (it :: kept) + itemCount (Some s')
               = length (framePuts pl) + length (it :: b) + itemCount (Some s))%nat).
  { specialize (IH s pl). destruct (scanSpec ns s b pl) as [[s' kept] pl'].
    cbn in *. lia. }
  cbn [scanSpec].
  destruct (negb (bool_decide (itemN it = slotN s))).
  - destruct (negb (useful ns (itemN it))); [apply Hput|].
    by destruct (scanSpec ns s b pl) as [[s' kept] pl'].
  - destruct ((ptsMin s <=? framePts (itemF it)) && (framePts (itemF it) <? ptsMax s)).
    + destruct (slotI s) eqn:Hs; [apply Hput|].
      specialize (IH (withItem s it) pl).
      destruct (scanSpec ns (withItem s it) b pl) as [[s' kept] pl'].
      unfold itemCount in *. cbn in *. rewrite Hs. lia.
    + destruct (framePts (itemF it) <? ptsMin s); [apply Hput|].
      by destruct (scanSpec ns s b pl) as [[s' kept] pl'].
Qed.

Lemma lost_eq r r' :
  frameGets (p r') = frameGets (p r) →
  (length (framePuts (p r')) + held r' = length (framePuts (p r)) + held r)%nat →
  lost r' = lost r.
Proof. unfold lost. lia. Qed.

Lemma distributeSlot_lost ns k r : lost (distributeSlot ns k r) = lost r.
Proof.
  unfold distributeSlot.
  destruct (slots r !! k) as [[s|]|] eqn:Hk; [|done..].
  destruct (slotI s) as [it|] eqn:Hi; [done|].
  rewrite scan_scanSpec by lia. rewrite drop_0, take_0.
  pose proof (scanSpec_balance ns (buf r) s (p r)) as Hb.
  destruct (scanSpec ns s (buf r) (p r)) as [[s' kept] pl']. cbn [app].
  destruct Hb as [Hg Hb].
  pose proof (slotItems_insert (slots r) k (Some s) (Some s') Hk) as Hins.
  apply lost_eq; [done|]. unfold held. cbn. lia.
Qed.

Lemma distribute_lost r : lost (distribute r) = lost r.
Proof.
  unfold distribute. generalize (usefulNodes (slots r)) as ns.
  generalize (seq 0 (length (slots r))) as ks. intros ks. revert r.
  induction ks as [|k ks IH]; intros r ns; [done|].
  cbn [foldl]. rewrite IH. apply distributeSlot_lost.
Qed.

Lemma NoFill_lost ref fm nd r : lost (NoFill ref fm nd r) = lost r.
Proof.
  unfold NoFill. destruct (f r) as [[ff|] n0|ff] eqn:Hf; [| |done];
    destruct ref as [err|]; unfold lost, held; cbn; rewrite ?length_app, Hf;
    cbn; lia.
Qed.

Lemma withFillerFrame_frames fl fm : fillerFrames (withFillerFrame fl fm) = fillerFrames fl.
Proof. by destruct fl as [[?|] ?|?]. Qed.

Lemma dispatchItem_lost filled it r : lost (dispatchItem filled it r).1 = lost r.
Proof.
  unfold dispatchItem.
  destruct (restamper r) as [rs|]; [destruct (Restamp rs (itemF it)) as [rs' fm']|];
    destruct filled; cbn; repeat case_match; unfold lost, held; cbn;
    rewrite ?withFillerFrame_frames; done.
Qed.

Lemma dispatchItem_pool filled it r :
  p (dispatchItem filled it r).1 = p r
  ∧ slots (dispatchItem filled it r).1 = slots r.
Proof.
  split; [|apply dispatchItem_slots].
  by destruct (dispatchItem_spec filled it r) as (fm & _ & _ & _ & _ & Hp & _).
Qed.

Lemma addNextSlot_lost r r' : addNextSlot r = Some r' → lost r' = lost r.
Proof.
  unfold addNextSlot. destruct (last (slots r)) as [ps|]; [|done].
  intros [= <-]. unfold lost, held. cbn. rewrite slotItems_app.
  assert (Hn : slotItems [next <$> ps] = 0%nat) by (by destruct ps).
  rewrite Hn. lia.
Qed.

Lemma slot0Item_count r :
  default 0%nat (itemCount <$> head (slots r))
  = match slot0Item r with Some _ => 1%nat | None => 0%nat end.
Proof.
  unfold slot0Item, itemCount. by destruct (slots r) as [|[s|] sl].
Qed.

Lemma removeFirstSlot_lost r :
  lost (removeFirstSlot r)
  = lost r + Z.of_nat (default 0%nat (itemCount <$> head (slots r))).
Proof.
  pose proof (slotItems_drop (slots r)) as Hd. unfold lost, held.
  cbn [removeFirstSlot withSlots c buf slots f p]. lia.
Qed.

Lemma addNextSlot_head r r' : addNextSlot r = Some r' → head (slots r') = head (slots r).
Proof.
  unfold addNextSlot. destruct (last (slots r)) as [ps|] eqn:Hl; [|done].
  intros [= <-]. cbn. by destruct (slots r).
Qed.

Lemma dispatchTick_lost ref r1 r' o :
  dispatchTick ref r1 = Some (r', o) → lost r' = lost r1.
Proof.
  unfold dispatchTick. pose proof (slot0Item_count r1) as H0.
  destruct (slot0Item r1) as [it|].
  - pose proof (NoFill_lost ref (itemF it) (itemN it) r1) as Hn.
    pose proof (NoFill_slots ref (itemF it) (itemN it) r1) as Hns.
    set (r2 := NoFill ref (itemF it) (itemN it) r1) in *.
    pose proof (dispatchItem_lost false it r2) as Hd.
    destruct (dispatchItem_pool false it r2) as [Hp Hs].
    destruct (dispatchItem false it r2) as [r3 it']. cbn [fst] in *.
    destruct (addNextSlot _) as [r5|] eqn:H5; [|done]. cbn. intros [= <- <-].
    rewrite removeFirstSlot_lost, (addNextSlot_head _ _ H5), (addNextSlot_lost _ _ H5).
    cbn [slots withPool]. rewrite Hs, Hns, H0.
    rewrite <- Hn, <- Hd. unfold lost, held. cbn. rewrite length_app. cbn. lia.
  - destruct (Fill (f r1)) as [[fm|] nd].
    + pose proof (dispatchItem_lost true (newRateEnforcerItem fm nd) r1) as Hd.
      destruct (dispatchItem_pool true (newRateEnforcerItem fm nd) r1) as [Hp Hs].
      destruct (dispatchItem true _ r1) as [r3 it']. cbn [fst] in *.
      destruct (addNextSlot _) as [r5|] eqn:H5; [|done]. cbn. intros [= <- <-].
      rewrite removeFirstSlot_lost, (addNextSlot_head _ _ H5), (addNextSlot_lost _ _ H5).
      cbn [slots withStatFilledRate]. rewrite Hs, H0.
      rewrite <- Hd. unfold lost, held. cbn. lia.
    + destruct (addNextSlot _) as [r5|] eqn:H5; [|done]. cbn. intros [= <- <-].
      rewrite removeFirstSlot_lost, (addNextSlot_head _ _ H5), (addNextSlot_lost _ _ H5).
      cbn [slots withStatFilledRate]. rewrite H0.
      unfold lost, held. cbn. lia.
Qed.

(** X12. A tick loses no frame. Over a tick, the frames taken from the
    pool and neither given back nor held (by the functions waiting in the
    chan, the buffer, the slots or the previous-frame filler) are as many as
    before: every frame [distribute] removes from the buffer goes to a slot
    or back to the pool, the frame dispatched from the first slot goes back
    to the pool when the slot is removed, and the filler gives back the
    frame whose copy failed. *)
Theorem tick_loses_no_frame ref r r' o :
  tickFunc ref r = Some (r', o) → lost r' = lost r.
Proof.
  rewrite tickFunc_steps. destruct (warm r).
  - intros Ht. rewrite (dispatchTick_lost _ _ _ _ Ht). apply distribute_lost.
  - destruct (addNextSlot r) as [r1|] eqn:H1; [|done]. cbn. intros [= <- <-].
    by apply addNextSlot_lost.
Qed.

Lemma HandleFrame_lost rescaleQ ref pl r :
  lost (HandleFrame rescaleQ ref pl r)
  = lost r + match ref with Some _ => 1 | None => 0 end.
Proof.
  unfold HandleFrame, lost, held. destruct ref; cbn; rewrite ?length_app; cbn; lia.
Qed.

Lemma runTask_lost rescaleQ ref r r' fm pn rest :
  c r = (fm, pn) :: rest → runTask rescaleQ ref r = Some r' →
  ∃ ls, last (slots r) = Some ls
    ∧ ((slots r' = slots r
        ∧ lost r' = lost r + match ref with Some _ => 1 | None => 0 end)
       ∨ (slots r' = <[pred (length (slots r)) := Some (newRateEnforcerSlot r fm)]>
                       (slots r)
          ∧ lost r' = lost r + match ref with Some _ => 1 | None => 0 end
                      + Z.of_nat (itemCount ls))).
Proof.
  intros Hc. unfold runTask. rewrite Hc. unfold handleFrameTask.
  cbn [slots withStatProcessedRate withChan].
  destruct (last (slots r)) as [ls|] eqn:Hlast; [|done]. intros [= <-].
  exists ls. split; [done|].
  assert (Hk : slots r !! pred (length (slots r)) = Some ls)
    by (by rewrite <- last_lookup).
  pose proof (slotItems_insert (slots r) _ ls (Some (newRateEnforcerSlot r fm)) Hk)
    as Hins.
  change (itemCount (Some (newRateEnforcerSlot r fm))) with 0%nat in Hins.
  unfold newRateEnforcerSlot in *. cbn [n slotWidth withStatProcessedRate withChan].
  destruct ref as [err|]; repeat case_match;
    cbn [slots emit withEmitted withSlots withPool withBuf withStatDelayAvg];
    first [ left; split; [done|] | right; split; [done|] ];
    unfold lost, held; cbn [c buf slots f p emit withEmitted withSlots withPool
      withBuf withStatDelayAvg withStatProcessedRate withChan frameGets framePuts
      frameGet framePut];
    rewrite ?length_app, Hc; cbn [length]; lia.
Qed.

(** X13. The frames lost during intake. A call of [HandleFrame] whose copy
    fails takes a frame from the pool that is never given back; one whose
    copy succeeds hands its frame to the chan. The function run by the chan
    always gives back the frame it was handed; when its copy fails, the
    frame taken for the item is never given back; and when it replaces the
    last slot, the item that slot held, if any, leaves the window without
    its frame going back to the pool. Nothing else is lost. *)
Theorem intake_frames rescaleQ ref r :
  (∀ pl, lost (HandleFrame rescaleQ ref pl r)
         = lost r + match ref with Some _ => 1 | None => 0 end)
  ∧ (c r = [] → runTask rescaleQ ref r = Some r)
  ∧ (∀ fm pn rest r',
       c r = (fm, pn) :: rest → runTask rescaleQ ref r = Some r' →
       ∃ ls, last (slots r) = Some ls
         ∧ ((slots r' = slots r
             ∧ lost r' = lost r + match ref with Some _ => 1 | None => 0 end)
            ∨ (slots r'
               = <[pred (length (slots r)) := Some (newRateEnforcerSlot r fm)]> (slots r)
               ∧ lost r' = lost r + match ref with Some _ => 1 | None => 0 end
                           + Z.of_nat (itemCount ls)))).
Proof.
  split_and!.
  - intros pl. apply HandleFrame_lost.
  - intros Hc. unfold runTask. by rewrite Hc.
  - intros fm pn rest r'. apply runTask_lost.
Qed.

(** *** Switched-out events *)

(** The nodes of the switched-out events, in order. *)
Definition switchedOut (evs : list event) : list Node :=
  omap (λ ev, match ev with
              | EventRateEnforcerSwitchedOut nd => Some nd
              | _ => None
              end) evs.

(** No node is announced twice in a row, and none is nil. *)
Fixpoint alternating (prev : Node) (nds : list Node) : Prop :=
  match nds with
  | [] => True
  | nd :: nds' => nd ≠ None ∧ nd ≠ prev ∧ alternating nd nds'
  end.

(** The events emitted so far announce a new node every time, and
    [previousNode] is the last node announced. *)
Definition announced (r : RateEnforcer) : Prop :=
  alternating None (switchedOut (emitted r))
  ∧ previousNode r = default None (last (switchedOut (emitted r))).

(** [r'] has announced what [r] has, and nothing more. *)
Definition quiet (r r' : RateEnforcer) : Prop :=
  switchedOut (emitted r') = switchedOut (emitted r)
  ∧ previousNode r' = previousNode r.

Lemma switchedOut_app evs evs' :
  switchedOut (evs ++ evs') = switchedOut evs ++ switchedOut evs'.
Proof. apply omap_app. Qed.

Lemma quiet_announced r r' : quiet r r' → announced r → announced r'.
Proof. intros [He Hp] [Ha Hl]. unfold announced. by rewrite He, Hp. Qed.

Lemma quiet_trans r1 r2 r3 : quiet r1 r2 → quiet r2 r3 → quiet r1 r3.
Proof. intros [? ?] [? ?]. split; congruence. Qed.

Lemma distribute_quiet r : quiet r (distribute r).
Proof. destruct (distribute_only r) as (sl & b & pl & ->). done. Qed.

Lemma NoFill_quiet ref fm nd r : quiet r (NoFill ref fm nd r).
Proof.
  unfold NoFill, quiet. repeat case_match; cbn; rewrite ?switchedOut_app; cbn;
    rewrite ?app_nil_r; done.
Qed.

Lemma HandleFrame_quiet rescaleQ ref pl r : quiet r (HandleFrame rescaleQ ref pl r).
Proof.
  unfold HandleFrame, quiet. destruct ref; cbn; rewrite ?switchedOut_app; cbn;
    rewrite ?app_nil_r; done.
Qed.

Lemma runTask_quiet rescaleQ ref r r' : runTask rescaleQ ref r = Some r' → quiet r r'.
Proof.
  unfold runTask. destruct (c r) as [|[fm pn] rest]; [by intros [= <-]|].
  unfold handleFrameTask. cbn [slots withStatProcessedRate withChan].
  destruct (last (slots r)) as [ls|]; [|done]. intros [= <-].
  unfold quiet. repeat case_match; cbn; rewrite ?switchedOut_app; cbn;
    rewrite ?app_nil_r; done.
Qed.

Lemma addNextSlot_quiet r r' : addNextSlot r = Some r' → quiet r r'.
Proof.
  unfold addNextSlot. destruct (last (slots r)); [|done]. by intros [= <-].
Qed.

Lemma alternating_snoc prev nds nd :
  alternating prev nds → nd ≠ None → nd ≠ default prev (last nds) →
  alternating prev (nds ++ [nd]).
Proof.
  revert prev. induction nds as [|x nds IH]; intros prev Ha Hn Hl.
  - cbn in *. done.
  - destruct Ha as (Hx & Hp & Ha). cbn. split_and!; [done..|].
    apply IH; [done..|]. rewrite last_cons in Hl.
    by destruct (last nds).
Qed.

Lemma dispatchItem_emitted filled it r :
  (emitted (dispatchItem filled it r).1 = emitted r
   ∧ previousNode (dispatchItem filled it r).1 = previousNode r)
  ∨ (emitted (dispatchItem filled it r).1
     = emitted r ++ [EventRateEnforcerSwitchedOut (itemN it)]
     ∧ previousNode (dispatchItem filled it r).1 = itemN it
     ∧ itemN it ≠ None ∧ previousNode r ≠ itemN it).
Proof.
  unfold dispatchItem.
  destruct (restamper r) as [rs|]; [destruct (Restamp rs (itemF it)) as [rs' fm']|];
    destruct filled; cbn [fst]; destruct (itemN it) as [x|] eqn:Hn;
    try (by left);
    cbn [previousNode withDispatched withFiller withRestamper];
    (case_bool_decide as Hprev; cbn [negb]; [by left|]); right; done.
Qed.

Lemma dispatchItem_announced filled it r :
  announced r → announced (dispatchItem filled it r).1.
Proof.
  intros [Ha Hl].
  destruct (dispatchItem_emitted filled it r) as [[He Hp]|(He & Hp & Hn & Hne)];
    unfold announced; rewrite He, Hp; [done|].
  rewrite switchedOut_app. cbn [switchedOut omap list_omap].
  split; [|by rewrite last_snoc].
  apply alternating_snoc; [done|done|]. intros Heq. apply Hne.
  etrans; [exact Hl|]. symmetry. exact Heq.
Qed.

Lemma dispatchTick_announced ref r1 r' o :
  announced r1 → dispatchTick ref r1 = Some (r', o) → announced r'.
Proof.
  intros Ha. unfold dispatchTick. destruct (slot0Item r1) as [it|].
  - pose proof (dispatchItem_announced false it (NoFill ref (itemF it) (itemN it) r1)
                  (quiet_announced _ _ (NoFill_quiet _ _ _ _) Ha)) as Hd.
    destruct (dispatchItem false it _) as [r3 it']. cbn [fst] in Hd.
    destruct (addNextSlot _) as [r5|] eqn:H5; [|done]. cbn. intros [= <- <-].
    apply addNextSlot_quiet in H5.
    apply (quiet_announced r3); [|done]. destruct H5 as [He Hp]. by split.
  - destruct (Fill (f r1)) as [[fm|] nd].
    + pose proof (dispatchItem_announced true (newRateEnforcerItem fm nd) r1 Ha) as Hd.
      destruct (dispatchItem true _ _) as [r3 it']. cbn [fst] in Hd.
      destruct (addNextSlot _) as [r5|] eqn:H5; [|done]. cbn. intros [= <- <-].
      apply addNextSlot_quiet in H5.
      apply (quiet_announced r3); [|done]. destruct H5 as [He Hp]. by split.
    + destruct (addNextSlot _) as [r5|] eqn:H5; [|done]. cbn. intros [= <- <-].
      apply addNextSlot_quiet in H5.
      apply (quiet_announced r1); [|done]. destruct H5 as [He Hp]. by split.
Qed.

Lemma tickFunc_announced ref r r' o :
  announced r → tickFunc ref r = Some (r', o) → announced r'.
Proof.
  intros Ha. rewrite tickFunc_steps. destruct (warm r).
  - apply dispatchTick_announced.
    apply (quiet_announced r); [apply distribute_quiet|done].
  - destruct (addNextSlot r) as [r1|] eqn:H1; [|done]. cbn. intros [= <- <-].
    apply (quiet_announced r); [by apply addNextSlot_quiet|done].
Qed.

Lemma run_announced rescaleQ : ∀ acts r r' log,
  announced r → run rescaleQ r acts = Some (r', log) → announced r'.
Proof.
  induction acts as [|a acts IH]; intros r r' log Ha; cbn [run].
  - by intros [= <- <-].
  - destruct a as [nd|ref pl|ref|ref].
    + by apply IH.
    + apply IH. apply (quiet_announced r); [apply HandleFrame_quiet|done].
    + destruct (runTask rescaleQ ref r) as [r1|] eqn:Ht; [|done]. cbn.
      apply IH. apply (quiet_announced r); [by apply (runTask_quiet rescaleQ ref)|done].
    + destruct (tickFunc ref r) as [[r1 o]|] eqn:Ht; [|done]. cbn.
      destruct (run rescaleQ r1 acts) as [[r2 log2]|] eqn:Hrest; [|done]. cbn.
      intros [= <- <-]. apply (IH r1 r2 log2); [|done].
      by apply (tickFunc_announced _ _ _ _ Ha Ht).
Qed.

Lemma alternating_lookup prev nds :
  alternating prev nds →
  Forall (λ nd, nd ≠ None) nds
  ∧ ∀ k a b, nds !! k = Some a → nds !! S k = Some b → a ≠ b.
Proof.
  revert prev. induction nds as [|x nds IH]; intros prev Ha.
  - split; [constructor|]. by intros k a b.
  - destruct Ha as (Hx & Hp & Ha). destruct (IH x Ha) as [Hall Hadj].
    split; [by constructor|]. intros [|k] a b Hka Hkb; cbn in Hka, Hkb.
    + injection Hka as <-. destruct nds as [|y nds]; [done|].
      cbn in Hkb. injection Hkb as <-. destruct Ha as (_ & Hne & _). congruence.
    + by apply (Hadj k).
Qed.

(** X14. Switched-out events announce a change. Along every run of a new
    rate enforcer, a switched-out event never carries a nil node, two
    consecutive switched-out events never carry the same node, and
    [previousNode] is the node of the last one. *)
Theorem switched_out_alternate rescaleQ o acts :
  ∃ r' log, run rescaleQ (NewRateEnforcer o) acts = Some (r', log)
    ∧ Forall (λ nd, nd ≠ None) (switchedOut (emitted r'))
    ∧ (∀ k a b, switchedOut (emitted r') !! k = Some a →
         switchedOut (emitted r') !! S k = Some b → a ≠ b)
    ∧ previousNode r' = default None (last (switchedOut (emitted r'))).
Proof.
  destruct (run_window_from rescaleQ acts (NewRateEnforcer o))
    as (r' & log & Hrun & _).
  { done. } { cbn. lia. }
  exists r', log. split; [done|].
  destruct (run_announced rescaleQ acts (NewRateEnforcer o) r' log) as [Ha Hl];
    [by split|done|].
  destruct (alternating_lookup _ _ Ha) as [Hall Hadj]. done.
Qed.

(** *** The slots that follow a slot *)

Lemma wrap_slide a b :
  Int64.wrap (Int64.wrap a - Int64.wrap b + Int64.wrap a) = Int64.wrap (a - b + a).
Proof.
  apply Int64.wrap_congr.
  pose proof (Int64.wrap_mod a) as Ha. pose proof (Int64.wrap_mod b) as Hb.
  apply Z.mod_divide in Ha; [|lia]. apply Z.mod_divide in Hb; [|lia].
  apply Z.mod_divide; [lia|].
  replace (Int64.wrap a - Int64.wrap b + Int64.wrap a - (a - b + a))
    with ((Int64.wrap a - a) + (Int64.wrap a - a) - (Int64.wrap b - b)) by lia.
  apply Z.divide_sub_r; [|done]. by apply Z.divide_add_r.
Qed.

(** X15. The slots that follow a slot tile the PTS axis. The [k]-th slot
    after a slot has the slot's node, no item, and the slot's bounds moved
    by [k] times the slot's width, within [int64]. *)
Theorem next_iterated s k :
  Int64.in_range (ptsMin s) → Int64.in_range (ptsMax s) →
  let w := ptsMax s - ptsMin s in
  let sk := Nat.iter k next s in
  ptsMin sk = Int64.wrap (ptsMin s + Z.of_nat k * w)
  ∧ ptsMax sk = Int64.wrap (ptsMax s + Z.of_nat k * w)
  ∧ slotN sk = slotN s
  ∧ ((0 < k)%nat → slotI sk = None).
Proof.
  intros Hmin Hmax. cbn zeta. induction k as [|k IH].
  - cbn. rewrite !Z.add_0_r, !Int64.wrap_id by done. split_and!; [done..|lia].
  - destruct IH as (Hlo & Hhi & Hn & _). rewrite Nat.iter_succ. cbn [next ptsMin ptsMax slotN slotI].
    split_and!; [| |done|done].
    + rewrite Hhi. f_equal. lia.
    + unfold Int64.add, Int64.sub. rewrite Int64.wrap_add_l, Hhi, Hlo, wrap_slide.
      f_equal. lia.
Qed.

(** *** Filling a gap *)

Lemma dispatchItem_restamper filled it r :
  restamper r = None → restamper (dispatchItem filled it r).1 = None.
Proof.
  intros Hr. unfold dispatchItem. rewrite Hr.
  destruct filled; cbn; by repeat case_match.
Qed.

Lemma addNextSlot_restamper r r' : addNextSlot r = Some r' → restamper r' = restamper r.
Proof.
  unfold addNextSlot. destruct (last (slots r)); [|done]. by intros [= <-].
Qed.

Lemma tickFunc_restamper ref r r' o :
  tickFunc ref r = Some (r', o) → restamper r = None → restamper r' = None.
Proof.
  rewrite tickFunc_steps. intros Ht Hr. destruct (warm r).
  - assert (Hd : restamper (distribute r) = None).
    { destruct (distribute_only r) as (sl & b & pl & ->). done. }
    revert Ht. unfold dispatchTick. destruct (slot0Item (distribute r)) as [it|].
    + destruct (NoFill_fields ref (itemF it) (itemN it) (distribute r)) as (_ & Hn & _).
      pose proof (dispatchItem_restamper false it
                    (NoFill ref (itemF it) (itemN it) (distribute r))) as Hi.
      destruct (dispatchItem false it _) as [r3 it']. cbn [fst] in Hi.
      destruct (addNextSlot _) as [r5|] eqn:H5; [|done]. cbn. intros [= <- <-].
      cbn. rewrite (addNextSlot_restamper _ _ H5). cbn. apply Hi. congruence.
    + destruct (Fill (f (distribute r))) as [[fm|] nd].
      * pose proof (dispatchItem_restamper true (newRateEnforcerItem fm nd)
                      (distribute r) Hd) as Hi.
        destruct (dispatchItem true _ _) as [r3 it']. cbn [fst] in Hi.
        destruct (addNextSlot _) as [r5|] eqn:H5; [|done]. cbn. intros [= <- <-].
        cbn. by rewrite (addNextSlot_restamper _ _ H5).
      * destruct (addNextSlot _) as [r5|] eqn:H5; [|done]. cbn. intros [= <- <-].
        cbn. by rewrite (addNextSlot_restamper _ _ H5).
  - destruct (addNextSlot r) as [r1|] eqn:H1; [|done]. cbn in Ht.
    injection Ht as <- <-. by rewrite (addNextSlot_restamper _ _ H1).
Qed.

(** X16. A gap is filled with the frame dispatched last. With the
    previous-frame filler and no restamper, when a tick dispatches the item
    of the first slot and the next tick finds the first slot without an
    item, that tick dispatches the same frame again if the filler's copy
    succeeded during the first tick, and dispatches nothing if it failed;
    either way the node remembered by the filler is the node of the item. *)
Theorem gap_repeats_last_frame ref1 ref2 r r1 r2 it o ff nd :
  restamper r = None → f r = previousRateEnforcerFiller ff nd →
  tickFunc ref1 r = Some (r1, TickSlot it) →
  tickFunc ref2 r1 = Some (r2, o) → isFilled o = true →
  Fill (f r1)
  = (match ref1 with None => Some (itemF it) | Some _ => None end, itemN it)
  ∧ o = TickFilled (match ref1 with None => Some (itemF it) | Some _ => None end)
  ∧ dispatched r2
    = dispatched r ++ itemF it ::
        match ref1 with None => [itemF it] | Some _ => [] end.
Proof.
  intros Hrs Hf Ht1 Ht2 Hfilled.
  pose proof (tickFunc_restamper _ _ _ _ Ht1 Hrs) as Hrs1.
  assert (Hfd : f (distribute r) = f r).
  { destruct (distribute_only r) as (sl & b & pl & ->). done. }
  destruct (tickFunc_cases _ _ _ _ Ht1)
    as [(_ & Ho & _)|[(_ & it0 & _ & Ho & _ & Hf1 & fm & Hd1 & Hfm & _)|(_ & _ & _ & _ & Hm)]].
  { done. }
  2: { destruct ((Fill (f r)).1); [by destruct Hm as (? & ? & _)|by destruct Hm]. }
  injection Ho as <-. rewrite (Hfm Hrs) in Hd1.
  assert (Hfill : Fill (f r1)
                  = (match ref1 with None => Some (itemF it) | Some _ => None end,
                     itemN it)).
  { rewrite Hf1. unfold NoFill. rewrite Hfd, Hf.
    by destruct ff, ref1. }
  split; [done|].
  destruct (tickFunc_cases _ _ _ _ Ht2)
    as [(_ & -> & _)|[(_ & it2 & _ & -> & _)|(_ & _ & _ & _ & Hm)]]; [done..|].
  rewrite Hfill in Hm. cbn [fst] in Hm. destruct ref1 as [err|].
  - destruct Hm as [-> Hd2]. split; [done|]. by rewrite Hd2, Hd1.
  - destruct Hm as (fm2 & -> & Hd2 & Hfm2). rewrite (Hfm2 Hrs1) in *.
    split; [done|]. rewrite Hd2, Hd1, <- app_assoc. done.
Qed.

(** *** Examples *)

(** A rate enforcer with one slot to wait for, switched to node 1, that has
    taken in one frame of node 1 with PTS 0; the same after one tick and
    after two. *)
Definition fedEnforcer : RateEnforcer :=
  default oneSlot
    (runTask RescaleQ None
       (HandleFrame RescaleQ None (payloadOf 0 1 1) (Switch (Some 1%nat) oneSlot))).

Definition afterTick (r : RateEnforcer) : RateEnforcer :=
  default r (fst <$> tickFunc None r).

Definition fedItem : rateEnforcerItem := mkItem (mkFrame 0 1) (Some 1%nat).

Lemma fedEnforcer_tick :
  tickFunc None fedEnforcer = Some (afterTick fedEnforcer, TickSlot fedItem).
Proof. vm_compute. reflexivity. Qed.

Lemma tick_dispatches_in_range_witness :
  warm fedEnforcer = true
  ∧ ∃ s0, head (slots fedEnforcer) = Some (Some s0)
      ∧ itemN fedItem = slotN s0
      ∧ ptsMin s0 ≤ framePts (itemF fedItem) < ptsMax s0.
Proof.
  destruct (tick_dispatches_in_range None fedEnforcer (afterTick fedEnforcer) fedItem)
    as (Hw & _ & Hs0).
  - assert (Hs : slots fedEnforcer = [Some (mkSlot None (Some 1%nat) 40 0)])
      by (vm_compute; reflexivity).
    rewrite Hs. constructor; [|constructor]. intros s it [= <-] Hi. discriminate.
  - exact fedEnforcer_tick.
  - split; [exact Hw|exact Hs0].
Defined.

Lemma tick_loses_no_frame_witness :
  lost (afterTick fedEnforcer) = lost fedEnforcer
  ∧ frameGets (p (afterTick fedEnforcer)) = 3%nat
  ∧ length (framePuts (p (afterTick fedEnforcer))) = 2%nat
  ∧ held (afterTick fedEnforcer) = 1%nat.
Proof.
  split.
  - apply (tick_loses_no_frame None fedEnforcer (afterTick fedEnforcer) (TickSlot fedItem)).
    exact fedEnforcer_tick.
  - split_and!; vm_compute; reflexivity.
Defined.

Lemma intake_frames_witness :
  ∃ r', runTask RescaleQ None
          (HandleFrame RescaleQ None (payloadOf 0 1 1) (Switch (Some 1%nat) oneSlot))
        = Some r'
    ∧ lost r' = lost oneSlot.
Proof.
  set (r := HandleFrame RescaleQ None (payloadOf 0 1 1) (Switch (Some 1%nat) oneSlot)).
  destruct (intake_frames RescaleQ None r) as (_ & _ & Htask).
  destruct (intake_frames RescaleQ None (Switch (Some 1%nat) oneSlot)) as (Hin & _ & _).
  exists fedEnforcer. split; [vm_compute; reflexivity|].
  destruct (Htask (mkFrame 0 1) (Some 1%nat) [] fedEnforcer) as (ls & Hls & Hl).
  { reflexivity. } { vm_compute. reflexivity. }
  injection Hls as <-. specialize (Hin (payloadOf 0 1 1)). fold r in Hin.
  destruct Hl as [[_ ->]|[_ ->]]; rewrite Hin; reflexivity.
Defined.

Lemma next_iterated_witness :
  ptsMin (Nat.iter 3 next (mkSlot None (Some 1%nat) 40 0)) = 120
  ∧ ptsMax (Nat.iter 3 next (mkSlot None (Some 1%nat) 40 0)) = 160
  ∧ slotN (Nat.iter 3 next (mkSlot None (Some 1%nat) 40 0)) = Some 1%nat
  ∧ slotI (Nat.iter 3 next (mkSlot None (Some 1%nat) 40 0)) = None.
Proof.
  destruct (next_iterated (mkSlot None (Some 1%nat) 40 0) 3) as (H1 & H2 & H3 & H4).
  - vm_compute. split; discriminate.
  - vm_compute. split; discriminate.
  - split_and!; [exact H1|exact H2|exact H3|apply H4; lia].
Defined.

Lemma fedEnforcer_second_tick :
  tickFunc None (afterTick fedEnforcer)
  = Some (afterTick (afterTick fedEnforcer), TickFilled (Some (mkFrame 0 1))).
Proof. vm_compute. reflexivity. Qed.

Lemma gap_repeats_last_frame_witness :
  Fill (f (afterTick fedEnforcer)) = (Some (mkFrame 0 1), Some 1%nat)
  ∧ dispatched (afterTick (afterTick fedEnforcer)) = [mkFrame 0 1; mkFrame 0 1].
Proof.
  destruct (gap_repeats_last_frame None None fedEnforcer (afterTick fedEnforcer)
              (afterTick (afterTick fedEnforcer)) fedItem
              (TickFilled (Some (mkFrame 0 1))) None None)
    as (Hfill & _ & Hd).
  - reflexivity.
  - reflexivity.
  - exact fedEnforcer_tick.
  - exact fedEnforcer_second_tick.
  - reflexivity.
  - split; [exact Hfill|exact Hd].
Defined.

(** The rate enforcer of the examples after its first tick and the intake
    of a second frame of node 1, with PTS 40. *)
Definition fedAgain : RateEnforcer :=
  default (afterTick fedEnforcer)
    (runTask RescaleQ None
       (HandleFrame RescaleQ None (payloadOf 40 2 1) (afterTick fedEnforcer))).

Definition fedAgainItem : rateEnforcerItem := mkItem (mkFrame 40 2) (Some 1%nat).

Lemma fedAgain_tick :
  tickFunc None fedAgain = Some (afterTick fedAgain, TickSlot fedAgainItem).
Proof. vm_compute. reflexivity. Qed.

Lemma slot_dispatches_increase_witness :
  framePts (itemF fedItem) < framePts (itemF fedAgainItem).
Proof.
  assert (Hs : slots fedEnforcer = [Some (mkSlot None (Some 1%nat) 40 0)])
    by (vm_compute; reflexivity).
  assert (Hs' : slots fedAgain = [Some (mkSlot None (Some 1%nat) 80 40)])
    by (vm_compute; reflexivity).
  apply (slot_dispatches_increase None None fedEnforcer (afterTick fedEnforcer)
           fedAgain (afterTick fedAgain) fedItem fedAgainItem).
  - rewrite Hs. constructor; [|constructor]. intros s it [= <-] Hi. discriminate.
  - rewrite Hs. intros k s s' Hk Hk'. destruct k; discriminate.
  - exact fedEnforcer_tick.
  - vm_compute. reflexivity.
  - rewrite Hs'. constructor; [|constructor]. intros s it [= <-] Hi. discriminate.
  - exact fedAgain_tick.
Defined.

(** A run of a rate enforcer that waits for two slots. *)
Definition twoSlotsOptions : RateEnforcerOptions :=
  mkOptions false 2 None (mkRational 1 1000) 40 None.

Lemma run_window_witness :
  ∃ r' log, run RescaleQ (NewRateEnforcer twoSlotsOptions) switchRun = Some (r', log)
    ∧ length log = ticks switchRun
    ∧ Z.of_nat (length (slots r')) = 2
    ∧ fst <$> log = (λ k, bool_decide (1 ≤ k)%nat) <$> seq 0 (ticks switchRun).
Proof.
  destruct (run_window RescaleQ twoSlotsOptions switchRun)
    as (r' & log & Hrun & Hlog & Hlen & Hflags).
  - vm_compute. split; discriminate.
  - exists r', log. split; [exact Hrun|]. split; [exact Hlog|].
    split; [rewrite Hlen; vm_compute; reflexivity|].
    rewrite Hflags. vm_compute. reflexivity.
Defined.

End EnforcerFacts.

(** ** Forwarder *)

Module Forwarder.

Import Av Core RateEnforcer.

(** [atomic.AddUint64(&x, 1)] *)
Definition incr (x : Z) : Z := (x + 1) mod 2 ^ 64.

(** [Forwarder]. [c] holds the functions added to the [astikit.Chan] and not
    yet run, each with the frame and the descriptor it captured;
    [dispatched] and [emitted] record what was handed to the frame
    dispatcher and to the event handler. *)
Record Forwarder := mkForwarder {
  c : list (Frame * Rational);
  dispatched : list (Frame * Rational);
  emitted : list event;
  p : framePool;
  restamper : option FrameRestamper;
  statFramesProcessed : Z;
  statFramesReceived : Z
}.

(** [NewForwarder] *)
Definition NewForwarder (rs : option FrameRestamper) : Forwarder :=
  mkForwarder [] [] [] (mkFramePool 0 []) rs 0 0.

(** [Forwarder.HandleFrame], up to the point where the rest is added to the
    chan, on a node that is not closed. [refResult] is what
    [fm.Ref(p.Frame)] returns. *)
Definition HandleFrame (refResult : option error) (pl : FrameHandlerPayload)
    (fw : Forwarder) : Forwarder :=
  let received := incr (statFramesReceived fw) in
  let p1 := frameGet (p fw) in
  match refResult with
  | Some err =>
      mkForwarder (c fw) (dispatched fw)
        (emitted fw ++ [EventError err "refing frame"]) p1 (restamper fw)
        (statFramesProcessed fw) received
  | None =>
      mkForwarder (c fw ++ [(payloadFrame pl, payloadDescriptor pl)])
        (dispatched fw) (emitted fw) p1 (restamper fw)
        (statFramesProcessed fw) received
  end.

(** The chan runs the function [HandleFrame] added first: the frame is
    restamped, dispatched with the payload's descriptor, and given back to
    the pool when the function returns. *)
Definition runTask (fw : Forwarder) : Forwarder :=
  match c fw with
  | [] => fw
  | (fm, d) :: rest =>
      let '(rs, fm') :=
        match restamper fw with
        | Some rs => let '(rs', fm') := Restamp rs fm in (Some rs', fm')
        | None => (None, fm)
        end in
      mkForwarder rest (dispatched fw ++ [(fm', d)]) (emitted fw)
        (framePut (p fw) fm') rs (incr (statFramesProcessed fw))
        (statFramesReceived fw)
  end.

(** What happens to a forwarder: a frame comes in, or the chan runs its
    next function. *)
Inductive action :=
  | ActHandleFrame (refResult : option error) (pl : FrameHandlerPayload)
  | ActRunTask.

Definition step (fw : Forwarder) (a : action) : Forwarder :=
  match a with
  | ActHandleFrame ref pl => HandleFrame ref pl fw
  | ActRunTask => runTask fw
  end.

Definition run (fw : Forwarder) (acts : list action) : Forwarder := foldl step fw acts.

(** The frames whose copy succeeded, each with its descriptor, in order of
    arrival. *)
Definition accepted (acts : list action) : list (Frame * Rational) :=
  omap (λ a, match a with
             | ActHandleFrame None pl => Some (payloadFrame pl, payloadDescriptor pl)
             | _ => None
             end) acts.

(** The errors of the copies that failed, in order. *)
Definition refused (acts : list action) : list event :=
  omap (λ a, match a with
             | ActHandleFrame (Some err) _ => Some (EventError err "refing frame")
             | _ => None
             end) acts.

(** The frames that came in. *)
Definition arrivals (acts : list action) : nat :=
  count (λ a, match a with ActHandleFrame _ _ => true | ActRunTask => false end) acts.

(** What holds of a forwarder after the actions [acts]. *)
Definition reached (rs : option FrameRestamper) (acts : list action)
    (fw : Forwarder) : Prop :=
  (dispatched fw ++ c fw).*2 = (accepted acts).*2
  ∧ length (dispatched fw ++ c fw) = length (accepted acts)
  ∧ (rs = None → restamper fw = None ∧ dispatched fw ++ c fw = accepted acts)
  ∧ emitted fw = refused acts
  ∧ frameGets (p fw) = arrivals acts
  ∧ framePuts (p fw) = (dispatched fw).*1
  ∧ statFramesReceived fw = Z.of_nat (arrivals acts) mod 2 ^ 64
  ∧ statFramesProcessed fw = Z.of_nat (length (dispatched fw)) mod 2 ^ 64.

Lemma count_app {A} (P : A → bool) l l' :
  count P (l ++ l') = (count P l + count P l')%nat.
Proof. induction l as [|x l IH]; [done|]. cbn. rewrite IH. lia. Qed.

Lemma incr_mod n : incr (Z.of_nat n mod 2 ^ 64) = Z.of_nat (S n) mod 2 ^ 64.
Proof.
  unfold incr. rewrite Zplus_mod_idemp_l. f_equal. lia.
Qed.

Lemma reached_step rs acts fw a :
  reached rs acts fw → reached rs (acts ++ [a]) (step fw a).
Proof.
  intros (Hd & Hlen & Hnone & Hev & Hg & Hp & Hrcv & Hprc).
  unfold reached, accepted, refused, arrivals.
  rewrite !omap_app, count_app. fold (accepted acts) (refused acts) (arrivals acts).
  destruct a as [[err|] pl|]; cbn [step omap list_omap count].
  - unfold HandleFrame. cbn [c dispatched emitted p restamper statFramesProcessed
      statFramesReceived frameGet frameGets framePuts].
    rewrite !app_nil_r, Hrcv, incr_mod.
    split_and!; try done; try (f_equal; lia). by rewrite Hev.
  - unfold HandleFrame. cbn [c dispatched emitted p restamper statFramesProcessed
      statFramesReceived frameGet frameGets framePuts].
    rewrite !app_nil_r, Hrcv, incr_mod, !app_assoc.
    split_and!; try done; try (f_equal; lia).
    + by rewrite (fmap_app snd (dispatched fw ++ c fw)),
           (fmap_app snd (accepted acts)), Hd.
    + rewrite (length_app (dispatched fw ++ c fw)), (length_app (accepted acts)).
      by rewrite Hlen.
    + intros Hrs. destruct (Hnone Hrs) as [Hr Hacc]. by rewrite Hacc.
  - rewrite !app_nil_r, Nat.add_0_r. unfold runTask.
    destruct (c fw) as [|[fm d] rest] eqn:Hc; [by rewrite Hc|].
    assert (Hshape : ∃ rs' fm',
              match restamper fw with
              | Some rs0 => let '(rs', fm') := Restamp rs0 fm in (Some rs', fm')
              | None => (None, fm)
              end = (rs', fm')
              ∧ (restamper fw = None → rs' = None ∧ fm' = fm)).
    { destruct (restamper fw) as [rs0|]; [|by eexists _, _].
      destruct (Restamp rs0 fm) as [rs' fm']. by eexists _, _. }
    destruct Hshape as (rs' & fm' & -> & Hsame).
    cbn [c dispatched emitted p restamper statFramesProcessed statFramesReceived
         framePut frameGets framePuts].
    rewrite <- !app_assoc. cbn [app].
    rewrite !fmap_app, !length_app in *. cbn [fmap list_fmap length] in *.
    split_and!; try done.
    + intros Hrs. destruct (Hnone Hrs) as [Hr Hacc].
      destruct (Hsame Hr) as [-> ->]. done.
    + by rewrite Hp.
    + rewrite Hprc, incr_mod. f_equal. lia.
Qed.

Lemma run_reached rs acts : reached rs acts (run (NewForwarder rs) acts).
Proof.
  induction acts as [|a acts IH] using rev_ind.
  - unfold reached. cbn. split_and!; done.
  - unfold run. rewrite foldl_app. cbn [foldl]. by apply reached_step.
Qed.

(** X17. The forwarder forwards every frame it accepts, once and in order.
    After any sequence of frames coming in and of functions run by the
    chan, the frames dispatched followed by the frames still waiting in the
    chan are the frames whose copy succeeded, in order of arrival, each with
    the descriptor of its payload, and unchanged when there is no restamper.
    Every arrival takes one frame from the pool and every dispatch gives one
    back, the frame dispatched; a failed copy only emits its error. The
    counters count the arrivals and the dispatches modulo [2^64]. *)
Theorem forwarder_forwards_in_order rs acts :
  let fw := run (NewForwarder rs) acts in
  (dispatched fw ++ c fw).*2 = (accepted acts).*2
  ∧ length (dispatched fw ++ c fw) = length (accepted acts)
  ∧ (rs = None → dispatched fw ++ c fw = accepted acts)
  ∧ emitted fw = refused acts
  ∧ frameGets (p fw) = arrivals acts
  ∧ framePuts (p fw) = (dispatched fw).*1
  ∧ statFramesReceived fw = Z.of_nat (arrivals acts) mod 2 ^ 64
  ∧ statFramesProcessed fw = Z.of_nat (length (dispatched fw)) mod 2 ^ 64.
Proof.
  cbn zeta.
  destruct (run_reached rs acts) as (Hd & Hlen & Hnone & Hev & Hg & Hp & Hrcv & Hprc).
  split_and!; [done|done| |done..]. intros Hrs. by destruct (Hnone Hrs).
Qed.

End Forwarder.

(** ** The rate enforcer of [libav/rate_enforcer.go] *)

Module LibavRateEnforcer.

Import Av Core.

Abbreviation Frame := RateEnforcer.Frame.
Abbreviation framePool := RateEnforcer.framePool.
Abbreviation frameGet := RateEnforcer.frameGet.
Abbreviation framePut := RateEnforcer.framePut.
Abbreviation framePts := RateEnforcer.framePts.
Abbreviation framePuts := RateEnforcer.framePuts.
Abbreviation frameGets := RateEnforcer.frameGets.

(** An item carries the descriptor of the payload it was made from. *)
Record rateEnforcerItem := mkItem { itemD : Rational; itemF : Frame; itemN : Node }.

Record rateEnforcerSlot := mkSlot {
  slotI : option rateEnforcerItem;
  slotN : Node;
  ptsMax : Z;
  ptsMin : Z
}.

(** [FrameHandlerPayload] *)
Record FrameHandlerPayload := mkPayload {
  payloadDescriptor : Rational;
  payloadFrame : Frame;
  payloadNode : Node
}.

(** [FrameRestamper]: an object with a state and a [Restamp] method that
    rewrites a frame; the method takes a flag besides the frame. *)
Record FrameRestamper := mkRestamper {
  restamperState : Z;
  restamperRestamp : Z → Frame → bool → Z * Frame
}.

Definition Restamp (rs : FrameRestamper) (fm : Frame) (flag : bool)
    : FrameRestamper * Frame :=
  let '(st, fm') := restamperRestamp rs (restamperState rs) fm flag in
  (mkRestamper st (restamperRestamp rs), fm').

(** [RateEnforcer]. [dispatched] and [emitted] record what was handed to the
    frame dispatcher and to the event emitter. *)
Record RateEnforcer := mkRateEnforcer {
  buf : list rateEnforcerItem;
  dispatched : list (Frame * Rational);
  emitted : list event;
  n : Node;
  p : framePool;
  previousItem : option rateEnforcerItem;
  restamper : option FrameRestamper;
  slotsCount : Z;
  slots : list (option rateEnforcerSlot);
  statIncomingRate : Z
}.

Definition withBuf (r : RateEnforcer) (v : list rateEnforcerItem) : RateEnforcer :=
  mkRateEnforcer v (dispatched r) (emitted r) (n r) (p r) (previousItem r)
    (restamper r) (slotsCount r) (slots r) (statIncomingRate r).

Definition withDispatched (r : RateEnforcer) (v : list (Frame * Rational)) : RateEnforcer :=
  mkRateEnforcer (buf r) v (emitted r) (n r) (p r) (previousItem r)
    (restamper r) (slotsCount r) (slots r) (statIncomingRate r).

Definition withEmitted (r : RateEnforcer) (v : list event) : RateEnforcer :=
  mkRateEnforcer (buf r) (dispatched r) v (n r) (p r) (previousItem r)
    (restamper r) (slotsCount r) (slots r) (statIncomingRate r).

Definition withNode (r : RateEnforcer) (v : Node) : RateEnforcer :=
  mkRateEnforcer (buf r) (dispatched r) (emitted r) v (p r) (previousItem r)
    (restamper r) (slotsCount r) (slots r) (statIncomingRate r).

Definition withPool (r : RateEnforcer) (v : framePool) : RateEnforcer :=
  mkRateEnforcer (buf r) (dispatched r) (emitted r) (n r) v (previousItem r)
    (restamper r) (slotsCount r) (slots r) (statIncomingRate r).

Definition withPreviousItem (r : RateEnforcer) (v : option rateEnforcerItem) : RateEnforcer :=
  mkRateEnforcer (buf r) (dispatched r) (emitted r) (n r) (p r) v
    (restamper r) (slotsCount r) (slots r) (statIncomingRate r).

Definition withRestamper (r : RateEnforcer) (v : option FrameRestamper) : RateEnforcer :=
  mkRateEnforcer (buf r) (dispatched r) (emitted r) (n r) (p r) (previousItem r)
    v (slotsCount r) (slots r) (statIncomingRate r).

Definition withSlots (r : RateEnforcer) (v : list (option rateEnforcerSlot)) : RateEnforcer :=
  mkRateEnforcer (buf r) (dispatched r) (emitted r) (n r) (p r) (previousItem r)
    (restamper r) (slotsCount r) v (statIncomingRate r).

Definition withStatIncomingRate (r : RateEnforcer) (v : Z) : RateEnforcer :=
  mkRateEnforcer (buf r) (dispatched r) (emitted r) (n r) (p r) (previousItem r)
    (restamper r) (slotsCount r) (slots r) v.

(** [emitAvError] for a failed [AvFrameRef], whose return value is [ret]. *)
Definition emitRefError (r : RateEnforcer) (ret : Z) : RateEnforcer :=
  withEmitted r (emitted r ++ [EventError (ErrOther ret) "avutil.AvFrameRef failed"]).

(** [NewRateEnforcer]: one nil slot and [max(Delay, 1)] slots to wait for
    (the source takes the maximum in [float64], which is exact for a delay
    of at most [2 ^ 53] in absolute value). *)
Definition NewRateEnforcer (delay : Z) (rs : option FrameRestamper) : RateEnforcer :=
  mkRateEnforcer [] [] [] None (RateEnforcer.mkFramePool 0 []) None rs
    (Z.max delay 1) [None] 0.

(** [RateEnforcer.Switch] *)
Definition Switch (v : Node) (r : RateEnforcer) : RateEnforcer := withNode r v.

(** [newRateEnforcerSlot]. The width of the slot,
    [int64(r.timeBase.ToDouble()/p.Descriptor.TimeBase().ToDouble())], is a
    floating-point computation whose result is the input [width]. *)
Definition newRateEnforcerSlot (r : RateEnforcer) (width : Z) (pl : FrameHandlerPayload)
    : rateEnforcerSlot :=
  mkSlot None (n r) (Int64.add (framePts (payloadFrame pl)) width)
    (framePts (payloadFrame pl)).

(** [rateEnforcerSlot.next] *)
Definition next (s : rateEnforcerSlot) : rateEnforcerSlot :=
  mkSlot None (slotN s) (Int64.add (Int64.sub (ptsMax s) (ptsMin s)) (ptsMax s))
    (ptsMax s).

(** The function that handles the payloads of the queue. [ret] is what
    [AvFrameRef] returns. [None] when [r.slots] is empty and indexing its
    last element panics. *)
Definition handlePayload (ret : Z) (width : Z) (pl : FrameHandlerPayload)
    (r : RateEnforcer) : option RateEnforcer :=
  let r1 := withStatIncomingRate r (statIncomingRate r + 1) in
  match last (slots r1) with
  | None => None
  | Some l =>
      let update :=
        match l with
        | None => true
        | Some ls => negb (bool_decide (n r1 = slotN ls))
                     && bool_decide (n r1 = payloadNode pl)
        end in
      let r2 :=
        if update then
          withSlots r1 (<[pred (length (slots r1)) :=
                           Some (newRateEnforcerSlot r1 width pl)]> (slots r1))
        else r1 in
      let r3 := withPool r2 (frameGet (p r2)) in
      if ret <? 0 then Some (emitRefError r3 ret)
      else
        Some (withBuf r3
                (buf r3 ++ [mkItem (payloadDescriptor pl) (payloadFrame pl)
                              (payloadNode pl)]))
  end.

(** *** distribute *)

(** The nodes of the slots, [ns] in [distribute]. *)
Definition usefulNodes (sl : list (option rateEnforcerSlot)) : gset nat :=
  foldr (λ os acc,
    match os with
    | Some s => match slotN s with Some x => {[x]} ∪ acc | None => acc end
    | None => acc
    end) ∅ sl.

Definition withItem (s : rateEnforcerSlot) (it : rateEnforcerItem) : rateEnforcerSlot :=
  mkSlot (Some it) (slotN s) (ptsMax s) (ptsMin s).

(** The loop through the buffer made for one slot, from index [idx] on.
    Removing [r.buf[idx]] and decrementing [idx] before the loop's increment
    leaves [idx] where it is. Every turn either removes an item or moves
    [idx] forward, so [length buf] turns are enough. A frame in the range of
    the slot is assigned to it whether or not the slot already has one. *)
Fixpoint scan (fuel : nat) (ns : gset nat) (idx : nat) (s : rateEnforcerSlot)
    (b : list rateEnforcerItem) (pl : framePool)
    : rateEnforcerSlot * list rateEnforcerItem * framePool :=
  match fuel with
  | O => (s, b, pl)
  | S fuel' =>
      match b !! idx with
      | None => (s, b, pl)
      | Some it =>
          if negb (bool_decide (itemN it = slotN s)) then
            if negb (RateEnforcer.useful ns (itemN it)) then
              scan fuel' ns idx s (delete idx b) (framePut pl (itemF it))
            else scan fuel' ns (S idx) s b pl
          else if (ptsMin s <=? framePts (itemF it))
                  && (framePts (itemF it) <? ptsMax s) then
            scan fuel' ns idx (withItem s it) (delete idx b) pl
          else if framePts (itemF it) <? ptsMin s then
            scan fuel' ns idx s (delete idx b) (framePut pl (itemF it))
          else scan fuel' ns (S idx) s b pl
      end
  end.

(** One turn of the loop through the slots, for the slot at position [k]. *)
Definition distributeSlot (ns : gset nat) (k : nat) (r : RateEnforcer) : RateEnforcer :=
  match slots r !! k with
  | Some (Some s) =>
      match slotI s with
      | Some _ => r
      | None =>
          let '(s', b', p') := scan (length (buf r)) ns 0 s (buf r) (p r) in
          withPool (withBuf (withSlots r (<[k := Some s']> (slots r))) b') p'
      end
  | _ => r
  end.

(** [RateEnforcer.distribute] *)
Definition distribute (r : RateEnforcer) : RateEnforcer :=
  let ns := usefulNodes (slots r) in
  foldl (λ r k, distributeSlot ns k r) r (seq 0 (length (slots r))).

(** *** current *)

(** [RateEnforcer.current]: the item, whether it is the previous item, and
    the rate enforcer. [ret] is what [AvFrameRef] returns, should it be
    called. [None] when [r.slots[0]] is out of range. *)
Definition current (ret : Z) (r : RateEnforcer)
    : option (option rateEnforcerItem * bool * RateEnforcer) :=
  match slots r with
  | [] => None
  | os :: _ =>
      match os ≫= slotI with
      | Some it =>
          let '(r1, pv) :=
            match previousItem r with
            | None => (withPool r (frameGet (p r)), mkItem (itemD it) RateEnforcer.blankFrame None)
            | Some pv => (r, mkItem (itemD pv) RateEnforcer.blankFrame (itemN pv))
            end in
          if ret <? 0 then
            let r2 := emitRefError r1 ret in
            Some (Some it, false,
                  withPreviousItem (withPool r2 (framePut (p r2) (itemF pv))) None)
          else
            Some (Some it, false,
                  withPreviousItem r1 (Some (mkItem (itemD pv) (itemF it) (itemN pv))))
      | None => Some (previousItem r, true, r)
      end
  end.

(** *** The tick *)

(** The deferred function that adds the next slot. [None] when [r.slots] is
    empty and indexing its last element panics. *)
Definition addNextSlot (r : RateEnforcer) : option RateEnforcer :=
  match last (slots r) with
  | None => None
  | Some ps => Some (withSlots r (slots r ++ [next <$> ps]))
  end.

(** Restamping and dispatching the item returned by [current]. The frame is
    restamped in place: when the item is the previous item, the previous
    item holds the restamped frame from then on. *)
Definition dispatchItem (previous : bool) (it : rateEnforcerItem) (r : RateEnforcer)
    : RateEnforcer * rateEnforcerItem :=
  let '(rs, fm) :=
    match restamper r with
    | Some rs => let '(rs', fm') := Restamp rs (itemF it) true in (Some rs', fm')
    | None => (None, itemF it)
    end in
  let it' := mkItem (itemD it) fm (itemN it) in
  let ra := withRestamper r rs in
  let ra := if previous then withPreviousItem ra (Some it') else ra in
  (withDispatched ra (dispatched ra ++ [(fm, itemD it)]), it').

(** One turn of the loop of [startTick], once the sleep is over and the
    context is still alive. The first slot is removed before the deferred
    function adds the next one. [None] stands for a panic. *)
Definition tick (ret : Z) (r : RateEnforcer) : option RateEnforcer :=
  if Z.of_nat (length (slots r)) <? slotsCount r then addNextSlot r
  else
    let r1 := distribute r in
    '(i, previous, r2) ← current ret r1;
    let '(r3, i') :=
      match i with
      | Some it => let '(r', it') := dispatchItem previous it r2 in (r', Some it')
      | None => (r2, None)
      end in
    r4 ← (if previous then Some r3
          else match i' with
               | Some it => Some (withPool r3 (framePut (p r3) (itemF it)))
               | None => None
               end);
    addNextSlot (withSlots r4 (drop 1 (slots r4))).

(** *** Runs *)

(** What happens to a rate enforcer: the source is switched, the queue hands
    over a payload, the ticker ticks. *)
Inductive action :=
  | ActSwitch (nd : Node)
  | ActPayload (ret : Z) (width : Z) (pl : FrameHandlerPayload)
  | ActTick (ret : Z).

Definition step (a : action) (r : RateEnforcer) : option RateEnforcer :=
  match a with
  | ActSwitch nd => Some (Switch nd r)
  | ActPayload ret width pl => handlePayload ret width pl r
  | ActTick ret => tick ret r
  end.

(** A run; [None] when a call panics. *)
Fixpoint run (r : RateEnforcer) (acts : list action) : option RateEnforcer :=
  match acts with
  | [] => Some r
  | a :: acts' => r' ← step a r; run r' acts'
  end.

Definition isTick (a : action) : bool :=
  match a with ActTick _ => true | _ => false end.

(** *** The window *)

Lemma scan_slots_fields fuel ns : ∀ idx s b pl,
  let s' := (scan fuel ns idx s b pl).1.1 in
  slotN s' = slotN s ∧ ptsMax s' = ptsMax s ∧ ptsMin s' = ptsMin s.
Proof.
  induction fuel as [|fuel IH]; intros idx s b pl; cbn [scan]; [done|].
  destruct (b !! idx) as [it|]; [|done].
  repeat case_match; try apply IH.
  destruct (IH idx (withItem s it) (delete idx b) pl) as (? & ? & ?). done.
Qed.

(** What [distributeSlot] leaves alone. *)
Definition untouched (r r' : RateEnforcer) : Prop :=
  length (slots r') = length (slots r)
  ∧ slotsCount r' = slotsCount r
  ∧ dispatched r' = dispatched r
  ∧ emitted r' = emitted r
  ∧ previousItem r' = previousItem r
  ∧ restamper r' = restamper r.

Lemma distributeSlot_untouched ns k r : untouched r (distributeSlot ns k r).
Proof.
  unfold distributeSlot, untouched.
  destruct (slots r !! k) as [[s|]|]; [|done..].
  destruct (slotI s); [done|].
  destruct (scan _ _ _ _ _ _) as [[s' b'] p']. cbn. by rewrite length_insert.
Qed.

Lemma distribute_untouched r : untouched r (distribute r).
Proof.
  unfold distribute. generalize (usefulNodes (slots r)) as ns.
  generalize (seq 0 (length (slots r))) as ks. intros ks ns.
  assert (H : ∀ r0, untouched r r0 →
            untouched r (foldl (λ r k, distributeSlot ns k r) r0 ks)).
  { induction ks as [|k ks IH]; intros r0 Hr0; [done|].
    cbn [foldl]. apply IH.
    destruct Hr0 as (H1 & H2 & H3 & H4 & H5 & H6).
    destruct (distributeSlot_untouched ns k r0) as (G1 & G2 & G3 & G4 & G5 & G6).
    unfold untouched. split_and!; congruence. }
  apply H. by unfold untouched.
Qed.

Lemma current_slots ret r i previous r2 :
  current ret r = Some (i, previous, r2) →
  slots r2 = slots r ∧ slotsCount r2 = slotsCount r
  ∧ (previous = false → is_Some i).
Proof.
  unfold current. destruct (slots r) as [|os sl] eqn:Hsl; [done|].
  destruct (os ≫= slotI) as [it|].
  - destruct (previousItem r) as [pv|]; destruct (ret <? 0); intros [= <- <- <-];
      cbn; rewrite ?Hsl; split_and!; eauto.
  - intros [= <- <- <-]. by rewrite Hsl.
Qed.

Lemma current_is_Some ret r : slots r ≠ [] → is_Some (current ret r).
Proof.
  intros Hne. unfold current. destruct (slots r) as [|os sl]; [done|].
  destruct (os ≫= slotI) as [it|]; [|by eexists].
  destruct (previousItem r) as [pv|]; destruct (ret <? 0); by eexists.
Qed.

Lemma libav_dispatchItem_slots previous it r :
  slots (dispatchItem previous it r).1 = slots r
  ∧ slotsCount (dispatchItem previous it r).1 = slotsCount r.
Proof.
  unfold dispatchItem.
  destruct (restamper r) as [rs|]; [destruct (Restamp rs (itemF it) true)|];
    by destruct previous.
Qed.

(** A tick on a window that has a slot: it panics exactly when the window
    has one slot and that is enough to dispatch; otherwise the window it
    leaves has a slot, one more than before while warming up. *)
Lemma libav_tick_window ret r :
  slots r ≠ [] →
  match tick ret r with
  | None => length (slots r) = 1%nat ∧ slotsCount r ≤ 1
  | Some r' =>
      ¬ (length (slots r) = 1%nat ∧ slotsCount r ≤ 1)
      ∧ slotsCount r' = slotsCount r
      ∧ length (slots r')
        = (if Z.of_nat (length (slots r)) <? slotsCount r
           then S (length (slots r)) else length (slots r))
  end.
Proof.
  intros Hne. assert (Hlen : (0 < length (slots r))%nat).
  { destruct (slots r); [done|]. cbn. lia. }
  unfold tick. destruct (_ <? _) eqn:Hw.
  - apply Z.ltb_lt in Hw. unfold addNextSlot.
    destruct (RateEnforcer.last_is_Some _ Hne) as [ps ->]. cbn.
    rewrite length_app. cbn. split_and!; [lia|done|lia].
  - apply Z.ltb_ge in Hw.
    destruct (distribute_untouched r) as (Hdl & Hdc & _).
    assert (Hne1 : slots (distribute r) ≠ []).
    { intros H0. rewrite H0 in Hdl. cbn in Hdl. lia. }
    destruct (current_is_Some ret (distribute r) Hne1) as [[[i previous] r2] Hcur].
    rewrite Hcur. cbn [mbind option_bind].
    destruct (current_slots _ _ _ _ _ Hcur) as (Hs2 & Hc2 & Hi).
    assert (Hstep : ∃ r4,
              (let '(r3, i') :=
                 match i with
                 | Some it => let '(r', it') := dispatchItem previous it r2 in (r', Some it')
                 | None => (r2, None)
                 end in
               if previous then Some r3
               else match i' with
                    | Some it => Some (withPool r3 (framePut (p r3) (itemF it)))
                    | None => None
                    end) = Some r4
              ∧ slots r4 = slots r2 ∧ slotsCount r4 = slotsCount r2).
    { destruct i as [it|].
      - destruct (libav_dispatchItem_slots previous it r2) as [Hs Hc].
        destruct (dispatchItem previous it r2) as [r3 it']. cbn [fst] in *.
        destruct previous; eexists; split_and!; done.
      - destruct previous; [by eexists|]. by destruct (Hi eq_refl). }
    destruct Hstep as (r4 & Hr4 & Hs4 & Hc4).
    destruct (match i with Some _ => _ | None => _ end) as [r3 i'].
    rewrite Hr4. cbn [mbind option_bind]. unfold addNextSlot.
    cbn [slots withSlots]. rewrite Hs4, Hs2.
    destruct (last (drop 1 (slots (distribute r)))) as [ps|] eqn:Hlast.
    + cbn. rewrite length_app, length_drop, Hdl. cbn.
      assert (drop 1 (slots (distribute r)) ≠ []) by (by intros H0; rewrite H0 in Hlast).
      assert (Hd : (0 < length (drop 1 (slots (distribute r))))%nat).
      { destruct (drop 1 _); [done|]. cbn. lia. }
      rewrite length_drop, Hdl in Hd.
      split_and!; [lia|congruence|lia].
    + apply last_None in Hlast. apply (f_equal length) in Hlast.
      rewrite length_drop, Hdl in Hlast. cbn in Hlast. split; lia.
Qed.

Lemma handlePayload_window ret width pl r :
  slots r ≠ [] →
  ∃ r', handlePayload ret width pl r = Some r'
    ∧ length (slots r') = length (slots r)
    ∧ slotsCount r' = slotsCount r.
Proof.
  intros Hne. unfold handlePayload. cbn [slots withStatIncomingRate].
  destruct (RateEnforcer.last_is_Some _ Hne) as [l ->].
  repeat case_match; eexists; (split; [done|]); cbn; rewrite ?length_insert; done.
Qed.

Lemma nonempty_slots (sl : list (option rateEnforcerSlot)) :
  sl ≠ [] ↔ (0 < length sl)%nat.
Proof. destruct sl; cbn; split; intros; try done; lia. Qed.

Lemma run_safe : ∀ acts r,
  slots r ≠ [] → 2 ≤ slotsCount r → is_Some (run r acts).
Proof.
  induction acts as [|a acts IH]; intros r Hne Hsc; [by eexists|].
  cbn [run]. destruct a as [nd|ret width pl|ret]; cbn [step mbind option_bind].
  - by apply IH.
  - destruct (handlePayload_window ret width pl r Hne) as (r' & -> & Hl & Hc).
    cbn. apply IH; [|lia]. apply nonempty_slots. rewrite Hl. by apply nonempty_slots.
  - pose proof (libav_tick_window ret r Hne) as Ht.
    destruct (tick ret r) as [r'|]; [|lia]. cbn.
    destruct Ht as (_ & Hc & Hl). apply IH; [|lia].
    apply nonempty_slots. apply nonempty_slots in Hne. rewrite Hl.
    destruct (_ <? _); lia.
Qed.

Lemma run_crash : ∀ acts r,
  length (slots r) = 1%nat → slotsCount r ≤ 1 →
  run r acts = None ↔ existsb isTick acts = true.
Proof.
  induction acts as [|a acts IH]; intros r Hlen Hsc; [done|].
  assert (Hne : slots r ≠ []) by (apply nonempty_slots; lia).
  cbn [run existsb]. destruct a as [nd|ret width pl|ret];
    cbn [step mbind option_bind isTick orb].
  - by apply IH.
  - destruct (handlePayload_window ret width pl r Hne) as (r' & -> & Hl & Hc).
    cbn. apply IH; [congruence|lia].
  - pose proof (libav_tick_window ret r Hne) as Ht.
    destruct (tick ret r) as [r'|]; [|done].
    destruct Ht as (Hnot & _). exfalso. by apply Hnot.
Qed.

(** X18. The rate enforcer of [libav/rate_enforcer.go] removes the first
    slot before it adds the next one. A run of a new rate enforcer panics
    exactly when [Delay] is at most one and the run has a tick: with one
    slot to wait for, the first tick empties the window and the deferred
    function indexes its last element; with two or more, no call ever
    panics. [Delay] is taken in the range in which its conversion to
    [float64] and back, made by [NewRateEnforcer], is exact. *)
Theorem run_panics_at_first_tick delay rs acts :
  Z.abs delay ≤ 2 ^ 53 →
  run (NewRateEnforcer delay rs) acts = None
  ↔ delay ≤ 1 ∧ existsb isTick acts = true.
Proof.
  intros _.
  destruct (decide (delay ≤ 1)) as [Hd|Hd].
  - rewrite (run_crash acts (NewRateEnforcer delay rs)); [tauto|done|cbn; lia].
  - destruct (run_safe acts (NewRateEnforcer delay rs)) as [r' Hr'];
      [done|cbn; lia|].
    rewrite Hr'. split; [done|]. intros [? _]. lia.
Qed.

(** *** What a scan does to the buffer *)

(** The frame is of the slot's node and its PTS lies in the slot. *)
Definition inRange (s : rateEnforcerSlot) (it : rateEnforcerItem) : bool :=
  bool_decide (itemN it = slotN s)
  && (ptsMin s <=? framePts (itemF it)) && (framePts (itemF it) <? ptsMax s).

(** The frame is given back to the pool: it is of another node, which no
    slot refers to, or it is of the slot's node and older than the slot. *)
Definition dropped (ns : gset nat) (s : rateEnforcerSlot) (it : rateEnforcerItem) : bool :=
  (negb (bool_decide (itemN it = slotN s)) && negb (RateEnforcer.useful ns (itemN it)))
  || (bool_decide (itemN it = slotN s) && (framePts (itemF it) <? ptsMin s)).

(** The frame stays in the buffer. *)
Definition stays (ns : gset nat) (s : rateEnforcerSlot) (it : rateEnforcerItem) : bool :=
  negb (inRange s it) && negb (dropped ns s it).

(** The scan, item after item. *)
Fixpoint scanList (ns : gset nat) (s : rateEnforcerSlot) (b : list rateEnforcerItem)
    (pl : framePool) : rateEnforcerSlot * list rateEnforcerItem * framePool :=
  match b with
  | [] => (s, [], pl)
  | it :: b' =>
      let leave := let '(s', kept, pl') := scanList ns s b' pl in (s', it :: kept, pl') in
      if negb (bool_decide (itemN it = slotN s)) then
        if negb (RateEnforcer.useful ns (itemN it))
        then scanList ns s b' (framePut pl (itemF it))
        else leave
      else if (ptsMin s <=? framePts (itemF it))
              && (framePts (itemF it) <? ptsMax s) then
        scanList ns (withItem s it) b' pl
      else if framePts (itemF it) <? ptsMin s then
        scanList ns s b' (framePut pl (itemF it))
      else leave
  end.

(** The loop over indexes does what the scan item after item does. *)
Lemma scan_scanList ns : ∀ fuel idx s b pl,
  (length b - idx ≤ fuel)%nat →
  scan fuel ns idx s b pl
  = let '(s', kept, pl') := scanList ns s (drop idx b) pl in
    (s', take idx b ++ kept, pl').
Proof.
  induction fuel as [|fuel IH]; intros idx s b pl Hfuel.
  - cbn [scan]. rewrite drop_ge, take_ge by lia. cbn. by rewrite app_nil_r.
  - cbn [scan]. destruct (b !! idx) as [it|] eqn:Hit.
    + assert (Hlt : (idx < length b)%nat) by (apply lookup_lt_is_Some; eauto).
      assert (Hdel : ∀ s0 pl0,
                scan fuel ns idx s0 (delete idx b) pl0
                = let '(s', kept, pl') := scanList ns s0 (drop (S idx) b) pl0 in
                  (s', take idx b ++ kept, pl')).
      { intros s0 pl0. rewrite IH.
        - rewrite delete_take_drop, drop_app_length', take_app_length'; [done|..];
            rewrite length_take; lia.
        - rewrite length_delete by eauto. lia. }
      assert (Hadv : scan fuel ns (S idx) s b pl
                     = let '(s', kept, pl') := scanList ns s (drop (S idx) b) pl in
                       (s', take idx b ++ it :: kept, pl')).
      { rewrite IH by lia. rewrite (take_S_r _ _ _ Hit).
        destruct (scanList ns s (drop (S idx) b) pl) as [[s' kept] pl'].
        by rewrite <- app_assoc. }
      rewrite (drop_S _ _ _ Hit). cbn [scanList].
      destruct (negb (bool_decide (itemN it = slotN s))).
      * destruct (negb (RateEnforcer.useful ns (itemN it))); [apply Hdel|].
        rewrite Hadv. by destruct (scanList ns s (drop (S idx) b) pl) as [[s' kept] pl'].
      * destruct ((ptsMin s <=? framePts (itemF it)) && (framePts (itemF it) <? ptsMax s)).
        -- apply Hdel.
        -- destruct (framePts (itemF it) <? ptsMin s); [apply Hdel|].
           rewrite Hadv.
           by destruct (scanList ns s (drop (S idx) b) pl) as [[s' kept] pl'].
    + apply lookup_ge_None in Hit. rewrite drop_ge, take_ge by lia. cbn.
      by rewrite app_nil_r.
Qed.

(** One step of the scan, by what becomes of the item. *)
Lemma scanList_cons ns s it b pl :
  scanList ns s (it :: b) pl
  = if inRange s it then scanList ns (withItem s it) b pl
    else if dropped ns s it then scanList ns s b (framePut pl (itemF it))
    else let '(s', kept, pl') := scanList ns s b pl in (s', it :: kept, pl').
Proof.
  cbn [scanList]. unfold inRange, dropped.
  destruct (bool_decide (itemN it = slotN s)); cbn [negb andb orb].
  - destruct (ptsMin s <=? framePts (itemF it)) eqn:Hlo; cbn [andb orb].
    + destruct (framePts (itemF it) <? ptsMax s); cbn [andb orb]; [done|].
      apply Z.leb_le in Hlo.
      by rewrite (proj2 (Z.ltb_ge (framePts (itemF it)) (ptsMin s))) by lia.
    + done.
  - by destruct (RateEnforcer.useful ns (itemN it)).
Qed.

Lemma inRange_not_dropped ns s it : inRange s it = true → dropped ns s it = false.
Proof.
  unfold inRange, dropped. destruct (bool_decide (itemN it = slotN s)); [|done].
  cbn [negb andb orb]. intros [Hlo _]%andb_true_iff. apply Z.leb_le in Hlo.
  apply Z.ltb_ge. lia.
Qed.

(** The scan in closed form: the last frame in range wins. *)
Lemma scanList_closed ns : ∀ b s pl,
  scanList ns s b pl
  = (match last (filter (λ it, inRange s it = true) b) with
     | Some w => withItem s w
     | None => s
     end,
     filter (λ it, stays ns s it = true) b,
     RateEnforcer.mkFramePool (frameGets pl)
       (framePuts pl
        ++ (itemF <$> filter (λ it, dropped ns s it = true) b))).
Proof.
  induction b as [|it b IH]; intros s pl.
  - cbn. rewrite app_nil_r. by destruct pl.
  - rewrite scanList_cons, !filter_cons. unfold stays.
    destruct (inRange s it) eqn:Hin; cbn [negb andb].
    + rewrite (inRange_not_dropped ns s it Hin).
      rewrite IH, decide_True, !decide_False by done.
      rewrite last_cons. change (inRange (withItem s it)) with (inRange s).
      change (stays ns (withItem s it)) with (stays ns s).
      change (dropped ns (withItem s it)) with (dropped ns s).
      by destruct (last _).
    + rewrite (decide_False (P := false = true)) by done.
      destruct (dropped ns s it) eqn:Hd.
      * rewrite IH, decide_False, decide_True by done.
        cbn. by rewrite <- app_assoc.
      * rewrite IH, decide_True, decide_False by done. done.
Qed.

Lemma filter_three {A} (P Q R : A → bool) (l : list A) :
  (∀ x, (if P x then 1 else 0) + (if Q x then 1 else 0) + (if R x then 1 else 0) = 1)%nat →
  length l
  = (length (filter (λ x, P x = true) l) + length (filter (λ x, Q x = true) l)
     + length (filter (λ x, R x = true) l))%nat.
Proof.
  intros H. induction l as [|x l IH]; [done|].
  rewrite !filter_cons. specialize (H x).
  destruct (P x), (Q x), (R x); cbn in H; try lia;
    rewrite ?(decide_True (P := true = true)), ?(decide_False (P := false = true)) by done;
    cbn; lia.
Qed.

(** X19. In the rate enforcer of [libav/rate_enforcer.go], the turn of
    [distribute] made for an empty slot assigns to the slot every frame of
    the buffer that is in the slot's range, one over the other: the last one
    stays in the slot. The buffer keeps the frames that are neither in range
    nor dropped, and the dropped frames (of a node no slot refers to, or of
    the slot's node and older than the slot) go back to the pool, in order.
    Every frame in range leaves the buffer, so all but the last are neither
    in the buffer, nor in the slot, nor back in the pool. *)
Theorem distribute_last_wins r k s :
  slots r !! k = Some (Some s) → slotI s = None →
  let ns := usefulNodes (slots r) in
  let r' := distributeSlot ns k r in
  let fitting := filter (λ it, inRange s it = true) (buf r) in
  slots r' = <[k := Some (match last fitting with
                          | Some w => withItem s w
                          | None => s
                          end)]> (slots r)
  ∧ buf r' = filter (λ it, stays ns s it = true) (buf r)
  ∧ framePuts (p r')
    = framePuts (p r)
      ++ (itemF <$> filter (λ it, dropped ns s it = true) (buf r))
  ∧ frameGets (p r') = frameGets (p r)
  ∧ (length (buf r') + length (framePuts (p r')) + length fitting
     = length (buf r) + length (framePuts (p r)))%nat.
Proof.
  intros Hk Hs. cbn zeta. unfold distributeSlot. rewrite Hk, Hs.
  rewrite scan_scanList by lia. rewrite drop_0, take_0, scanList_closed.
  cbn [app slots buf p withPool withBuf withSlots RateEnforcer.framePuts
       RateEnforcer.frameGets].
  split_and!; try done.
  rewrite length_app, length_fmap.
  rewrite (filter_three (λ it, stays (usefulNodes (slots r)) s it)
             (λ it, dropped (usefulNodes (slots r)) s it)
             (inRange s) (buf r)); [lia|].
  intros it. unfold stays.
  pose proof (inRange_not_dropped (usefulNodes (slots r)) s it) as Hnd.
  destruct (inRange s it); [by rewrite Hnd|].
  by destruct (dropped (usefulNodes (slots r)) s it).
Qed.

(** A slot of node 1 over [40, 80) and a buffer of five frames: one of node
    2, which no slot refers to, and four of node 1 with PTS 10, 45, 60, 90. *)
Definition scanExample : RateEnforcer :=
  mkRateEnforcer
    [ mkItem (mkRational 1 25) (RateEnforcer.mkFrame 50 1) (Some 2%nat);
      mkItem (mkRational 1 25) (RateEnforcer.mkFrame 10 2) (Some 1%nat);
      mkItem (mkRational 1 25) (RateEnforcer.mkFrame 45 3) (Some 1%nat);
      mkItem (mkRational 1 25) (RateEnforcer.mkFrame 60 4) (Some 1%nat);
      mkItem (mkRational 1 25) (RateEnforcer.mkFrame 90 5) (Some 1%nat) ]
    [] [] (Some 1%nat) (RateEnforcer.mkFramePool 5 []) None None 2
    [Some (mkSlot None (Some 1%nat) 80 40)] 0.

Lemma distribute_last_wins_witness :
  slots (distributeSlot (usefulNodes (slots scanExample)) 0 scanExample)
  = [Some (mkSlot (Some (mkItem (mkRational 1 25) (RateEnforcer.mkFrame 60 4)
                           (Some 1%nat)))
             (Some 1%nat) 80 40)]
  ∧ buf (distributeSlot (usefulNodes (slots scanExample)) 0 scanExample)
    = [mkItem (mkRational 1 25) (RateEnforcer.mkFrame 90 5) (Some 1%nat)]
  ∧ framePuts (p (distributeSlot (usefulNodes (slots scanExample)) 0 scanExample))
    = [RateEnforcer.mkFrame 50 1; RateEnforcer.mkFrame 10 2].
Proof.
  pose proof (distribute_last_wins scanExample 0 (mkSlot None (Some 1%nat) 80 40)) as H.
  cbn zeta in H.
  destruct H as (Hslots & Hbuf & Hputs & _); [reflexivity|reflexivity|].
  rewrite Hslots, Hbuf, Hputs. split_and!; vm_compute; reflexivity.
Defined.

(** *** The previous item *)

(** The item of the first slot, if any. *)
Definition slot0Item (r : RateEnforcer) : option rateEnforcerItem :=
  match slots r with
  | os :: _ => os ≫= slotI
  | [] => None
  end.

Lemma dispatchItem_fields previous it r :
  ∃ fm, (dispatchItem previous it r).2 = mkItem (itemD it) fm (itemN it)
    ∧ dispatched (dispatchItem previous it r).1 = dispatched r ++ [(fm, itemD it)]
    ∧ (restamper r = None → fm = itemF it)
    ∧ previousItem (dispatchItem previous it r).1
      = (if previous then Some (mkItem (itemD it) fm (itemN it)) else previousItem r)
    ∧ slots (dispatchItem previous it r).1 = slots r.
Proof.
  unfold dispatchItem.
  destruct (restamper r) as [rs|]; [destruct (Restamp rs (itemF it) true) as [rs' fm']|].
  - exists fm'. by destruct previous.
  - exists (itemF it). by destruct previous.
Qed.

Lemma addNextSlot_fields r r' :
  addNextSlot r = Some r' →
  previousItem r' = previousItem r ∧ dispatched r' = dispatched r.
Proof.
  unfold addNextSlot. destruct (last (slots r)); [|done]. by intros [= <-].
Qed.

(** X20. In the rate enforcer of [libav/rate_enforcer.go] the previous item
    keeps the descriptor it was created with. Over a tick that finds a
    previous item, the previous item, if there still is one, has the same
    descriptor as before. When the first slot holds an item, that item's
    frame is dispatched with the item's own descriptor and, if the copy
    succeeds, becomes the frame of the previous item, under the previous
    item's old descriptor; when the first slot holds no item, the frame of
    the previous item is dispatched with that old descriptor. *)
Theorem previous_item_keeps_descriptor ret r r' pv :
  previousItem r = Some pv → tick ret r = Some r' →
  (∀ pv', previousItem r' = Some pv' → itemD pv' = itemD pv)
  ∧ ((Z.of_nat (length (slots r)) <? slotsCount r) = false →
     match slot0Item (distribute r) with
     | Some it =>
         (∃ fm, dispatched r' = dispatched r ++ [(fm, itemD it)]
            ∧ (restamper r = None → fm = itemF it))
         ∧ previousItem r'
           = (if ret <? 0 then None
              else Some (mkItem (itemD pv) (itemF it) (itemN pv)))
     | None =>
         ∃ fm, dispatched r' = dispatched r ++ [(fm, itemD pv)]
           ∧ (restamper r = None → fm = itemF pv)
           ∧ previousItem r' = Some (mkItem (itemD pv) fm (itemN pv))
     end).
Proof.
  intros Hpv. unfold tick. destruct (_ <? _) eqn:Hw.
  - intros Ht. destruct (addNextSlot_fields _ _ Ht) as [Hp _].
    split; [|done]. intros pv'. rewrite Hp, Hpv. by intros [= <-].
  - destruct (distribute_untouched r) as (_ & _ & Hdd & _ & Hdp & Hdr).
    rewrite <- Hdp in Hpv. rewrite <- Hdd, <- Hdr.
    set (r1 := distribute r) in *. clearbody r1.
    unfold current, slot0Item.
    destruct (slots r1) as [|os sl] eqn:Hsl; [done|].
    destruct (os ≫= slotI) as [it|] eqn:Hit.
    + rewrite Hpv. destruct (ret <? 0) eqn:Hret; cbn [mbind option_bind].
      * set (r2 := withPreviousItem _ None).
        destruct (dispatchItem_fields false it r2) as (fm & Hi' & Hd & Hfm & Hp & Hs).
        destruct (dispatchItem false it r2) as [r3 i']. cbn [fst snd] in *.
        cbn [mbind option_bind]. intros Ht.
        destruct (addNextSlot_fields _ _ Ht) as [Hp5 Hd5]. cbn in Hp5, Hd5.
        rewrite Hp5, Hd5, Hp, Hd. cbn. split; [done|]. intros _.
        split; [|done]. exists fm. split; [done|]. done.
      * set (r2 := withPreviousItem _ _).
        destruct (dispatchItem_fields false it r2) as (fm & Hi' & Hd & Hfm & Hp & Hs).
        destruct (dispatchItem false it r2) as [r3 i']. cbn [fst snd] in *.
        cbn [mbind option_bind]. intros Ht.
        destruct (addNextSlot_fields _ _ Ht) as [Hp5 Hd5]. cbn in Hp5, Hd5.
        rewrite Hp5, Hd5, Hp, Hd. cbn. split; [by intros pv' [= <-]|]. intros _.
        split; [|done]. exists fm. split; [done|]. done.
    + rewrite Hpv. cbn [mbind option_bind].
      destruct (dispatchItem_fields true pv r1) as (fm & Hi' & Hd & Hfm & Hp & Hs).
      destruct (dispatchItem true pv r1) as [r3 i']. cbn [fst snd] in *.
      cbn [mbind option_bind]. intros Ht.
      destruct (addNextSlot_fields _ _ Ht) as [Hp5 Hd5]. cbn in Hp5, Hd5.
      rewrite Hp5, Hd5, Hp, Hd. split; [by intros pv' [= <-]|]. intros _.
      exists fm. done.
Qed.

(** A rate enforcer waiting for two slots whose previous item was created
    from a frame described in 1/25 s, and whose first slot holds a frame of
    node 2 described in 1/30 s. *)
Definition staleExample : RateEnforcer :=
  mkRateEnforcer [] [] [] (Some 2%nat) (RateEnforcer.mkFramePool 2 []) 
    (Some (mkItem (mkRational 1 25) (RateEnforcer.mkFrame 0 1) None)) None 2
    [ Some (mkSlot (Some (mkItem (mkRational 1 30) (RateEnforcer.mkFrame 40 2)
                            (Some 2%nat)))
              (Some 2%nat) 80 40);
      Some (mkSlot None (Some 2%nat) 120 80) ] 0.

Definition afterTick (r : RateEnforcer) : RateEnforcer := default r (tick 0 r).

Lemma staleExample_tick : tick 0 staleExample = Some (afterTick staleExample).
Proof. vm_compute. reflexivity. Qed.

Lemma previous_item_keeps_descriptor_witness :
  dispatched (afterTick staleExample)
  = [(RateEnforcer.mkFrame 40 2, mkRational 1 30)]
  ∧ previousItem (afterTick staleExample)
    = Some (mkItem (mkRational 1 25) (RateEnforcer.mkFrame 40 2) None).
Proof.
  destruct (previous_item_keeps_descriptor 0 staleExample (afterTick staleExample)
              (mkItem (mkRational 1 25) (RateEnforcer.mkFrame 0 1) None))
    as [_ H].
  - reflexivity.
  - exact staleExample_tick.
  - assert (H0 : slot0Item (distribute staleExample)
                 = Some (mkItem (mkRational 1 30) (RateEnforcer.mkFrame 40 2)
                           (Some 2%nat))) by (vm_compute; reflexivity).
    rewrite H0 in H. destruct H as [(fm & Hd & Hfm) Hp]; [reflexivity|].
    rewrite (Hfm eq_refl) in Hd. split; [exact Hd|exact Hp].
Defined.

Lemma run_panics_at_first_tick_witness :
  run (NewRateEnforcer 1 None) [ActTick 0] = None.
Proof.
  assert (Hd : Z.abs 1 ≤ 2 ^ 53) by (vm_compute; discriminate).
  apply (proj2 (run_panics_at_first_tick 1 None [ActTick 0] Hd)).
  split; [vm_compute; discriminate|reflexivity].
Defined.

End LibavRateEnforcer.

(** ** The mocked logger of the event logger's test *)

Module MockedLogger.

(** [mockedLogger.msgs]: how often each message was printed. *)
Abbreviation mockedLogger := (gmap string Z).

Definition newMockedLogger : mockedLogger := ∅.

(** [Print] and [Printf], once the message is formatted: [l.msgs[msg]++].
    A message that is not in the map counts as zero. *)
Definition Print (l : mockedLogger) (msg : string) : mockedLogger :=
  <[msg := Int64.add (default 0 (l !! msg)) 1]> l.

(** What the mocked logger holds after the messages [lines]. *)
Definition printed (lines : list string) : mockedLogger :=
  foldl Print newMockedLogger lines.

Lemma received_snoc line lines x :
  EventLogger.received line (lines ++ [x])
  = (EventLogger.received line lines + (if decide (x = line) then 1 else 0))%nat.
Proof.
  unfold EventLogger.received. rewrite filter_app, length_app, filter_cons, filter_nil.
  by destruct (decide (x = line)).
Qed.

Lemma received_pos line lines : line ∈ lines ↔ (0 < EventLogger.received line lines)%nat.
Proof.
  unfold EventLogger.received. split.
  - intros Hin.
    assert (Hf : line ∈ filter (λ l, l = line) lines) by (by apply list_elem_of_filter).
    destruct (filter _ lines); [by apply elem_of_nil in Hf|cbn; lia].
  - intros Hpos. destruct (filter (λ l, l = line) lines) as [|y ys] eqn:Hf; [cbn in Hpos; lia|].
    assert (Hy : y ∈ filter (λ l, l = line) lines) by (rewrite Hf; left).
    apply list_elem_of_filter in Hy as [-> Hy]. done.
Qed.

Lemma printed_lookup lines : ∀ line,
  printed lines !! line
  = if decide (line ∈ lines)
    then Some (Int64.wrap (Z.of_nat (EventLogger.received line lines)))
    else None.
Proof.
  induction lines as [|x lines IH] using rev_ind; intros line.
  - rewrite decide_False by apply not_elem_of_nil. done.
  - unfold printed. rewrite foldl_app. cbn [foldl]. fold (printed lines).
    unfold Print. rewrite received_snoc.
    destruct (decide (x = line)) as [->|Hne].
    + rewrite lookup_insert_eq, decide_True by (apply elem_of_app; right; left).
      rewrite IH. f_equal. destruct (decide (line ∈ lines)) as [Hin|Hnin]; cbn [default].
      * unfold Int64.add, id. rewrite Int64.wrap_add_l. f_equal. lia.
      * assert (H0 : EventLogger.received line lines = 0%nat).
        { destruct (EventLogger.received line lines) eqn:Hr; [done|].
          exfalso. apply Hnin, received_pos. lia. }
        rewrite H0. done.
    + rewrite lookup_insert_ne, Nat.add_0_r by done. rewrite IH.
      destruct (decide (line ∈ lines)) as [Hin|Hnin].
      * by rewrite decide_True by (apply elem_of_app; by left).
      * rewrite decide_False; [done|].
        intros [?|Hx%list_elem_of_singleton]%elem_of_app; done.
Qed.

(** X21. The mocked logger of [TestEventLogger] tallies the messages it is
    given: after any sequence of [Print] and [Printf] calls, the map holds
    exactly the messages printed, each with the number of times it was
    printed (within [int]), and therefore does not depend on the order in
    which the messages came. *)
Theorem mocked_logger_tallies lines :
  (∀ line,
     printed lines !! line
     = if decide (line ∈ lines)
       then Some (Int64.wrap (Z.of_nat (EventLogger.received line lines)))
       else None)
  ∧ dom (printed lines) = list_to_set lines
  ∧ (∀ lines', lines ≡ₚ lines' → printed lines' = printed lines).
Proof.
  split_and!.
  - apply printed_lookup.
  - apply set_eq. intros line. rewrite elem_of_dom, printed_lookup, elem_of_list_to_set.
    destruct (decide (line ∈ lines)); split; intros H; try done; by destruct H.
  - intros lines' Hperm. apply map_eq. intros line. rewrite !printed_lookup.
    assert (Hr : EventLogger.received line lines' = EventLogger.received line lines).
    { unfold EventLogger.received. by rewrite Hperm. }
    rewrite Hr. destruct (decide (line ∈ lines)) as [Hin|Hnin].
    + rewrite decide_True; [done|]. by rewrite <- Hperm.
    + rewrite decide_False; [done|]. by rewrite <- Hperm.
Qed.

End MockedLogger.

(** ** The description of a context *)

Module ContextString.

Import Av.

(** [astiav.MediaType], as far as [String] distinguishes it. *)
Inductive mediaType :=
  | MediaTypeAudio
  | MediaTypeVideo
  | MediaTypeOther (code : Z).

(** [Context], without the dictionary and the thread settings, which
    [String] does not read. *)
Record Context := mkContext {
  BitRate : Z;
  CodecID : Z;
  CodecName : string;
  Index : Z;
  MediaType : mediaType;
  TimeBase : Rational;
  ChannelLayout : Z;
  SampleFormat : Z;
  SampleRate : Z;
  FrameRate : Rational;
  GopSize : Z;
  Height : Z;
  PixelFormat : Z;
  SampleAspectRatio : Rational;
  Width : Z
}.

(** [strings.Join] *)
Fixpoint Join (elems : list string) (sep : string) : string :=
  match elems with
  | [] => ""
  | [x] => x
  | x :: rest => x +:+ sep +:+ Join rest sep
  end.

Section describing.

(** The functions of the standard library and of the codec layer that turn
    a value into text, and the test [r.ToDouble() > 0]. *)
Variable formatInt : Z → string.
Variable mediaTypeString : mediaType → string.
Variable codecIDString : Z → string.
Variable rationalString : Rational → string.
Variable channelLayoutString : Z → string.
Variable sampleFormatString : Z → string.
Variable pixelFormatString : Z → string.
Variable isPositive : Rational → bool.

(** The value of [ss] before the switch on the media type. *)
Definition shared (ctx : Context) : list string :=
  let ss := [] in
  let ss := ss ++ ["index: " +:+ formatInt (Index ctx)] in
  let ss := ss ++ ["media type: " +:+ mediaTypeString (MediaType ctx)] in
  let ss := if 0 <? BitRate ctx
            then ss ++ ["bitrate: " +:+ formatInt (BitRate ctx)] else ss in
  let ss := if negb (String.eqb (CodecName ctx) "")
            then ss ++ ["codec name: " +:+ CodecName ctx]
            else if 0 <? CodecID ctx
                 then ss ++ ["codec id: " +:+ codecIDString (CodecID ctx)] else ss in
  if isPositive (TimeBase ctx)
  then ss ++ ["timebase: " +:+ rationalString (TimeBase ctx)] else ss.

(** What the audio case appends. *)
Definition audio (ctx : Context) : list string :=
  let ss := ["channel layout: "; channelLayoutString (ChannelLayout ctx)] in
  let ss := if 0 <=? SampleFormat ctx
            then ss ++ ["sample fmt: " +:+ sampleFormatString (SampleFormat ctx)]
            else ss in
  if 0 <? SampleRate ctx
  then ss ++ ["sample rate: " +:+ formatInt (SampleRate ctx)] else ss.

(** What the video case appends. *)
Definition video (ctx : Context) : list string :=
  let ss := [] in
  let ss := if (0 <? Height ctx) && (0 <? Width ctx)
            then ss ++ ["video size: " +:+ formatInt (Width ctx) +:+ "x"
                          +:+ formatInt (Height ctx)]
            else ss in
  let ss := if 0 <=? PixelFormat ctx
            then ss ++ ["pixel format: " +:+ pixelFormatString (PixelFormat ctx)]
            else ss in
  let ss := if isPositive (SampleAspectRatio ctx)
            then ss ++ ["sample aspect ratio: "
                          +:+ rationalString (SampleAspectRatio ctx)]
            else ss in
  let ss := if isPositive (FrameRate ctx)
            then ss ++ ["framerate: " +:+ rationalString (FrameRate ctx)] else ss in
  if 0 <? GopSize ctx
  then ss ++ ["gop size: " +:+ formatInt (GopSize ctx)] else ss.

(** The value of [ss] when [String] returns. *)
Definition segments (ctx : Context) : list string :=
  shared ctx
  ++ match MediaType ctx with
     | MediaTypeAudio => audio ctx
     | MediaTypeVideo => video ctx
     | MediaTypeOther _ => []
     end.

(** [Context.String] *)
Definition StringOf (ctx : Context) : string := Join (segments ctx) " - ".

Lemma append_assoc (a b c : string) : (a +:+ b) +:+ c = a +:+ (b +:+ c).
Proof.
  induction a as [|x a IH]; [done|].
  change (String x (a +:+ b) +:+ c = String x (a +:+ b +:+ c)).
  change (String x ((a +:+ b) +:+ c) = String x (a +:+ b +:+ c)).
  by rewrite IH.
Qed.

Lemma Join_app l1 l2 sep :
  l1 ≠ [] → l2 ≠ [] →
  Join (l1 ++ l2) sep = Join l1 sep +:+ sep +:+ Join l2 sep.
Proof.
  intros H1 H2. induction l1 as [|x [|y l1] IH]; [done| |].
  - destruct l2; done.
  - change (Join ((x :: y :: l1) ++ l2) sep)
      with (x +:+ sep +:+ Join ((y :: l1) ++ l2) sep).
    rewrite IH by done.
    change (Join (x :: y :: l1) sep) with (x +:+ sep +:+ Join (y :: l1) sep).
    by rewrite !append_assoc.
Qed.

Lemma shared_shape ctx :
  ∃ rest, shared ctx
          = ("index: " +:+ formatInt (Index ctx))
            :: ("media type: " +:+ mediaTypeString (MediaType ctx)) :: rest
    ∧ (length rest ≤ 3)%nat.
Proof.
  unfold shared. cbn [app].
  destruct (0 <? BitRate ctx), (negb (String.eqb (CodecName ctx) "")),
    (0 <? CodecID ctx), (isPositive (TimeBase ctx)); cbn [app];
    eexists; (split; [reflexivity|]); cbn; lia.
Qed.

(** X22. The text [String] gives for a context. It always begins with the
    index and the media type, in that order, followed by at most eight other
    fields, all joined with [" - "]. For an audio context the label of the
    channel layout and the layout itself are two fields of their own: the
    text has the separator between them, as between any two fields. *)
Theorem context_string ctx :
  (∃ rest,
     segments ctx
     = ("index: " +:+ formatInt (Index ctx))
       :: ("media type: " +:+ mediaTypeString (MediaType ctx)) :: rest
     ∧ (length rest ≤ 8)%nat
     ∧ StringOf ctx
       = "index: " +:+ formatInt (Index ctx) +:+ " - "
         +:+ Join (("media type: " +:+ mediaTypeString (MediaType ctx)) :: rest) " - ")
  ∧ (MediaType ctx = MediaTypeAudio →
     ∃ after,
       segments ctx
       = shared ctx
         ++ "channel layout: " :: channelLayoutString (ChannelLayout ctx) :: after
       ∧ StringOf ctx
         = Join (shared ctx ++ ["channel layout: "]) " - " +:+ " - "
           +:+ Join (channelLayoutString (ChannelLayout ctx) :: after) " - ").
Proof.
  destruct (shared_shape ctx) as (rest & Hshared & Hlen). split.
  - unfold StringOf, segments. rewrite Hshared. eexists. split; [reflexivity|].
    split; [|done]. rewrite length_app.
    assert (Hcase : (length match MediaType ctx with
                            | MediaTypeAudio => audio ctx
                            | MediaTypeVideo => video ctx
                            | MediaTypeOther _ => []
                            end ≤ 5)%nat).
    { destruct (MediaType ctx); [| |cbn; lia].
      - unfold audio. destruct (0 <=? SampleFormat ctx), (0 <? SampleRate ctx);
          cbn; lia.
      - unfold video.
        destruct ((0 <? Height ctx) && (0 <? Width ctx)), (0 <=? PixelFormat ctx),
          (isPositive (SampleAspectRatio ctx)), (isPositive (FrameRate ctx)),
          (0 <? GopSize ctx); cbn; lia. }
    lia.
  - intros Haudio. unfold StringOf, segments. rewrite Haudio.
    assert (Hafter : ∃ after,
              audio ctx
              = "channel layout: " :: channelLayoutString (ChannelLayout ctx) :: after).
    { unfold audio. destruct (0 <=? SampleFormat ctx), (0 <? SampleRate ctx);
        by eexists. }
    destruct Hafter as (after & ->). exists after. split; [done|].
    rewrite (cons_middle "channel layout: "), app_assoc.
    rewrite Join_app; [done| |done].
    intros H0. apply (f_equal length) in H0. rewrite length_app in H0. cbn in H0. lia.
Qed.

End describing.

End ContextString.
